(** * Self-play orchestration of KataGo ([cpp/selfplay.cpp])

    A shallow embedding of [MainCmds::selfplay]: the model-loading function
    [loadLatestNeuralNetIntoManager], the game threads ([gameLoop] with its
    [checkForNewNNEval] callback), the polling thread ([modelLoadLoop]),
    the shutdown sequence of the main thread, the check of the command
    line and the signal handler.  Threads are interleaved at the
    granularity of their accesses to shared objects (the manager, the atomic
    counter [numGamesStarted], the atomic flag [shouldStop], the mutex
    [modelLoadMutex]).  The manager itself ([program/selfplaymanager.cpp])
    is not among the sources; its operations are modelled from the
    specification and marked as such. *)

From Stdlib Require Import ZArith Lia SpecFloat.
From stdpp Require Import base tactics option list strings.

Local Open Scope Z_scope.
Local Open Scope list_scope.

(** * The program and what is stated about it *)

(** ** Machine integers *)

(** Two's complement wrap-around of a [bits]-wide signed integer. *)
Definition wrap_signed (bits x : Z) : Z :=
  (x + 2 ^ (bits - 1)) mod 2 ^ bits - 2 ^ (bits - 1).

(** Wrap-around of a [bits]-wide unsigned integer ([size_t] is 64 bits). *)
Definition wrap_unsigned (bits x : Z) : Z := x mod 2 ^ bits.

Definition int_min : Z := - 2 ^ 31.
Definition int_max : Z := 2 ^ 31 - 1.
Definition int_mul (a b : Z) : Z := wrap_signed 32 (a * b).
Definition int_add (a b : Z) : Z := wrap_signed 32 (a + b).

(** ** Configuration read at start-up (lines 84-105) *)

Record Config := mkConfig {
  numGameThreads : Z;       (* cfg.getInt("numGameThreads",1,16384) *)
  numSearchThreads : Z;     (* cfg.getInt("numSearchThreads") *)
  maxGamesTotal : Z;        (* cfg.getInt64("numGamesTotal",1,1<<62) *)
  switchNetsMidGame : bool; (* cfg.getBool("switchNetsMidGame") *)
  outputDir : string
}.

(** The ranges that the [cfg.getInt] calls of lines 85 and 101 enforce. *)
Definition valid_config (cfg : Config) : Prop :=
  1 <= numGameThreads cfg <= 16384 /\ 1 <= maxGamesTotal cfg <= 2 ^ 62.

(** Line 144: [cfg.getInt("numSearchThreads") * numGameThreads * 2 + 16],
    an expression of type [int]. *)
Definition maxConcurrentEvals (cfg : Config) : Z :=
  int_add (int_mul (int_mul (numSearchThreads cfg) (numGameThreads cfg)) 2) 16.

(** ** The manager ([program/selfplaymanager.h]) *)

(** A handle is named by its position in the manager's table, which plays
    the role of the [NNEvaluator*] pointer. *)
Abbreviation hid := nat.

Record Handle := mkHandle {
  modelName : string;
  refCount : Z;        (* workers currently holding the handle *)
  retiring : bool;     (* scheduled for cleanup *)
  destroyRuns : nat;   (* how many times the destroy routine has run *)
  gamesStarted : nat;  (* countOneGameStarted *)
  pipeline : list Z    (* game records routed to this handle's writers *)
}.

Abbreviation Manager := (list Handle).

Definition destroyed (h : Handle) : bool := negb (Nat.eqb (destroyRuns h) 0).
Definition drained (h : Handle) : bool := retiring h && (refCount h =? 0).
Definition offered (h : Handle) : bool := negb (destroyed h) && negb (retiring h).

Definition incRef (h : Handle) : Handle :=
  mkHandle (modelName h) (refCount h + 1) (retiring h) (destroyRuns h)
           (gamesStarted h) (pipeline h).
Definition decRef (h : Handle) : Handle :=
  mkHandle (modelName h) (refCount h - 1) (retiring h) (destroyRuns h)
           (gamesStarted h) (pipeline h).
Definition markRetiring (h : Handle) : Handle :=
  mkHandle (modelName h) (refCount h) true (destroyRuns h)
           (gamesStarted h) (pipeline h).
Definition runDestroy (h : Handle) : Handle :=
  mkHandle (modelName h) (refCount h) (retiring h) (S (destroyRuns h))
           (gamesStarted h) (pipeline h).
Definition countGame (h : Handle) : Handle :=
  mkHandle (modelName h) (refCount h) (retiring h) (destroyRuns h)
           (S (gamesStarted h)) (pipeline h).
Definition pushGame (g : Z) (h : Handle) : Handle :=
  mkHandle (modelName h) (refCount h) (retiring h) (destroyRuns h)
           (gamesStarted h) (pipeline h ++ [g]).

(** Modelled from the spec: the destroy transition of a handle, taken when
    the handle is retiring and its count is zero (section 3, Resource
    Handle; [program/selfplaymanager.cpp] is not part of the sources). *)
Definition maybeDestroy (h : Handle) : Handle :=
  if drained h then runDestroy h else h.

(** Position of the newest handle satisfying [P], scanning from [i]. *)
Fixpoint newestFrom (P : Handle -> bool) (i : nat) (m : list Handle) : option nat :=
  match m with
  | [] => None
  | h :: m' =>
      match newestFrom P (S i) m' with
      | Some j => Some j
      | None => if P h then Some i else None
      end
  end.

(** Position of the oldest handle satisfying [P], scanning from [i]. *)
Fixpoint oldestFrom (P : Handle -> bool) (i : nat) (m : list Handle) : option nat :=
  match m with
  | [] => None
  | h :: m' => if P h then Some i else oldestFrom P (S i) m'
  end.

(** Modelled from the spec: the handle handed out by [acquireLatest], the
    newest one that is neither destroyed nor retiring (section 4.1 and the
    [retiring] field of section 3). *)
Definition latest (m : Manager) : option hid := newestFrom offered 0 m.

(** Modelled from the spec: [SelfplayManager::acquireLatest] (section 4.1):
    returns the latest handle with its count incremented; [None] is the
    NULL on which the callers assert. *)
Definition acquireLatest (m : Manager) : option (hid * Manager) :=
  match latest m with
  | Some i =>
      match m !! i with
      | Some h => Some (i, <[i := incRef h]> m)
      | None => None
      end
  | None => None
  end.

(** Modelled from the spec: [SelfplayManager::release] (section 4.1):
    decrements the count and destroys a retiring handle whose count has
    reached zero; [None] is the fatal release of a handle that the manager
    does not have. *)
Definition release (m : Manager) (i : hid) : option Manager :=
  match m !! i with
  | Some h =>
      if destroyed h then None
      else Some (<[i := maybeDestroy (decRef h)]> m)
  | None => None
  end.

(** Modelled from the spec: [SelfplayManager::loadModelAndStartDataWriting]
    (section 4.1): installs a new handle as the latest. *)
Definition loadModelAndStartDataWriting (m : Manager) (name : string) : Manager :=
  m ++ [mkHandle name 0 false 0 0 []].

Definition named (name : string) (h : Handle) : bool :=
  negb (destroyed h) && String.eqb (modelName h) name.

(** Modelled from the spec: [SelfplayManager::scheduleCleanupModelWhenFree]
    (section 4.1): marks the named handle retiring and destroys it at once
    when its count is already zero; a name the manager no longer has is
    ignored. *)
Definition scheduleCleanupModelWhenFree (m : Manager) (name : string) : Manager :=
  match oldestFrom (named name) 0 m with
  | Some i =>
      match m !! i with
      | Some h => <[i := maybeDestroy (markRetiring h)]> m
      | None => m
      end
  | None => m
  end.

(** Modelled from the spec: [SelfplayManager::getLatestModelName]. *)
Definition getLatestModelName (m : Manager) : string :=
  match latest m with
  | Some i => match m !! i with Some h => modelName h | None => EmptyString end
  | None => EmptyString
  end.

(** Modelled from the spec: [SelfplayManager::modelNames], the names of the
    handles the manager still has, oldest first. *)
Definition modelNames (m : Manager) : list string :=
  modelName <$> filter (fun h => destroyed h = false) m.

(** Modelled from the spec: [SelfplayManager::countOneGameStarted]. *)
Definition countOneGameStarted (m : Manager) (i : hid) : Manager :=
  match m !! i with
  | Some h => <[i := countGame h]> m
  | None => m
  end.

(** Modelled from the spec: [SelfplayManager::enqueueDataToWrite]; the
    blocking on a full queue only delays the caller and is left out. *)
Definition enqueueDataToWrite (m : Manager) (i : hid) (g : Z) : Manager :=
  match m !! i with
  | Some h => <[i := pushGame g h]> m
  | None => m
  end.

(** ** Observable calls *)

Inductive tid := TMain | TPoller | TWorker (k : nat).

Inductive call :=
| CAcquire (h : hid)                    (* acquireLatest returned h *)
| CRelease (h : hid)
| CCountOneGameStarted (h : hid) (gameIdx : Z)
| CFetchAdd (gameIdx : Z)               (* numGamesStarted.fetch_add(1) *)
| CRunGame (gameIdx : Z) (h : hid)      (* gameRunner->runGame entered *)
| CRunGameReturn (gameIdx : Z) (h : hid) (finished : bool)
| CEnqueue (h : hid) (gameIdx : Z)
| CInitNNEval (name : string) (budget : Z)
| CTryMakeDirs (i : Z)
| CMakeDir (path : string) (ok : bool)
| CSleep (seconds : spec_float)
| CLoadModel (name : string)
| CSchedule (name : string)
| CStoreStop
| CNotifyAll
| CThrow.

Definition event : Type := tid * call.

#[global] Instance tid_eq_dec : EqDecision tid.
Proof. solve_decision. Defined.

(** ** [loadLatestNeuralNetIntoManager] (lines 127-208) *)

(** What the collaborators answer during one call. *)
Record LoadEnv := mkLoadEnv {
  findLatestModel : option string;  (* Some modelName when foundModel *)
  makeOK : Z -> string -> bool;     (* MakeDir::make in attempt i: false = throws StringError *)
  nextDouble : Z -> spec_float      (* rand.nextDouble() after failed attempt i *)
}.

(** IEEE 754 binary64, the [double] of the source: 53 bits of precision,
    rounding to nearest, ties to even. *)
Definition double_mul : spec_float -> spec_float -> spec_float := SFmul 53 1024.
Definition double_add : spec_float -> spec_float -> spec_float := SFadd 53 1024.

(** The literals [10.0] and [30.0]. *)
Definition double_10 : spec_float := S754_finite false 5629499534213120 (-49).
Definition double_30 : spec_float := S754_finite false 8444249301319680 (-48).

(** Line 185: [10.0 + rand.nextDouble() * 30.0]; the product is rounded,
    and then the sum. *)
Definition sleepTime (r : spec_float) : spec_float :=
  double_add double_10 (double_mul r double_30).

Definition maxTries : Z := 5.

(** The body of the [try] block (lines 166-170): the four calls in order,
    abandoned at the first one that throws. *)
Fixpoint tryMake (env : LoadEnv) (i : Z) (paths : list string) : bool * list call :=
  match paths with
  | [] => (true, [])
  | p :: ps =>
      if makeOK env i p
      then let '(ok, evs) := tryMake env i ps in (ok, CMakeDir p true :: evs)
      else (false, [CMakeDir p false])
  end.

Inductive loopExit :=
| LoopBreak         (* line 178 *)
| LoopReturnFalse   (* line 183 *)
| LoopEnd           (* the condition i < maxTries failed *)
| LoopFuel.

(** The [for] loop of lines 163-189. *)
Fixpoint makeDirLoop (fuel : nat) (env : LoadEnv) (paths : list string) (i : Z)
  : loopExit * list call :=
  match fuel with
  | O => (LoopFuel, [])
  | S fuel' =>
      if i <? maxTries then
        let '(success, evs) := tryMake env i paths in
        if success then (LoopBreak, CTryMakeDirs i :: evs)
        else if i =? maxTries - 1 then (LoopReturnFalse, CTryMakeDirs i :: evs)
        else
          let '(r, evs') := makeDirLoop fuel' env paths (i + 1) in
          (r, CTryMakeDirs i :: evs ++ CSleep (sleepTime (nextDouble env i)) :: evs')
      else (LoopEnd, [])
  end.

Definition modelDirs (cfg : Config) (name : string) : list string :=
  let modelOutputDir := String.append (outputDir cfg) (String.append "/" name) in
  [ modelOutputDir;
    String.append modelOutputDir "/sgfs";
    String.append modelOutputDir "/tdata";
    String.append modelOutputDir "/vdata" ].

Definition sameName (lastNetName : option string) (name : string) : bool :=
  match lastNetName with
  | Some l => String.eqb l name
  | None => false
  end.

(** Returns whether a new net was loaded, the manager afterwards and the
    calls made, oldest first.  The copy of the configuration and the
    writers of lines 191-203 are handed to the manager and play no part
    here.  [LoopEnd] and [LoopFuel] never come out of the loop
    ([makeDirLoop_spec]). *)
Definition loadLatestNeuralNetIntoManager
    (cfg : Config) (env : LoadEnv) (lastNetName : option string) (m : Manager)
  : bool * Manager * list call :=
  match findLatestModel env with
  | None => (false, m, [])
  | Some name =>
      if sameName lastNetName name then (false, m, [])
      else
        let init := CInitNNEval name (maxConcurrentEvals cfg) in
        match makeDirLoop (Z.to_nat maxTries) env (modelDirs cfg name) 0 with
        | (LoopReturnFalse, evs) => (false, m, init :: evs)
        | (_, evs) =>
            (true, loadModelAndStartDataWriting m name,
             init :: evs ++ [CLoadModel name])
        end
  end.

(** ** Thread states *)

(** Program points of [gameLoop] (lines 236-291), one per access to a shared
    object.  [nnEval] is the captured local that the callback may replace;
    a game record is named by the index of the game that produced it.  The
    logging of [prevModelName] is not modelled. *)
Inductive wstate :=
| W_Top                                          (* line 237 *)
| W_Acquire                                      (* line 239 *)
| W_FetchAdd (nnEval : hid)                      (* line 264 *)
| W_Count (nnEval : hid) (gameIdx : Z)           (* line 265 *)
| W_Branch (nnEval : hid) (gameIdx : Z)          (* line 266 *)
| W_InGame (nnEval : hid) (gameIdx : Z)          (* inside runGame *)
| W_Callback (nnEval newNNEval : hid) (gameIdx : Z) (* line 251 *)
| W_Enqueue (nnEval : hid) (gameData : option Z) (* lines 282-285 *)
| W_Release (nnEval : hid) (shouldContinue : bool) (* line 287 *)
| W_Done.                                        (* line 293 *)

(** Program points of [modelLoadLoop] (lines 299-330). *)
Inductive pstate :=
| P_NotStarted
| P_Top                                          (* line 303 *)
| P_GetName                                      (* line 305 *)
| P_Load (lastNetName : string)                  (* line 306 *)
| P_Snapshot                                     (* lines 310-311 *)
| P_Sweep (final : bool) (modelNames : list string) (i : Z) (* lines 312-313, 326-327 *)
| P_Check2                                       (* line 315 *)
| P_Sleep                                        (* lines 319-320 *)
| P_Blocked                                      (* inside wait_for *)
| P_Final                                        (* line 325 *)
| P_Done.                                        (* line 329 *)

(** Program points of the main thread from line 210 on. *)
Inductive mstate :=
| M_Threw                                        (* line 214 *)
| M_Spawn                                        (* lines 332-336 *)
| M_Join (i : nat)                               (* lines 339-340 *)
| M_Store                                        (* line 343 *)
| M_Lock                                         (* line 348 *)
| M_Notify                                       (* line 349 *)
| M_JoinPoller                                   (* line 350 *)
| M_Exit.

Record sys := mkSys {
  manager : Manager;
  numGamesStarted : Z;      (* std::atomic<int64_t> *)
  shouldStop : bool;
  sigReceived : bool;
  mutexHeld : bool;         (* modelLoadMutex is held by the main thread *)
  game : list wstate;       (* the game threads *)
  poll : pstate;
  mainT : mstate;
  trace : list event;       (* oldest first *)
  fatal : bool              (* an exception or a failed assertion ended the process *)
}.

Definition set_manager (m : Manager) (s : sys) : sys :=
  mkSys m (numGamesStarted s) (shouldStop s) (sigReceived s) (mutexHeld s)
        (game s) (poll s) (mainT s) (trace s) (fatal s).
Definition set_counter (c : Z) (s : sys) : sys :=
  mkSys (manager s) c (shouldStop s) (sigReceived s) (mutexHeld s)
        (game s) (poll s) (mainT s) (trace s) (fatal s).
Definition set_stop (s : sys) : sys :=
  mkSys (manager s) (numGamesStarted s) true (sigReceived s) (mutexHeld s)
        (game s) (poll s) (mainT s) (trace s) (fatal s).
Definition set_sig (s : sys) : sys :=
  mkSys (manager s) (numGamesStarted s) (shouldStop s) true (mutexHeld s)
        (game s) (poll s) (mainT s) (trace s) (fatal s).
Definition set_mutex (b : bool) (s : sys) : sys :=
  mkSys (manager s) (numGamesStarted s) (shouldStop s) (sigReceived s) b
        (game s) (poll s) (mainT s) (trace s) (fatal s).
Definition set_game (g : list wstate) (s : sys) : sys :=
  mkSys (manager s) (numGamesStarted s) (shouldStop s) (sigReceived s) (mutexHeld s)
        g (poll s) (mainT s) (trace s) (fatal s).
Definition set_worker (k : nat) (w : wstate) (s : sys) : sys :=
  set_game (<[k := w]> (game s)) s.
Definition set_poll (p : pstate) (s : sys) : sys :=
  mkSys (manager s) (numGamesStarted s) (shouldStop s) (sigReceived s) (mutexHeld s)
        (game s) p (mainT s) (trace s) (fatal s).
Definition set_main (p : mstate) (s : sys) : sys :=
  mkSys (manager s) (numGamesStarted s) (shouldStop s) (sigReceived s) (mutexHeld s)
        (game s) (poll s) p (trace s) (fatal s).
Definition emits (t : tid) (cs : list call) (s : sys) : sys :=
  mkSys (manager s) (numGamesStarted s) (shouldStop s) (sigReceived s) (mutexHeld s)
        (game s) (poll s) (mainT s) (trace s ++ (pair t <$> cs)) (fatal s).
Definition emit (t : tid) (c : call) (s : sys) : sys := emits t [c] s.
Definition crash (s : sys) : sys :=
  mkSys (manager s) (numGamesStarted s) (shouldStop s) (sigReceived s) (mutexHeld s)
        (game s) (poll s) (mainT s) (trace s) true.

(** ** The callback [checkForNewNNEval] (lines 248-260) *)

(** Lines 251-259, after [newNNEval] has been acquired: the manager
    afterwards, the new value of the captured [nnEval] and the value
    returned to runGame ([None] is NULL). *)
Definition checkForNewNNEval_finish (m : Manager) (nnEval newNNEval : hid)
  : option (Manager * hid * option hid) :=
  if Nat.eqb newNNEval nnEval then
    match release m newNNEval with
    | Some m' => Some (m', nnEval, None)
    | None => None
    end
  else
    match release m nnEval with
    | Some m' => Some (m', newNNEval, Some newNNEval)
    | None => None
    end.

(** The whole callback run without interruption. *)
Definition checkForNewNNEval (m : Manager) (nnEval : hid)
  : option (Manager * hid * option hid) :=
  match acquireLatest m with
  | Some (newNNEval, m1) => checkForNewNNEval_finish m1 nnEval newNNEval
  | None => None
  end.

(** ** One step of each thread *)

(** What runGame does next while a game thread is inside it. *)
Inductive rungame :=
| CallsBack                    (* invokes checkForNewNNEval *)
| Returns (finished : bool).   (* returns a game record, or NULL *)

Definition signalHandler (s : sys) : sys := set_stop (set_sig s).

Definition gameLoop_step (cfg : Config) (k : nat) (c : rungame) (s : sys) : sys :=
  let t := TWorker k in
  match game s !! k with
  | None => s
  | Some W_Top =>
      set_worker k (if shouldStop s then W_Done else W_Acquire) s
  | Some W_Acquire =>
      match acquireLatest (manager s) with
      | Some (h, m) => emit t (CAcquire h) (set_worker k (W_FetchAdd h) (set_manager m s))
      | None => crash s
      end
  | Some (W_FetchAdd h) =>
      let gameIdx := numGamesStarted s in
      emit t (CFetchAdd gameIdx)
        (set_worker k (W_Count h gameIdx) (set_counter (wrap_signed 64 (gameIdx + 1)) s))
  | Some (W_Count h gameIdx) =>
      emit t (CCountOneGameStarted h gameIdx)
        (set_worker k (W_Branch h gameIdx)
           (set_manager (countOneGameStarted (manager s) h) s))
  | Some (W_Branch h gameIdx) =>
      if gameIdx <? maxGamesTotal cfg
      then emit t (CRunGame gameIdx h) (set_worker k (W_InGame h gameIdx) s)
      else set_worker k (W_Enqueue h None) s
  | Some (W_InGame h gameIdx) =>
      match c with
      | CallsBack =>
          if switchNetsMidGame cfg then
            match acquireLatest (manager s) with
            | Some (h', m) =>
                emit t (CAcquire h') (set_worker k (W_Callback h h' gameIdx) (set_manager m s))
            | None => crash s
            end
          else s
      | Returns finished =>
          emit t (CRunGameReturn gameIdx h finished)
            (set_worker k (W_Enqueue h (if finished then Some gameIdx else None)) s)
      end
  | Some (W_Callback h h' gameIdx) =>
      match checkForNewNNEval_finish (manager s) h h' with
      | Some (m, nnEval, _) =>
          emit t (CRelease h) (set_worker k (W_InGame nnEval gameIdx) (set_manager m s))
      | None => crash s
      end
  | Some (W_Enqueue h gameData) =>
      match gameData with
      | Some g =>
          emit t (CEnqueue h g)
            (set_worker k (W_Release h true)
               (set_manager (enqueueDataToWrite (manager s) h g) s))
      | None => set_worker k (W_Release h false) s
      end
  | Some (W_Release h shouldContinue) =>
      match release (manager s) h with
      | Some m =>
          emit t (CRelease h)
            (set_worker k (if shouldContinue then W_Top else W_Done) (set_manager m s))
      | None => crash s
      end
  | Some W_Done => s
  end.

(** The bound [modelNames.size()-1] of lines 312 and 326: a [size_t], so
    that the subtraction wraps on an empty vector. *)
Definition sweepBound (names : list string) : Z :=
  match names with
  | [] => 2 ^ 64 - 1
  | _ :: _ => Z.of_nat (length names) - 1
  end.

Definition modelLoadLoop_step (cfg : Config) (env : LoadEnv) (s : sys) : sys :=
  match poll s with
  | P_NotStarted => s
  | P_Top => set_poll (if shouldStop s then P_Final else P_GetName) s
  | P_GetName => set_poll (P_Load (getLatestModelName (manager s))) s
  | P_Load lastNetName =>
      let '(success, m, evs) :=
        loadLatestNeuralNetIntoManager cfg env (Some lastNetName) (manager s) in
      emits TPoller evs
        (set_poll (if success then P_Snapshot else P_Check2) (set_manager m s))
  | P_Snapshot =>
      let names := modelNames (manager s) in
      if Nat.ltb 0 (length names) then set_poll (P_Sweep false names 0) s
      else crash s
  | P_Sweep final names i =>
      if i <? sweepBound names then
        match names !! Z.to_nat i with
        | Some name =>
            emit TPoller (CSchedule name)
              (set_poll (P_Sweep final names (i + 1))
                 (set_manager (scheduleCleanupModelWhenFree (manager s) name) s))
        | None => crash s
        end
      else set_poll (if final then P_Done else P_Check2) s
  | P_Check2 => set_poll (if shouldStop s then P_Final else P_Sleep) s
  | P_Sleep =>
      if mutexHeld s then s
      else set_poll (if shouldStop s then P_Top else P_Blocked) s
  | P_Blocked => if mutexHeld s then s else set_poll P_Top s
  | P_Final => set_poll (P_Sweep true (modelNames (manager s)) 0) s
  | P_Done => s
  end.

Definition selfplay_step (cfg : Config) (s : sys) : sys :=
  match mainT s with
  | M_Threw => s
  | M_Spawn =>
      set_main (M_Join 0)
        (set_poll P_Top
           (set_game (replicate (Z.to_nat (numGameThreads cfg)) W_Top) s))
  | M_Join i =>
      if Nat.ltb i (length (game s)) then
        match game s !! i with
        | Some W_Done => set_main (M_Join (S i)) s
        | _ => s
        end
      else set_main M_Store s
  | M_Store => emit TMain CStoreStop (set_main M_Lock (set_stop s))
  | M_Lock => set_main M_Notify (set_mutex true s)
  | M_Notify => emit TMain CNotifyAll (set_main M_JoinPoller s)
  | M_JoinPoller =>
      match poll s with
      | P_Done => set_main M_Exit (set_mutex false s)
      | _ => s
      end
  | M_Exit => s
  end.

(** ** The whole program *)

Inductive action :=
| ASignal                              (* SIGINT or SIGTERM is delivered *)
| AWorker (k : nat) (c : rungame)
| APoller (env : LoadEnv)
| AMain.

Definition step (cfg : Config) (a : action) (s : sys) : sys :=
  if fatal s then s
  else
    match a with
    | ASignal => signalHandler s
    | AWorker k c => gameLoop_step cfg k c s
    | APoller env => modelLoadLoop_step cfg env s
    | AMain => selfplay_step cfg s
    end.

Definition run (cfg : Config) (acts : list action) (s : sys) : sys :=
  fold_left (fun s a => step cfg a s) acts s.

(** Lines 210-215: the initial load, and the throw when it fails. *)
Definition selfplay_startup (cfg : Config) (env : LoadEnv) : sys :=
  let '(success, m, evs) := loadLatestNeuralNetIntoManager cfg env None [] in
  let s := mkSys m 0 false false false [] P_NotStarted M_Spawn (pair TMain <$> evs) false in
  if success then s
  else emit TMain CThrow (crash (set_main M_Threw s)).

(** Model names are unique identifiers (spec, section 3): the model source
    reports either the name that is already the latest or a name that the
    manager has never had. *)
Definition admissible (a : action) (s : sys) : bool :=
  match a with
  | APoller env =>
      match findLatestModel env with
      | Some name =>
          bool_decide (name ∉ modelName <$> manager s)
          || bool_decide (Some name = modelName <$> last (manager s))
      | None => true
      end
  | _ => true
  end.

Fixpoint admissible_run (cfg : Config) (acts : list action) (s : sys) : bool :=
  match acts with
  | [] => true
  | a :: acts' => admissible a s && admissible_run cfg acts' (step cfg a s)
  end.

(** The states reached from start-up by any interleaving of the threads
    and any behaviour of the collaborators, model names being unique. *)
Inductive reachable (cfg : Config) : sys -> Prop :=
| reach_start env : reachable cfg (selfplay_startup cfg env)
| reach_step s a :
    reachable cfg s -> admissible a s = true -> reachable cfg (step cfg a s).

(** ** The command line (lines 46-69) *)

(** What [cmd.parse] hands back: the three values, or the
    [TCLAP::ArgException] it throws. *)
Record ArgException := mkArgException {
  error : string;
  argId : string
}.

Inductive argsResult :=
| ArgsReturn (code : Z) (cerr : string)   (* lines 66-69 *)
| ArgsThrow (what : string)               (* a StringError; the only handler is for ArgException *)
| ArgsParsed (configFile modelsDir outputDir : string).

(** Lines 59-62; [Some what] is the StringError thrown. *)
Definition checkDirNonEmpty (flag s : string) : option string :=
  if Z.of_nat (String.length s) <=? 0
  then Some (String.append "Empty directory specified for " flag)
  else None.

Definition selfplay_args (parse : ArgException + string * string * string) : argsResult :=
  match parse with
  | inl e =>
      ArgsReturn 1
        (String.append (String.append (String.append "Error: " (error e)) " for argument ")
           (argId e))
  | inr (configFile, modelsDir, outputDir) =>
      match checkDirNonEmpty "models-dir" modelsDir with
      | Some what => ArgsThrow what
      | None =>
          match checkDirNonEmpty "output-dir" outputDir with
          | Some what => ArgsThrow what
          | None => ArgsParsed configFile modelsDir outputDir
          end
      end
  end.

(** ** The stream of the game records (lines 155-156 and 203) *)

Definition modelOutputDir (cfg : Config) (name : string) : string :=
  String.append (String.append (outputDir cfg) "/") name.

Definition sgfOutputDir (cfg : Config) (name : string) : string :=
  String.append (modelOutputDir cfg name) "/sgfs".

(** Line 203: the file that is opened for the game records, [hex] being
    the random part of its name; [None] is the NULL of the conditional. *)
Definition sgfOut (cfg : Config) (name hex : string) : option string :=
  if 0 <? Z.of_nat (String.length (sgfOutputDir cfg name))
  then Some (String.append (String.append (String.append (sgfOutputDir cfg name) "/") hex)
               ".sgfs")
  else None.

(** ** The end of [selfplay] (lines 353-365) *)

(** What the main thread logs after the join of the polling thread, and
    the value it returns; [None] while it has not got there. *)
Definition selfplay_exit (s : sys) : option (list string * Z) :=
  match mainT s with
  | M_Exit =>
      Some ((if sigReceived s then ["Exited cleanly after signal"%string] else [])
              ++ ["All cleaned up, quitting"%string], 0)
  | _ => None
  end.

(** ** Sample runs *)

(** Some values that [rand.nextDouble()] can return: one half, the
    [double] nearest to one tenth, and the largest [double] below one. *)
Definition double_half : spec_float := S754_finite false 4503599627370496 (-53).
Definition double_tenth : spec_float := S754_finite false 7205759403792794 (-56).
Definition double_below_1 : spec_float := S754_finite false 9007199254740991 (-53).

Definition okEnv (name : string) : LoadEnv :=
  mkLoadEnv (Some name) (fun _ _ => true) (fun _ => S754_zero false).
Definition noEnv : LoadEnv :=
  mkLoadEnv None (fun _ _ => true) (fun _ => S754_zero false).

Definition cfg1 : Config := mkConfig 1 2 1 true "out".

(** One game thread; a second model arrives while the thread holds the
    first, and the thread switches to it in the middle of its game. *)
Definition swapRun : list action :=
  [ AMain; AWorker 0 CallsBack; AWorker 0 CallsBack;
    APoller (okEnv "m1"); APoller (okEnv "m1"); APoller (okEnv "m1");
    APoller (okEnv "m1"); APoller (okEnv "m1");
    AWorker 0 CallsBack; AWorker 0 CallsBack; AWorker 0 CallsBack;
    AWorker 0 CallsBack ].

Definition inCallback : sys := run cfg1 swapRun (selfplay_startup cfg1 (okEnv "m0")).

Definition swapped : sys :=
  run cfg1 [AWorker 0 CallsBack; AWorker 0 (Returns true);
            AWorker 0 CallsBack; AWorker 0 CallsBack] inCallback.

(** The sample run continued: the thread comes round again, draws index 1,
    which has reached the ceiling of one game, and records it. *)
Definition atCeiling : sys :=
  run cfg1 [AWorker 0 CallsBack; AWorker 0 CallsBack; AWorker 0 CallsBack;
            AWorker 0 CallsBack] swapped.

(** The sample run continued to the end: the game thread finishes, the
    main thread stores the flag, locks, notifies and joins, while the
    polling thread leaves its loop and makes its last sweep. *)
Definition shutdownRun : list action :=
  [ AWorker 0 CallsBack; AWorker 0 CallsBack; AWorker 0 CallsBack;
    AMain; AMain; AMain; AMain; AMain;
    APoller noEnv; APoller noEnv; APoller noEnv; APoller noEnv; AMain ].

Definition stopped : sys := run cfg1 shutdownRun atCeiling.

Definition hungRun : list action :=
  [ AWorker 0 CallsBack; AWorker 0 CallsBack; AWorker 0 CallsBack;
    APoller noEnv; APoller noEnv; APoller noEnv;
    AMain; AMain; AMain; AMain; AMain ].

Definition beforeCallback : Manager :=
  [mkHandle "m0" 1 true 0 1 []; mkHandle "m1" 0 false 0 0 []].

(** A signal arrives while the game thread is in its callback and both
    models are alive; the polling thread leaves its loop and sweeps. *)
Definition signalled : sys :=
  run cfg1 [ASignal; APoller noEnv; APoller noEnv; APoller noEnv;
            APoller noEnv; APoller noEnv] inCallback.

(** ** More sample runs *)

Definition cfgNoSwitch : Config := mkConfig 1 2 1 false "out".

(** The signal arrives while the game thread is in its callback. *)
Definition interrupted : sys := run cfg1 [ASignal] inCallback.

(** The sample run ended by a signal: the game thread leaves its
    callback, runGame returns NULL, the thread releases and finishes, and
    the main thread and the polling thread shut down. *)
Definition signalRun : list action :=
  [ AWorker 0 CallsBack; AWorker 0 (Returns false); AWorker 0 CallsBack;
    AWorker 0 CallsBack;
    APoller noEnv; APoller noEnv; APoller noEnv; APoller noEnv;
    AMain; AMain; AMain; AMain; AMain; AMain ].

Definition afterSignal : sys := run cfg1 signalRun signalled.

(** The sample run at the ceiling continued until the game thread has
    finished; the main thread is still at its first join. *)
Definition workersDone : sys :=
  run cfg1 [AWorker 0 CallsBack; AWorker 0 CallsBack; AWorker 0 CallsBack] atCeiling.


(** * Notions used in the statements and the proofs *)

(** ** The manager *)

(** What the table looks like while [cnt i] references to handle [i] are
    held: the newest handle is on offer, every count is the number of
    holders, and the destroy routine has run on exactly the drained
    handles. *)
Definition handleOK (h : Handle) (c : nat) : Prop :=
  refCount h = Z.of_nat c /\ destroyRuns h = (if drained h then 1 else 0)%nat.

Definition MgrOK (m : Manager) (cnt : hid -> nat) : Prop :=
  (exists hl, last m = Some hl /\ offered hl = true) /\
  (forall i, match m !! i with
             | Some h => handleOK h (cnt i)
             | None => cnt i = 0%nat
             end) /\
  NoDup (modelName <$> m).

Definition bump (i : hid) (cnt : hid -> nat) : hid -> nat :=
  fun j => if decide (j = i) then S (cnt j) else cnt j.
Definition unbump (i : hid) (cnt : hid -> nat) : hid -> nat :=
  fun j => if decide (j = i) then pred (cnt j) else cnt j.

(** ** References held by the game threads *)

Definition one (h i : hid) : nat := if decide (h = i) then 1%nat else 0%nat.

(** How many references to handle [i] a game thread holds at a program
    point. *)
Definition holds (w : wstate) (i : hid) : nat :=
  match w with
  | W_Top | W_Acquire | W_Done => 0%nat
  | W_FetchAdd h | W_Count h _ | W_Branch h _ | W_InGame h _
  | W_Enqueue h _ | W_Release h _ => one h i
  | W_Callback h h' _ => (one h i + one h' i)%nat
  end.

Fixpoint holders (g : list wstate) (i : hid) : nat :=
  match g with
  | [] => 0%nat
  | w :: g' => (holds w i + holders g' i)%nat
  end.

(** ** The invariant of the running program *)

Definition pollOK (s : sys) : Prop :=
  match poll s with
  | P_Load lastNetName => Some lastNetName = modelName <$> last (manager s)
  | P_Sweep _ names i =>
      0 <= i /\ (0 < length names)%nat /\
      forall j n, (j + 1 < length names)%nat -> names !! j = Some n ->
                  Some n <> modelName <$> last (manager s)
  | _ => True
  end.

Definition Good (s : sys) : Prop :=
  fatal s = false /\
  MgrOK (manager s) (holders (game s)) /\
  pollOK s /\
  (mainT s = M_Spawn -> game s = []) /\
  mainT s <> M_Threw.

(** Either the start-up load failed and nothing ever runs, or the program
    runs and [Good] holds. *)
Definition Inv (s : sys) : Prop :=
  (mainT s = M_Threw /\ fatal s = true /\ game s = [] /\ manager s = []) \/ Good s.

(** ** What one step leaves alone *)

Definition calls_of (t : tid) (tr : list event) : list call :=
  snd <$> filter (fun e => fst e = t) tr.

(** The moves of one game thread, as seen from that thread alone. *)
Inductive wlocal (cfg : Config) : wstate -> list call -> wstate -> Prop :=
| wl_idle w : wlocal cfg w [] w
| wl_stop : wlocal cfg W_Top [] W_Done
| wl_go : wlocal cfg W_Top [] W_Acquire
| wl_acquire h : wlocal cfg W_Acquire [CAcquire h] (W_FetchAdd h)
| wl_fetch h idx : wlocal cfg (W_FetchAdd h) [CFetchAdd idx] (W_Count h idx)
| wl_count h idx :
    wlocal cfg (W_Count h idx) [CCountOneGameStarted h idx] (W_Branch h idx)
| wl_rungame h idx :
    idx < maxGamesTotal cfg ->
    wlocal cfg (W_Branch h idx) [CRunGame idx h] (W_InGame h idx)
| wl_ceiling h idx :
    maxGamesTotal cfg <= idx ->
    wlocal cfg (W_Branch h idx) [] (W_Enqueue h None)
| wl_callback h h' idx :
    switchNetsMidGame cfg = true ->
    wlocal cfg (W_InGame h idx) [CAcquire h'] (W_Callback h h' idx)
| wl_return h idx finished :
    wlocal cfg (W_InGame h idx) [CRunGameReturn idx h finished]
           (W_Enqueue h (if finished then Some idx else None))
| wl_same h idx : wlocal cfg (W_Callback h h idx) [CRelease h] (W_InGame h idx)
| wl_swap h h' idx :
    h' <> h -> wlocal cfg (W_Callback h h' idx) [CRelease h] (W_InGame h' idx)
| wl_enqueue h g : wlocal cfg (W_Enqueue h (Some g)) [CEnqueue h g] (W_Release h true)
| wl_skip h : wlocal cfg (W_Enqueue h None) [] (W_Release h false)
| wl_release h sc :
    wlocal cfg (W_Release h sc) [CRelease h] (if sc then W_Top else W_Done).

(** ** Invariants of the calls of one game thread *)

(** Every game thread's calls and program point satisfy [P]; a thread
    that does not exist has made no call. *)
Definition traceInv (P : wstate -> list call -> Prop) (s : sys) : Prop :=
  (forall k, match game s !! k with
             | Some w => P w (calls_of (TWorker k) (trace s))
             | None => calls_of (TWorker k) (trace s) = []
             end) /\
  (mainT s = M_Spawn -> game s = []).

Fixpoint count_calls {A} (f : A -> bool) (cs : list A) : nat :=
  match cs with
  | [] => 0%nat
  | c :: cs' => ((if f c then 1 else 0) + count_calls f cs')%nat
  end.

Definition is_acquire (c : call) : bool :=
  match c with CAcquire _ => true | _ => false end.
Definition is_release (c : call) : bool :=
  match c with CRelease _ => true | _ => false end.

(** References held by a game thread at a program point: none at the loop
    head and after the loop, two inside the callback between its acquire
    and its release, one elsewhere. *)
Definition held (w : wstate) : nat :=
  match w with
  | W_Top | W_Acquire | W_Done => 0%nat
  | W_Callback _ _ _ => 2%nat
  | _ => 1%nat
  end.

Definition balanced (w : wstate) (tr : list call) : Prop :=
  count_calls is_acquire tr = (count_calls is_release tr + held w)%nat.

(** ** References held by one game thread (C10) *)

(** The sentence of the specification as it is worded: a game thread that is past its initial
    acquire and before its final release has acquired exactly once more
    than it has released. *)
Definition holds_exactly_one (cfg : Config) : Prop :=
  forall s k w,
    reachable cfg s -> game s !! k = Some w ->
    w <> W_Top -> w <> W_Acquire -> w <> W_Done ->
    count_calls is_acquire (calls_of (TWorker k) (trace s)) =
    (count_calls is_release (calls_of (TWorker k) (trace s)) + 1)%nat.

(** ** What follows a finished game, and what follows the ceiling *)

(** The calls of a game thread around the return of runGame. *)
Definition completes (w : wstate) (tr : list call) : Prop :=
  (forall pre idx h post,
      tr = pre ++ CRunGameReturn idx h true :: post ->
      (post = [] /\ w = W_Enqueue h (Some idx)) \/
      (post = [CEnqueue h idx] /\ w = W_Release h true) \/
      (exists rest, post = CEnqueue h idx :: CRelease h :: rest)) /\
  (forall pre h g post,
      tr = pre ++ CEnqueue h g :: post ->
      exists pre', pre = pre' ++ [CRunGameReturn g h true]) /\
  (forall h g, w = W_Enqueue h (Some g) ->
               exists pre, tr = pre ++ [CRunGameReturn g h true]).

(** The calls of a game thread after it has drawn a game index that has
    reached the ceiling. *)
Definition ceiling_stop (cfg : Config) (w : wstate) (tr : list call) : Prop :=
  forall pre idx post,
    tr = pre ++ CFetchAdd idx :: post -> maxGamesTotal cfg <= idx ->
    exists h,
      (post = [] /\ w = W_Count h idx) \/
      (post = [CCountOneGameStarted h idx] /\
       (w = W_Branch h idx \/ w = W_Enqueue h None \/ w = W_Release h false)) \/
      (post = [CCountOneGameStarted h idx; CRelease h] /\ w = W_Done).

(** The handles that a thread's acquireLatest calls returned, oldest first. *)
Definition acquired (tr : list call) : list hid :=
  omap (fun c => match c with CAcquire h => Some h | _ => None end) tr.

(** The captured [nnEval] is the handle most recently acquired, except
    inside the callback, where the most recent one is [newNNEval]; and
    every record is enqueued under the handle most recently acquired. *)
Definition tagged (w : wstate) (tr : list call) : Prop :=
  match w with
  | W_Top | W_Acquire | W_Done => True
  | W_Callback _ h' _ => last (acquired tr) = Some h'
  | W_FetchAdd h | W_Count h _ | W_Branch h _ | W_InGame h _
  | W_Enqueue h _ | W_Release h _ => last (acquired tr) = Some h
  end /\
  forall pre h g post,
    tr = pre ++ CEnqueue h g :: post -> last (acquired pre) = Some h.

(** ** The shared game counter *)

Definition total (f : wstate -> nat) (g : list wstate) : nat :=
  foldr (fun w n => (f w + n)%nat) 0%nat g.

(** A game thread that will not draw another game index. *)
Definition doomed (cfg : Config) (w : wstate) : nat :=
  match w with
  | W_Count _ idx | W_Branch _ idx => if maxGamesTotal cfg <=? idx then 1%nat else 0%nat
  | W_Enqueue _ None | W_Release _ false | W_Done => 1%nat
  | _ => 0%nat
  end.

(** A game thread that has drawn [idx] below the ceiling and is about to
    enter runGame with it. *)
Definition pending (cfg : Config) (idx : Z) (w : wstate) : nat :=
  match w with
  | W_Count _ i | W_Branch _ i =>
      if (i =? idx) && (i <? maxGamesTotal cfg) then 1%nat else 0%nat
  | _ => 0%nat
  end.

Definition is_rungame (idx : Z) (c : call) : bool :=
  match c with CRunGame i _ => i =? idx | _ => false end.

Definition is_start (idx : Z) (e : event) : bool :=
  match e with
  | (TWorker _, c) => is_rungame idx c
  | _ => false
  end.

(** How many times a game thread has entered runGame with index [idx]. *)
Definition started (idx : Z) (tr : list event) : nat := count_calls (is_start idx) tr.

Definition counterOK (cfg : Config) (c : Z) (g : list wstate) (tr : list event) : Prop :=
  0 <= c <= maxGamesTotal cfg + Z.of_nat (total (doomed cfg) g) /\
  (length g <= Z.to_nat (numGameThreads cfg))%nat /\
  forall idx,
    (started idx tr + total (pending cfg idx) g)%nat =
    if (0 <=? idx) && (idx <? Z.min c (maxGamesTotal cfg)) then 1%nat else 0%nat.

Definition counterInv (cfg : Config) (s : sys) : Prop :=
  counterOK cfg (numGamesStarted s) (game s) (trace s).

(** ** Game indices and the ceiling (C3) *)

(** The sentence of the specification as it is worded: no game is recorded as started for an index
    that has reached the ceiling. *)
Definition no_count_at_ceiling (cfg : Config) : Prop :=
  forall s k h idx,
    reachable cfg s ->
    CCountOneGameStarted h idx ∈ calls_of (TWorker k) (trace s) ->
    idx < maxGamesTotal cfg.

(** ** The shutdown sequence of the main thread (C6) *)

Definition past_store (m : mstate) : bool :=
  match m with M_Lock | M_Notify | M_JoinPoller | M_Exit => true | _ => false end.
Definition past_notify (m : mstate) : bool :=
  match m with M_JoinPoller | M_Exit => true | _ => false end.

Definition alldone (g : list wstate) : Prop :=
  forall k w, g !! k = Some w -> w = W_Done.

Definition mainInv (s : sys) : Prop :=
  match mainT s with
  | M_Join i => forall j w, (j < i)%nat -> game s !! j = Some w -> w = W_Done
  | M_Store => alldone (game s)
  | M_Lock | M_Notify | M_JoinPoller | M_Exit => alldone (game s) /\ shouldStop s = true
  | _ => True
  end /\
  (forall pre post, trace s = pre ++ (TMain, CStoreStop) :: post ->
     past_store (mainT s) = true /\ forall k, calls_of (TWorker k) post = []) /\
  (forall pre post, trace s = pre ++ (TMain, CNotifyAll) :: post ->
     past_notify (mainT s) = true /\ (TMain, CStoreStop) ∈ pre) /\
  (past_store (mainT s) = true -> (TMain, CStoreStop) ∈ trace s) /\
  (past_notify (mainT s) = true -> (TMain, CNotifyAll) ∈ trace s) /\
  (mainT s = M_Exit -> poll s = P_Done).

(** The calls of the directory loop, and those of the whole of
    [loadLatestNeuralNetIntoManager]. *)
Definition is_dir_call (c : call) : bool :=
  match c with
  | CTryMakeDirs _ | CMakeDir _ _ | CSleep _ => true
  | _ => false
  end.

Definition is_load_call (c : call) : bool :=
  match c with
  | CInitNNEval _ _ | CLoadModel _ => true
  | _ => is_dir_call c
  end.

(** The join of line 350 is made while [modelLoadMutex] is still held
    (the lock_guard of line 348 is in scope).  A polling thread that is in
    its wait, or about to lock the mutex for it, needs the mutex to go on:
    from such a state neither thread ever moves again. *)
Definition join_blocked (s : sys) : Prop :=
  mainT s = M_JoinPoller /\ mutexHeld s = true /\
  (poll s = P_Sleep \/ poll s = P_Blocked).

(** ** The concurrency budget (C9) *)

(** An [int] operation overflows when its exact result is outside the
    range of [int]; the behaviour is then undefined, and [wrap_signed] is
    what two's complement hardware leaves. *)
Definition in_int (x : Z) : bool := (int_min <=? x) && (x <=? int_max).

(** Line 144 is evaluated without overflow: the two products and the sum
    are in range. *)
Definition budget_defined (cfg : Config) : bool :=
  in_int (numSearchThreads cfg * numGameThreads cfg)
  && in_int (numSearchThreads cfg * numGameThreads cfg * 2)
  && in_int (numSearchThreads cfg * numGameThreads cfg * 2 + 16).

(** A configuration inside the ranges of lines 85 and 101 whose budget
    does not fit. *)
Definition cfgBig : Config := mkConfig 16384 65536 1 true "out".

(** The sentence of the specification as it is worded: every successful load passes the product
    itself, whatever the configured values. *)
Definition budget_always_exact : Prop :=
  forall cfg env lastNetName m,
    valid_config cfg ->
    fst (fst (loadLatestNeuralNetIntoManager cfg env lastNetName m)) = true ->
    exists name evs,
      snd (loadLatestNeuralNetIntoManager cfg env lastNetName m)
      = CInitNNEval name (numSearchThreads cfg * numGameThreads cfg * 2 + 16) :: evs.

(** ** Creating the output directories (C7) *)

Definition is_try (c : call) : bool :=
  match c with CTryMakeDirs _ => true | _ => false end.
Definition is_sleep (c : call) : bool :=
  match c with CSleep _ => true | _ => false end.





(** A sleep lasts [10.0 + r * 30.0] seconds, in binary64, for a draw [r]
    made after one of the first four attempts. *)
Definition sleep_ok (env : LoadEnv) (c : call) : Prop :=
  match c with
  | CSleep q => exists j, 0 <= j < maxTries - 1 /\ q = sleepTime (nextDouble env j)
  | _ => True
  end.

(** ** Failure of the first load, and of a later one (C8) *)

(** No model is found, or all attempts at its directories fail. *)
Definition load_fails (cfg : Config) (env : LoadEnv) : Prop :=
  findLatestModel env = None \/
  exists name, findLatestModel env = Some name /\
    forall j, 0 <= j < maxTries -> fst (tryMake env j (modelDirs cfg name)) = false.

(** ** The callback (C4) *)

(** ** The last sweep of the polling thread (C2) *)

Definition is_schedule (c : call) : bool :=
  match c with CSchedule _ => true | _ => false end.

(** ** What the last sweep has left to do *)

(** The name and the retiring flag of every handle. *)
Definition view (m : Manager) : list (string * bool) :=
  (fun h => (modelName h, retiring h)) <$> m.

(** Every handle but the newest is retiring. *)
Definition olderRetired (m : Manager) : Prop :=
  forall k nm, (k + 1 < length m)%nat -> view m !! k <> Some (nm, false).

(** Outside the sweep that follows a load every older handle is retiring;
    inside it, the older handles not yet retiring are still to come. *)
Definition sweepInv (s : sys) : Prop :=
  match poll s with
  | P_Snapshot => True
  | P_Sweep false names i =>
      forall k nm, (k + 1 < length (manager s))%nat ->
        view (manager s) !! k = Some (nm, false) ->
        exists j, (Z.to_nat i <= j)%nat /\ (j + 1 < length names)%nat /\
                  names !! j = Some nm
  | _ => olderRetired (manager s)
  end.

(** ** The mutex and the wait of the polling thread *)

(** The main thread holds [modelLoadMutex] from the lock_guard of line 348
    to the end of its scope at line 351. *)
Definition mutexInv (s : sys) : Prop :=
  mutexHeld s = match mainT s with M_Notify | M_JoinPoller => true | _ => false end.

(** The polling thread is about to lock the mutex for its wait, or is in
    the wait and needs the mutex to come back from it. *)
Definition waiting (p : pstate) : bool :=
  match p with P_Sleep | P_Blocked => true | _ => false end.

(** ** The threads there are *)

Definition threadsInv (cfg : Config) (s : sys) : Prop :=
  match mainT s with
  | M_Threw | M_Spawn => game s = [] /\ poll s = P_NotStarted
  | _ => length (game s) = Z.to_nat (numGameThreads cfg) /\ poll s <> P_NotStarted
  end.

(** ** The two flags *)

Definition flagInv (s : sys) : Prop :=
  shouldStop s = true <-> sigReceived s = true \/ (TMain, CStoreStop) ∈ trace s.

Definition is_signal (a : action) : bool :=
  match a with ASignal => true | _ => false end.
(** ** Accounts of the calls of all game threads *)

Definition csum (E : call -> nat) (cs : list call) : nat :=
  foldr (fun c n => (E c + n)%nat) 0%nat cs.

(** The calls of the game threads in a trace, each weighted by [E]. *)
Definition wsum (E : call -> nat) (tr : list event) : nat :=
  foldr (fun e n => match e with
                    | (TWorker _, c) => (E c + n)%nat
                    | _ => n
                    end) 0%nat tr.

Definition b2n (b : bool) : nat := if b then 1%nat else 0%nat.

(** Draws from the counter, and entries into runGame. *)
Definition is_fetch (c : call) : nat :=
  match c with CFetchAdd _ => 1%nat | _ => 0%nat end.
Definition fetches (tr : list event) : nat := wsum is_fetch tr.

Definition is_game (c : call) : nat :=
  match c with CRunGame _ _ => 1%nat | _ => 0%nat end.
Definition gamesRun (tr : list event) : nat := wsum is_game tr.

(** A game thread that has drawn an index below the ceiling and has not
    yet entered runGame with it. *)
Definition toRun (cfg : Config) (w : wstate) : nat :=
  match w with
  | W_Count _ i | W_Branch _ i => b2n (i <? maxGamesTotal cfg)
  | _ => 0%nat
  end.

Definition drawInv (cfg : Config) (s : sys) : Prop :=
  Z.of_nat (fetches (trace s)) = numGamesStarted s /\
  Z.of_nat (gamesRun (trace s) + total (toRun cfg) (game s)) =
    Z.min (numGamesStarted s) (maxGamesTotal cfg).

(** Calls to countOneGameStarted, and threads between lines 264 and 265. *)
Definition is_count (c : call) : nat :=
  match c with CCountOneGameStarted _ _ => 1%nat | _ => 0%nat end.
Definition counted (tr : list event) : nat := wsum is_count tr.
Definition atCount (w : wstate) : nat :=
  match w with W_Count _ _ => 1%nat | _ => 0%nat end.

(** The game with index [idx]: its record enqueued, runGame returned
    NULL, or the game still with its thread. *)
Definition is_enqueue (idx : Z) (c : call) : nat :=
  match c with CEnqueue _ g => b2n (g =? idx) | _ => 0%nat end.
Definition enqueued (idx : Z) (tr : list event) : nat := wsum (is_enqueue idx) tr.

Definition is_abandon (idx : Z) (c : call) : nat :=
  match c with CRunGameReturn i _ false => b2n (i =? idx) | _ => 0%nat end.
Definition abandoned (idx : Z) (tr : list event) : nat := wsum (is_abandon idx) tr.

Definition inflight (idx : Z) (w : wstate) : nat :=
  match w with
  | W_InGame _ i | W_Callback _ _ i => b2n (i =? idx)
  | W_Enqueue _ (Some g) => b2n (g =? idx)
  | _ => 0%nat
  end.

(** Acquires that returned handle [i], and releases of it. *)
Definition is_acquire_of (i : hid) (c : call) : nat :=
  match c with CAcquire h => b2n (Nat.eqb h i) | _ => 0%nat end.
Definition is_release_of (i : hid) (c : call) : nat :=
  match c with CRelease h => b2n (Nat.eqb h i) | _ => 0%nat end.
Definition acquires (i : hid) (tr : list event) : nat := wsum (is_acquire_of i) tr.
Definition releases (i : hid) (tr : list event) : nat := wsum (is_release_of i) tr.
(** ** Game threads without the callback *)

Definition no_callback (w : wstate) (tr : list call) : Prop :=
  balanced w tr /\ forall h h' i, w <> W_Callback h h' i.
(** ** The end of the polling thread *)

(** The polling thread, run on its own with no new model to find,
    reaches the end of [modelLoadLoop] and leaves the main thread where
    it is. *)
Definition finishes (cfg : Config) (s : sys) : Prop :=
  exists n,
    let s' := run cfg (replicate n (APoller noEnv)) s in
    poll s' = P_Done /\ mainT s' = mainT s /\ fatal s' = fatal s.

(** The program is running and the flag is up. *)
Definition stopping (cfg : Config) (s : sys) : Prop :=
  reachable cfg s /\ mainT s <> M_Threw /\ shouldStop s = true.
(** ** Where the game records go *)

(** The records handed to enqueueDataToWrite under handle [i], by any
    game thread, oldest first. *)
Definition enqueuedTo (i : hid) (tr : list event) : list Z :=
  omap (fun e => match e with
                 | (TWorker _, CEnqueue h g) => if Nat.eqb h i then Some g else None
                 | _ => None
                 end) tr.

(** The pipeline of every handle holds the records enqueued under it, and
    nothing is enqueued under a handle that the manager does not have. *)
Definition pipelineInv (s : sys) : Prop :=
  forall i, enqueuedTo i (trace s) = default [] ((pipeline <$> manager s) !! i).

(** * Proofs *)

(** ** A first evaluation *)

Example maxConcurrentEvals_small :
  maxConcurrentEvals (mkConfig 8 2 100 true "out") = 48.
Proof. reflexivity. Qed.

(** ** Machine integers *)

Lemma wrap_signed_id bits x :
  0 < bits -> - 2 ^ (bits - 1) <= x < 2 ^ (bits - 1) -> wrap_signed bits x = x.
Proof.
  intros Hb Hx. unfold wrap_signed.
  assert (H2 : 2 ^ bits = 2 * 2 ^ (bits - 1)).
  { replace bits with (Z.succ (bits - 1)) at 1 by lia. apply Z.pow_succ_r. lia. }
  rewrite Z.mod_small by lia. lia.
Qed.

Lemma wrap_signed_mod bits x :
  0 < bits -> wrap_signed bits x mod 2 ^ bits = x mod 2 ^ bits.
Proof.
  intros Hb. unfold wrap_signed.
  assert (H2 : 2 ^ bits = 2 * 2 ^ (bits - 1)).
  { replace bits with (Z.succ (bits - 1)) at 1 by lia. apply Z.pow_succ_r. lia. }
  assert (0 < 2 ^ (bits - 1)) by (apply Z.pow_pos_nonneg; lia).
  rewrite Zminus_mod, Zmod_mod, <- Zminus_mod. f_equal. lia.
Qed.

Lemma sweepBound_wrap names :
  Z.of_nat (length names) < 2 ^ 64 ->
  sweepBound names = wrap_unsigned 64 (Z.of_nat (length names) - 1).
Proof.
  intros H. unfold sweepBound, wrap_unsigned. destruct names as [|n names].
  - reflexivity.
  - rewrite Z.mod_small; [reflexivity|]. simpl length in *. lia.
Qed.

(** ** The manager *)

Lemma offered_inv h :
  offered h = true -> retiring h = false /\ destroyRuns h = 0%nat.
Proof.
  unfold offered, destroyed. destruct (retiring h), (destroyRuns h); simpl; intros; split; congruence.
Qed.

Lemma names_insert (m : Manager) i h h' :
  m !! i = Some h -> modelName h' = modelName h ->
  modelName <$> <[i := h']> m = modelName <$> m.
Proof.
  intros Hi Hn. rewrite list_fmap_insert, Hn. apply list_insert_id.
  by rewrite list_lookup_fmap, Hi.
Qed.

Lemma last_name_insert (m : Manager) i h h' :
  m !! i = Some h -> modelName h' = modelName h ->
  modelName <$> last (<[i := h']> m) = modelName <$> last m.
Proof.
  intros Hi Hn. rewrite !last_lookup, length_insert.
  destruct (decide (i = pred (length m))) as [->|Hne].
  - rewrite list_lookup_insert_eq by (apply lookup_lt_Some in Hi; lia).
    rewrite Hi. simpl. by rewrite Hn.
  - by rewrite list_lookup_insert_ne.
Qed.

Lemma MgrOK_ext m cnt cnt' :
  MgrOK m cnt -> (forall i, cnt' i = cnt i) -> MgrOK m cnt'.
Proof.
  intros (Hl & Hh & Hn) Heq. split; [done|]. split; [|done].
  intros i. rewrite Heq. apply Hh.
Qed.

Lemma MgrOK_insert m cnt cnt' i h h' :
  MgrOK m cnt -> m !! i = Some h ->
  modelName h' = modelName h ->
  handleOK h' (cnt' i) ->
  (last m = Some h -> offered h' = true) ->
  (forall j, j <> i -> cnt' j = cnt j) ->
  MgrOK (<[i := h']> m) cnt'.
Proof.
  intros (Hl & Hh & Hn) Hi Hname Hok Hoff Hcnt.
  assert (Hlt : (i < length m)%nat) by (by apply lookup_lt_Some in Hi).
  split; [|split].
  - destruct Hl as (hl & Hlast & Hofl).
    rewrite last_lookup, length_insert.
    destruct (decide (i = pred (length m))) as [->|Hne].
    + rewrite list_lookup_insert_eq by done. exists h'. split; [done|].
      apply Hoff. by rewrite last_lookup.
    + rewrite list_lookup_insert_ne by done. exists hl. by rewrite <- last_lookup.
  - intros j. destruct (decide (j = i)) as [->|Hne].
    + by rewrite list_lookup_insert_eq.
    + rewrite list_lookup_insert_ne by done. rewrite Hcnt by done. apply Hh.
  - by rewrite (names_insert m i h h').
Qed.

Lemma newestFrom_snoc P i (m : list Handle) h :
  P h = true -> newestFrom P i (m ++ [h]) = Some (i + length m)%nat.
Proof.
  intros HP. revert i. induction m as [|a m IH]; intros i; simpl.
  - rewrite HP. f_equal. lia.
  - rewrite IH. f_equal. lia.
Qed.

Lemma oldestFrom_Some P i (m : list Handle) j :
  oldestFrom P i m = Some j ->
  (i <= j)%nat /\ exists h, m !! (j - i)%nat = Some h /\ P h = true.
Proof.
  revert i. induction m as [|a m IH]; intros i; simpl; [done|].
  destruct (P a) eqn:HP.
  - intros [= <-]. split; [lia|]. exists a. by rewrite Nat.sub_diag.
  - intros H. apply IH in H as (Hle & h & Hh & HPh). split; [lia|].
    exists h. split; [|done].
    replace (j - i)%nat with (S (j - S i)) by lia. done.
Qed.

Lemma latest_ok m cnt :
  MgrOK m cnt ->
  exists hl, last m = Some hl /\ offered hl = true /\
             latest m = Some (pred (length m)) /\ m !! pred (length m) = Some hl.
Proof.
  intros ((hl & Hlast & Hoff) & _). exists hl. split; [done|]. split; [done|].
  rewrite <- last_lookup. split; [|done].
  apply last_Some in Hlast as (m0 & ->). unfold latest.
  rewrite newestFrom_snoc by done. rewrite length_app. simpl. f_equal. lia.
Qed.

Lemma acquire_ok m cnt :
  MgrOK m cnt ->
  exists hl, m !! pred (length m) = Some hl /\
    acquireLatest m = Some (pred (length m), <[pred (length m) := incRef hl]> m) /\
    MgrOK (<[pred (length m) := incRef hl]> m) (bump (pred (length m)) cnt).
Proof.
  intros HM. destruct (latest_ok m cnt HM) as (hl & Hlast & Hoff & Hlat & Hlook).
  exists hl. split; [done|]. split.
  - unfold acquireLatest. by rewrite Hlat, Hlook.
  - destruct (offered_inv _ Hoff) as [Hr Hd].
    eapply MgrOK_insert; eauto.
    + destruct HM as (_ & Hh & _). specialize (Hh (pred (length m))).
      rewrite Hlook in Hh. destruct Hh as [Hrc Hdr].
      unfold bump. rewrite decide_True by done. split.
      * simpl. lia.
      * unfold drained. simpl. rewrite Hr. simpl. done.
    + intros j Hj. unfold bump. by rewrite decide_False.
Qed.

Lemma held_alive m cnt i :
  MgrOK m cnt -> (0 < cnt i)%nat ->
  exists h, m !! i = Some h /\ handleOK h (cnt i) /\ destroyRuns h = 0%nat.
Proof.
  intros (_ & Hh & _) Hpos. specialize (Hh i).
  destruct (m !! i) as [h|]; [|lia]. exists h. split; [done|]. split; [done|].
  destruct Hh as [Hrc Hdr]. rewrite Hdr. unfold drained.
  destruct (retiring h); simpl; [|done].
  destruct (Z.eqb_spec (refCount h) 0); [lia|done].
Qed.

Lemma release_ok m cnt i :
  MgrOK m cnt -> (0 < cnt i)%nat ->
  exists h, m !! i = Some h /\
    release m i = Some (<[i := maybeDestroy (decRef h)]> m) /\
    MgrOK (<[i := maybeDestroy (decRef h)]> m) (unbump i cnt).
Proof.
  intros HM Hpos. destruct (held_alive m cnt i HM Hpos) as (h & Hi & [Hrc Hdr] & Hd0).
  exists h. split; [done|]. split.
  - unfold release. rewrite Hi. unfold destroyed. by rewrite Hd0.
  - eapply MgrOK_insert; eauto.
    + unfold maybeDestroy. by destruct (drained (decRef h)).
    + unfold unbump. rewrite decide_True by done.
      unfold maybeDestroy. destruct (drained (decRef h)) eqn:Hdrain.
      * split; [simpl; lia|]. simpl.
        change (drained (runDestroy (decRef h))) with (drained (decRef h)).
        by rewrite Hdrain, Hd0.
      * split; [simpl; lia|]. by rewrite Hdrain.
    + intros Hlast. destruct HM as ((hl & Hlast' & Hoff) & _).
      assert (hl = h) as -> by congruence.
      destruct (offered_inv _ Hoff) as [Hr _].
      unfold maybeDestroy, drained. simpl. rewrite Hr. simpl.
      unfold offered, destroyed in *. simpl. done.
    + intros j Hj. unfold unbump. by rewrite decide_False.
Qed.

Lemma schedule_ok m cnt n :
  MgrOK m cnt -> Some n <> modelName <$> last m ->
  MgrOK (scheduleCleanupModelWhenFree m n) cnt /\
  modelName <$> scheduleCleanupModelWhenFree m n = modelName <$> m /\
  modelName <$> last (scheduleCleanupModelWhenFree m n) = modelName <$> last m.
Proof.
  intros HM Hne. unfold scheduleCleanupModelWhenFree.
  destruct (oldestFrom (named n) 0 m) as [i|] eqn:Hold; [|done].
  apply oldestFrom_Some in Hold as (_ & h & Hi & Hnamed).
  rewrite Nat.sub_0_r in Hi. rewrite Hi.
  unfold named in Hnamed. apply andb_true_iff in Hnamed as [Hnd Hname].
  apply String.eqb_eq in Hname.
  assert (Hmk : modelName (maybeDestroy (markRetiring h)) = modelName h).
  { unfold maybeDestroy. by destruct (drained (markRetiring h)). }
  split; [|split].
  - eapply MgrOK_insert; eauto.
    + destruct HM as (_ & Hh & _). specialize (Hh i). rewrite Hi in Hh.
      destruct Hh as [Hrc Hdr].
      assert (Hd0 : destroyRuns h = 0%nat).
      { unfold destroyed in Hnd. by destruct (destroyRuns h). }
      unfold maybeDestroy. destruct (drained (markRetiring h)) eqn:Hdrain.
      * split; [done|]. simpl.
        change (drained (runDestroy (markRetiring h))) with (drained (markRetiring h)).
        by rewrite Hdrain, Hd0.
      * split; [done|]. by rewrite Hdrain.
    + intros Hlast. exfalso. apply Hne. by rewrite Hlast, <- Hname.
  - by apply (names_insert m i h).
  - by apply (last_name_insert m i h).
Qed.

Lemma load_ok m cnt n :
  MgrOK m cnt -> n ∉ modelName <$> m ->
  MgrOK (loadModelAndStartDataWriting m n) cnt.
Proof.
  intros (Hl & Hh & Hn) Hfresh. unfold loadModelAndStartDataWriting.
  split; [|split].
  - eexists. rewrite last_snoc. split; [done|]. done.
  - intros i. destruct (decide (i < length m)%nat) as [Hlt|Hge].
    + rewrite lookup_app_l by done. apply Hh.
    + pose proof (Hh i) as Hi. rewrite lookup_ge_None_2 in Hi by lia.
      rewrite lookup_app_r by lia.
      destruct (i - length m)%nat as [|k] eqn:Hk; simpl.
      * split; [simpl; lia|done].
      * done.
  - rewrite fmap_app. apply NoDup_app. split; [done|]. split.
    + intros x Hx Hx'. simpl in Hx'. apply list_elem_of_singleton in Hx'. by subst.
    + simpl. apply NoDup_singleton.
Qed.

Lemma touch_ok m cnt i h h' :
  MgrOK m cnt -> m !! i = Some h ->
  modelName h' = modelName h -> refCount h' = refCount h ->
  retiring h' = retiring h -> destroyRuns h' = destroyRuns h ->
  MgrOK (<[i := h']> m) cnt.
Proof.
  intros HM Hi Hn Hrc Hr Hd. eapply MgrOK_insert; eauto.
  - destruct HM as (_ & Hh & _). specialize (Hh i). rewrite Hi in Hh.
    destruct Hh as [H1 H2]. unfold handleOK, drained in *. by rewrite Hrc, Hr, Hd.
  - intros Hlast. destruct HM as ((hl & Hlast' & Hoff) & _).
    assert (hl = h) as -> by congruence.
    unfold offered, destroyed in *. by rewrite Hr, Hd.
Qed.

Lemma count_ok m cnt i :
  MgrOK m cnt ->
  MgrOK (countOneGameStarted m i) cnt /\
  modelName <$> countOneGameStarted m i = modelName <$> m /\
  modelName <$> last (countOneGameStarted m i) = modelName <$> last m.
Proof.
  intros HM. unfold countOneGameStarted. destruct (m !! i) as [h|] eqn:Hi; [|done].
  split; [by eapply touch_ok|]. split.
  - by apply (names_insert m i h).
  - by apply (last_name_insert m i h).
Qed.

Lemma enqueue_ok m cnt i g :
  MgrOK m cnt ->
  MgrOK (enqueueDataToWrite m i g) cnt /\
  modelName <$> enqueueDataToWrite m i g = modelName <$> m /\
  modelName <$> last (enqueueDataToWrite m i g) = modelName <$> last m.
Proof.
  intros HM. unfold enqueueDataToWrite. destruct (m !! i) as [h|] eqn:Hi; [|done].
  split; [by eapply touch_ok|]. split.
  - by apply (names_insert m i h).
  - by apply (last_name_insert m i h).
Qed.

Lemma getLatestModelName_ok m cnt :
  MgrOK m cnt -> Some (getLatestModelName m) = modelName <$> last m.
Proof.
  intros HM. destruct (latest_ok m cnt HM) as (hl & Hlast & _ & Hlat & Hlook).
  unfold getLatestModelName. by rewrite Hlat, Hlook, Hlast.
Qed.

Lemma modelNames_ok m cnt :
  MgrOK m cnt ->
  (0 < length (modelNames m))%nat /\
  forall j n, (j + 1 < length (modelNames m))%nat ->
              modelNames m !! j = Some n -> Some n <> modelName <$> last m.
Proof.
  intros ((hl & Hlast & Hoff) & _ & Hnd).
  destruct (offered_inv _ Hoff) as [_ Hd0].
  apply last_Some in Hlast as (m0 & ->).
  assert (Hnames : modelNames (m0 ++ [hl]) = modelNames m0 ++ [modelName hl]).
  { unfold modelNames. rewrite filter_app, fmap_app. f_equal.
    rewrite filter_cons_True; [done|]. unfold destroyed. by rewrite Hd0. }
  rewrite Hnames, length_app, last_snoc. simpl. split; [lia|].
  intros j n Hj Hjn [= ->].
  rewrite lookup_app_l in Hjn by lia.
  rewrite fmap_app in Hnd. apply NoDup_app in Hnd as (_ & Hdisj & _).
  apply (Hdisj (modelName hl)); [|simpl; apply list_elem_of_singleton; done].
  apply list_elem_of_lookup_2 in Hjn. unfold modelNames in Hjn.
  apply list_elem_of_fmap in Hjn as (h & -> & Hh).
  apply list_elem_of_fmap. exists h. split; [done|].
  by apply list_elem_of_filter in Hh as [_ Hh].
Qed.

(** ** References held by the game threads *)

Lemma holders_insert g k w w' i :
  g !! k = Some w ->
  (holders (<[k := w']> g) i + holds w i = holders g i + holds w' i)%nat.
Proof.
  revert k. induction g as [|a g IH]; intros k Hk; [done|].
  destruct k as [|k]; simpl in *.
  - injection Hk as ->. lia.
  - specialize (IH k Hk). lia.
Qed.

Lemma holders_ge g k w i : g !! k = Some w -> (holds w i <= holders g i)%nat.
Proof.
  revert k. induction g as [|a g IH]; intros k Hk; [done|].
  destruct k as [|k]; simpl in *.
  - injection Hk as ->. lia.
  - specialize (IH k Hk). lia.
Qed.

Lemma holders_replicate_top n i : holders (replicate n W_Top) i = 0%nat.
Proof. induction n as [|n IH]; simpl; [done|]. by rewrite IH. Qed.

(** ** The invariant of the running program *)

Lemma pollOK_transfer s s' :
  poll s' = poll s ->
  modelName <$> last (manager s') = modelName <$> last (manager s) ->
  pollOK s -> pollOK s'.
Proof. unfold pollOK. intros -> ->. done. Qed.

Lemma maybeDestroy_name h : modelName (maybeDestroy h) = modelName h.
Proof. unfold maybeDestroy. by destruct (drained h). Qed.

Lemma Good_acquire s k w w' :
  Good s -> game s !! k = Some w ->
  forall h m, acquireLatest (manager s) = Some (h, m) ->
  (forall j, holds w' j = (holds w j + one h j)%nat) ->
  Good (set_worker k w' (set_manager m s)).
Proof.
  intros (Hf & HM & HP & HS & HT) Hk h m Hacq Hholds.
  destruct (acquire_ok _ _ HM) as (hl & Hlook & Hacq' & HM').
  rewrite Hacq' in Hacq. injection Hacq as <- <-.
  split_and!; simpl; try done.
  - eapply MgrOK_ext; [exact HM'|].
    intros j. pose proof (holders_insert _ _ _ w' j Hk). specialize (Hholds j).
    unfold bump, one in *. repeat case_decide; lia.
  - eapply (pollOK_transfer s); [done| |done]. simpl.
    by apply (last_name_insert _ _ hl).
  - intros HSp. specialize (HS HSp). rewrite HS in Hk. done.
Qed.

Lemma Good_release s k w w' h :
  Good s -> game s !! k = Some w ->
  (0 < holds w h)%nat ->
  (forall j, (holds w' j + one h j = holds w j)%nat) ->
  exists m, release (manager s) h = Some m /\
            Good (set_worker k w' (set_manager m s)).
Proof.
  intros (Hf & HM & HP & HS & HT) Hk Hpos Hholds.
  assert (Hpos' : (0 < holders (game s) h)%nat).
  { pose proof (holders_ge _ _ _ h Hk). lia. }
  destruct (release_ok _ _ h HM Hpos') as (hh & Hlook & Hrel & HM').
  eexists. split; [exact Hrel|].
  split_and!; simpl; try done.
  - eapply MgrOK_ext; [exact HM'|].
    intros j. pose proof (holders_insert _ _ _ w' j Hk). specialize (Hholds j).
    pose proof (holders_ge _ _ _ j Hk).
    unfold unbump, one in *. repeat case_decide; lia.
  - eapply (pollOK_transfer s); [done| |done]. simpl.
    apply (last_name_insert _ _ hh); [done|]. by rewrite maybeDestroy_name.
  - intros HSp. specialize (HS HSp). rewrite HS in Hk. done.
Qed.

Lemma Good_local s k w w' :
  Good s -> game s !! k = Some w ->
  (forall j, holds w' j = holds w j) ->
  Good (set_worker k w' s).
Proof.
  intros (Hf & HM & HP & HS & HT) Hk Hholds.
  split_and!; simpl; try done.
  - eapply MgrOK_ext; [exact HM|].
    intros j. pose proof (holders_insert _ _ _ w' j Hk). specialize (Hholds j). lia.
  - intros HSp. specialize (HS HSp). rewrite HS in Hk. done.
Qed.

Lemma Good_emits s t cs : Good s -> Good (emits t cs s).
Proof. done. Qed.

Lemma Good_set_counter s c : Good s -> Good (set_counter c s).
Proof. done. Qed.

Lemma Good_touch s m :
  Good s -> MgrOK m (holders (game s)) ->
  modelName <$> last m = modelName <$> last (manager s) ->
  Good (set_manager m s).
Proof.
  intros (Hf & HM & HP & HS & HT) HM' Hlast.
  split_and!; simpl; try done.
  by eapply (pollOK_transfer s).
Qed.

Lemma Good_worker cfg k c s : Good s -> Good (gameLoop_step cfg k c s).
Proof.
  intros HG. unfold gameLoop_step.
  destruct (game s !! k) as [w|] eqn:Hk; [|done].
  destruct w as [| |h|h idx|h idx|h idx|h h' idx|h gd|h sc|].
  - apply (Good_local s k W_Top); [done..|]. by destruct (shouldStop s).
  - destruct (acquire_ok _ _ (proj1 (proj2 HG))) as (hl & _ & Hacq & _).
    rewrite Hacq. apply Good_emits.
    eapply (Good_acquire s k W_Acquire); eauto.
  - apply Good_emits.
    apply (Good_local (set_counter _ s) k (W_FetchAdd h)); [|done..].
    by apply Good_set_counter.
  - apply Good_emits.
    destruct (count_ok _ _ h (proj1 (proj2 HG))) as (HM' & _ & Hlast).
    apply (Good_local (set_manager _ s) k (W_Count h idx)); [|done..].
    by apply Good_touch.
  - destruct (idx <? maxGamesTotal cfg).
    + apply Good_emits. by apply (Good_local s k (W_Branch h idx)).
    + by apply (Good_local s k (W_Branch h idx)).
  - destruct c as [|finished].
    + destruct (switchNetsMidGame cfg); [|done].
      destruct (acquire_ok _ _ (proj1 (proj2 HG))) as (hl & _ & Hacq & _).
      rewrite Hacq. apply Good_emits.
      eapply (Good_acquire s k (W_InGame h idx)); eauto.
    + apply Good_emits. by apply (Good_local s k (W_InGame h idx)).
  - unfold checkForNewNNEval_finish.
    destruct (Nat.eqb_spec h' h) as [->|Hne].
    + destruct (Good_release s k (W_Callback h h idx) (W_InGame h idx) h HG Hk)
        as (m & Hrel & HG').
      * simpl. unfold one. rewrite decide_True by done. lia.
      * intros j. simpl. lia.
      * rewrite Hrel. by apply Good_emits.
    + destruct (Good_release s k (W_Callback h h' idx) (W_InGame h' idx) h HG Hk)
        as (m & Hrel & HG').
      * simpl. unfold one. rewrite decide_True by done. lia.
      * intros j. simpl. lia.
      * rewrite Hrel. by apply Good_emits.
  - destruct gd as [g|].
    + apply Good_emits.
      destruct (enqueue_ok _ _ h g (proj1 (proj2 HG))) as (HM' & _ & Hlast).
      apply (Good_local (set_manager _ s) k (W_Enqueue h (Some g))); [|done..].
      by apply Good_touch.
    + by apply (Good_local s k (W_Enqueue h None)).
  - destruct (Good_release s k (W_Release h sc) (if sc then W_Top else W_Done) h HG Hk)
      as (m & Hrel & HG').
    + simpl. unfold one. rewrite decide_True by done. lia.
    + intros j. destruct sc; simpl; lia.
    + rewrite Hrel. by apply Good_emits.
  - done.
Qed.

Lemma load_cases cfg env lastNetName m :
  forall ok m' evs,
  loadLatestNeuralNetIntoManager cfg env lastNetName m = (ok, m', evs) ->
  (ok = false /\ m' = m) \/
  (ok = true /\ exists name, findLatestModel env = Some name /\
                 sameName lastNetName name = false /\
                 m' = loadModelAndStartDataWriting m name).
Proof.
  intros ok m' evs. unfold loadLatestNeuralNetIntoManager.
  destruct (findLatestModel env) as [name|]; [|intros [= <- <- <-]; by left].
  destruct (sameName lastNetName name) eqn:Hsame; [intros [= <- <- <-]; by left|].
  destruct (makeDirLoop _ _ _ _) as [[] evs']; intros [= <- <- <-];
    first [by left | right; split; [done|]; by exists name].
Qed.

Lemma Good_poller cfg env s :
  Good s -> admissible (APoller env) s = true -> Good (modelLoadLoop_step cfg env s).
Proof.
  intros HG Hadm. pose proof HG as (Hf & HM & HP & HS & HT).
  unfold modelLoadLoop_step. unfold pollOK in HP.
  destruct (poll s) as [| | |lastNetName| |final names i| | | | |] eqn:Hpoll;
    try done.
  - split_and!; simpl; try done. unfold pollOK. simpl. by destruct (shouldStop s).
  - split_and!; simpl; try done. unfold pollOK. simpl.
    by apply (getLatestModelName_ok _ _ HM).
  - destruct (loadLatestNeuralNetIntoManager cfg env (Some lastNetName) (manager s))
      as [[ok m'] evs] eqn:Hload.
    apply load_cases in Hload as [[-> ->]|(-> & name & Hfind & Hsame & ->)].
    + split_and!; simpl; try done.
    + split_and!; simpl; try done.
      apply load_ok; [done|].
      simpl in Hadm. rewrite Hfind in Hadm.
      apply orb_true_iff in Hadm as [Hfresh|Hlatest].
      * by apply bool_decide_eq_true in Hfresh.
      * apply bool_decide_eq_true in Hlatest. rewrite <- HP in Hlatest.
        injection Hlatest as ->. simpl in Hsame.
        by rewrite String.eqb_refl in Hsame.
  - destruct (modelNames_ok _ _ HM) as [Hlen Hnames].
    destruct (Nat.ltb_spec 0 (length (modelNames (manager s)))); [|lia].
    split_and!; simpl; try done.
  - destruct HP as (Hi & Hlen & Hnames).
    assert (Hb : sweepBound names = Z.of_nat (length names) - 1).
    { unfold sweepBound. destruct names; [simpl in Hlen; lia|done]. }
    rewrite Hb. destruct (Z.ltb_spec i (Z.of_nat (length names) - 1)) as [Hlt|Hge].
    + destruct (lookup_lt_is_Some_2 names (Z.to_nat i)) as [n Hn]; [lia|].
      rewrite Hn.
      destruct (schedule_ok _ _ n HM) as (HM' & _ & Hlast).
      { apply (Hnames (Z.to_nat i)); [lia|done]. }
      apply Good_emits. split_and!; simpl; try done.
      unfold pollOK. simpl. split; [lia|]. split; [done|].
      intros j n' Hj Hjn. rewrite Hlast. by apply (Hnames j).
    + split_and!; simpl; try done. unfold pollOK. simpl. by destruct final.
  - split_and!; simpl; try done. unfold pollOK. simpl. by destruct (shouldStop s).
  - destruct (mutexHeld s); [done|].
    split_and!; simpl; try done. unfold pollOK. simpl. by destruct (shouldStop s).
  - destruct (mutexHeld s); [done|]. split_and!; simpl; done.
  - destruct (modelNames_ok _ _ HM) as [Hlen Hnames].
    split_and!; simpl; try done.
Qed.

Lemma Good_main cfg s : Good s -> Good (selfplay_step cfg s).
Proof.
  intros HG. pose proof HG as (Hf & HM & HP & HS & HT). unfold selfplay_step.
  destruct (mainT s) as [| |i| | | | |] eqn:Hmain; try done.
  - split_and!; simpl; try done.
    eapply MgrOK_ext; [exact HM|]. intros j.
    rewrite holders_replicate_top. by rewrite HS.
  - destruct (Nat.ltb i (length (game s))).
    + destruct (game s !! i) as [[]|]; try done.
    + done.
  - destruct (poll s); done.
Qed.

Lemma Good_signal s : Good s -> Good (signalHandler s).
Proof. done. Qed.

Lemma Inv_step cfg a s : Inv s -> admissible a s = true -> Inv (step cfg a s).
Proof.
  intros [(HT & Hf & Hg)|HG] Hadm.
  - left. unfold step. by rewrite Hf.
  - right. unfold step. destruct HG as (Hf & HG'). rewrite Hf.
    assert (HG : Good s) by done.
    destruct a as [|k c|env|].
    + by apply Good_signal.
    + by apply Good_worker.
    + by apply Good_poller.
    + by apply Good_main.
Qed.

Lemma Inv_start cfg env : Inv (selfplay_startup cfg env).
Proof.
  unfold selfplay_startup.
  destruct (loadLatestNeuralNetIntoManager cfg env None []) as [[ok m] evs] eqn:Hload.
  apply load_cases in Hload as [[-> ->]|(-> & name & Hfind & Hsame & ->)].
  - by left.
  - right. split_and!; simpl; try done.
    split_and!.
    + eexists. split; [done|done].
    + intros [|[|i]]; simpl; done.
    + simpl. apply NoDup_singleton.
Qed.

Lemma reachable_Inv cfg s : reachable cfg s -> Inv s.
Proof.
  induction 1 as [env|s a Hreach IH Hadm].
  - apply Inv_start.
  - by apply Inv_step.
Qed.

(** Runs of the executable step function are reachable states. *)
Lemma run_reachable cfg acts s :
  reachable cfg s -> admissible_run cfg acts s = true ->
  reachable cfg (run cfg acts s).
Proof.
  revert s. induction acts as [|a acts IH]; intros s Hs Hadm; [done|].
  simpl in Hadm. apply andb_true_iff in Hadm as [Ha Hrest].
  simpl. apply IH; [|done]. by apply reach_step.
Qed.

(** ** What one step leaves alone *)

Lemma calls_of_app t tr tr' : calls_of t (tr ++ tr') = calls_of t tr ++ calls_of t tr'.
Proof. unfold calls_of. by rewrite filter_app, fmap_app. Qed.

Lemma calls_of_same t cs : calls_of t (pair t <$> cs) = cs.
Proof.
  unfold calls_of. induction cs as [|c cs IH]; [done|].
  rewrite fmap_cons, filter_cons_True by done. rewrite fmap_cons. f_equal. exact IH.
Qed.

Lemma calls_of_other t t' cs : t' <> t -> calls_of t (pair t' <$> cs) = [].
Proof.
  intros Hne. unfold calls_of. induction cs as [|c cs IH]; [done|].
  rewrite fmap_cons, filter_cons_False by done. exact IH.
Qed.

Lemma gameLoop_step_local cfg k c s w :
  game s !! k = Some w ->
  exists w' cs,
    wlocal cfg w cs w' /\
    game (gameLoop_step cfg k c s) = <[k := w']> (game s) /\
    trace (gameLoop_step cfg k c s) = trace s ++ (pair (TWorker k) <$> cs).
Proof.
  intros Hk. unfold gameLoop_step. rewrite Hk.
  assert (Hidle : exists w' cs, wlocal cfg w cs w' /\
            game s = <[k := w']> (game s) /\
            trace s = trace s ++ (pair (TWorker k) <$> cs)).
  { exists w, []. split; [constructor|]. split.
    - by rewrite list_insert_id.
    - simpl. by rewrite app_nil_r. }
  destruct w as [| |h|h idx|h idx|h idx|h h' idx|h gd|h sc|].
  - destruct (shouldStop s); eexists _, []; simpl; rewrite app_nil_r;
      (split; [constructor|done]).
  - destruct (acquireLatest (manager s)) as [[h m]|]; [|exact Hidle].
    eexists _, _. split; [apply wl_acquire|done].
  - eexists _, _. split; [apply wl_fetch|done].
  - eexists _, _. split; [apply wl_count|done].
  - destruct (Z.ltb_spec idx (maxGamesTotal cfg)).
    + eexists _, _. split; [by apply wl_rungame|done].
    + eexists _, []. simpl. rewrite app_nil_r. split; [by apply wl_ceiling|done].
  - destruct c as [|finished].
    + destruct (switchNetsMidGame cfg) eqn:Hsw; [|exact Hidle].
      destruct (acquireLatest (manager s)) as [[h' m]|]; [|exact Hidle].
      eexists _, _. split; [by apply wl_callback|done].
    + eexists _, _. split; [apply wl_return|done].
  - unfold checkForNewNNEval_finish. destruct (Nat.eqb_spec h' h) as [->|Hne].
    + destruct (release (manager s) h); [|exact Hidle].
      eexists _, _. split; [apply wl_same|done].
    + destruct (release (manager s) h); [|exact Hidle].
      eexists _, _. split; [by apply wl_swap|done].
  - destruct gd as [g|].
    + eexists _, _. split; [apply wl_enqueue|done].
    + eexists _, []. simpl. rewrite app_nil_r. split; [apply wl_skip|done].
  - destruct (release (manager s) h); [|exact Hidle].
    eexists _, _. split; [apply wl_release|done].
  - exact Hidle.
Qed.

Lemma gameLoop_step_frame cfg k c s :
  poll (gameLoop_step cfg k c s) = poll s /\
  mainT (gameLoop_step cfg k c s) = mainT s /\
  shouldStop (gameLoop_step cfg k c s) = shouldStop s /\
  mutexHeld (gameLoop_step cfg k c s) = mutexHeld s.
Proof.
  unfold gameLoop_step. destruct (game s !! k) as [w|]; [|done].
  unfold checkForNewNNEval_finish.
  destruct w as [| |h|h idx|h idx|h idx|h h' idx|h gd|h sc|]; simpl;
    repeat case_match; done.
Qed.

Lemma modelLoadLoop_step_frame cfg env s :
  game (modelLoadLoop_step cfg env s) = game s /\
  mainT (modelLoadLoop_step cfg env s) = mainT s /\
  numGamesStarted (modelLoadLoop_step cfg env s) = numGamesStarted s /\
  shouldStop (modelLoadLoop_step cfg env s) = shouldStop s /\
  mutexHeld (modelLoadLoop_step cfg env s) = mutexHeld s /\
  exists cs, trace (modelLoadLoop_step cfg env s) = trace s ++ (pair TPoller <$> cs).
Proof.
  assert (Hidle : exists cs, trace s = trace s ++ (pair TPoller <$> cs)).
  { exists []. simpl. by rewrite app_nil_r. }
  unfold modelLoadLoop_step.
  destruct (poll s) as [| | |lastNetName| |final names i| | | | |];
    repeat case_match; split_and!; try done; try exact Hidle.
  all: eexists; reflexivity.
Qed.

Lemma selfplay_step_cases cfg s :
  (mainT s = M_Spawn /\
   selfplay_step cfg s =
     set_main (M_Join 0)
       (set_poll P_Top
          (set_game (replicate (Z.to_nat (numGameThreads cfg)) W_Top) s))) \/
  (mainT s <> M_Spawn /\ mainT (selfplay_step cfg s) <> M_Spawn /\
   game (selfplay_step cfg s) = game s /\
   poll (selfplay_step cfg s) = poll s /\
   manager (selfplay_step cfg s) = manager s /\
   numGamesStarted (selfplay_step cfg s) = numGamesStarted s /\
   exists cs, trace (selfplay_step cfg s) = trace s ++ (pair TMain <$> cs)).
Proof.
  assert (Hidle : exists cs, trace s = trace s ++ (pair TMain <$> cs)).
  { exists []. simpl. by rewrite app_nil_r. }
  unfold selfplay_step. destruct (mainT s) eqn:Hm; [right|left|right..];
    repeat case_match; split_and!; try done; try exact Hidle; try congruence.
  all: eexists; reflexivity.
Qed.

(** ** Invariants of the calls of one game thread *)

Section WorkerTraces.
Variable cfg : Config.
Variable P : wstate -> list call -> Prop.
Hypothesis P_start : P W_Top [].
Hypothesis P_step :
  forall w cs w' tr, wlocal cfg w cs w' -> P w tr -> P w' (tr ++ cs).

Lemma traceInv_start env : traceInv P (selfplay_startup cfg env).
Proof.
  unfold selfplay_startup.
  destruct (loadLatestNeuralNetIntoManager cfg env None []) as [[ok m] evs].
  destruct ok; (split; [|done]); intros k; simpl.
  - by apply calls_of_other.
  - rewrite calls_of_app, !calls_of_other by done. done.
Qed.

Lemma traceInv_step a s : traceInv P s -> traceInv P (step cfg a s).
Proof.
  intros [HP HS]. unfold step. destruct (fatal s); [done|].
  destruct a as [|k c|env|].
  - done.
  - destruct (game s !! k) as [w|] eqn:Hk.
    + destruct (gameLoop_step_local cfg k c s w Hk) as (w' & cs & Hloc & Hg & Ht).
      destruct (gameLoop_step_frame cfg k c s) as (_ & Hm & _).
      split.
      * intros k'. rewrite Hg, Ht, calls_of_app.
        specialize (HP k'). destruct (decide (k' = k)) as [->|Hne].
        -- rewrite list_lookup_insert_eq by (by apply lookup_lt_Some in Hk).
           rewrite calls_of_same. rewrite Hk in HP. by eapply P_step.
        -- rewrite list_lookup_insert_ne by done.
           rewrite calls_of_other, app_nil_r by congruence. done.
      * rewrite Hm. intros HSp. specialize (HS HSp). by rewrite HS in Hk.
    + unfold gameLoop_step. by rewrite Hk.
  - destruct (modelLoadLoop_step_frame cfg env s) as (Hg & Hm & _ & _ & _ & cs & Ht).
    split.
    + intros k. rewrite Hg, Ht, calls_of_app, calls_of_other, app_nil_r by done.
      apply HP.
    + by rewrite Hg, Hm.
  - destruct (selfplay_step_cases cfg s) as [[Hm ->]|(Hm & Hm' & Hg & _ & _ & _ & cs & Ht)].
    + split; [|done]. intros k. simpl. specialize (HP k).
      rewrite (HS Hm) in HP. simpl in HP. rewrite HP.
      destruct (replicate _ _ !! k) as [w|] eqn:Hw; [|done].
      apply lookup_replicate in Hw as [-> _]. done.
    + split; [|done].
      intros k. rewrite Hg, Ht, calls_of_app, calls_of_other, app_nil_r by done.
      apply HP.
Qed.

Lemma worker_traces s :
  reachable cfg s ->
  forall k w, game s !! k = Some w -> P w (calls_of (TWorker k) (trace s)).
Proof.
  intros Hreach.
  assert (HI : traceInv P s).
  { induction Hreach; [apply traceInv_start|by apply traceInv_step]. }
  intros k w Hk. destruct HI as [HP _]. specialize (HP k). by rewrite Hk in HP.
Qed.
End WorkerTraces.

Lemma count_calls_app {A} (f : A -> bool) cs cs' :
  count_calls f (cs ++ cs') = (count_calls f cs + count_calls f cs')%nat.
Proof. induction cs as [|c cs IH]; simpl; [done|]. rewrite IH. lia. Qed.

Lemma balanced_step cfg w cs w' tr :
  wlocal cfg w cs w' -> balanced w tr -> balanced w' (tr ++ cs).
Proof.
  unfold balanced. intros Hloc Hb. rewrite !count_calls_app.
  destruct Hloc; simpl in *; repeat case_match; simpl; lia.
Qed.

Lemma inCallback_reachable : reachable cfg1 inCallback.
Proof. apply run_reachable; [apply reach_start|reflexivity]. Defined.

Lemma swapped_reachable : reachable cfg1 swapped.
Proof. apply run_reachable; [apply inCallback_reachable|reflexivity]. Defined.

(** ** Reference counting (C1) *)

(** C1.  In every state that the game threads and the polling thread can
    reach by any interleaving of their acquireLatest, release and
    scheduleCleanupModelWhenFree calls (model names being unique, as in
    the data model of the specification): no release or acquire ever fails,
    every reference count is the number of references the game threads
    hold (so it is never negative), and the destroy routine of a handle
    has run exactly once if the handle is retiring with a count of zero,
    and not at all otherwise. *)
Theorem refcount_safety cfg s :
  reachable cfg s ->
  (mainT s <> M_Threw -> fatal s = false) /\
  forall i h, manager s !! i = Some h ->
    0 <= refCount h /\
    refCount h = Z.of_nat (holders (game s) i) /\
    destroyRuns h = if retiring h && (refCount h =? 0) then 1%nat else 0%nat.
Proof.
  intros Hreach. apply reachable_Inv in Hreach as [(HT & Hf & Hg & Hm)|HG].
  - split; [done|]. intros i h. by rewrite Hm.
  - destruct HG as (Hf & (_ & Hh & _) & _). split; [done|].
    intros i h Hi. specialize (Hh i). rewrite Hi in Hh. destruct Hh as [Hrc Hd].
    split; [lia|]. split; done.
Qed.

Lemma refcount_safety_witness :
  reachable cfg1 swapped /\
  (mainT swapped <> M_Threw -> fatal swapped = false) /\
  forall i h, manager swapped !! i = Some h ->
    0 <= refCount h /\
    refCount h = Z.of_nat (holders (game swapped) i) /\
    destroyRuns h = if retiring h && (refCount h =? 0) then 1%nat else 0%nat.
Proof.
  split; [apply swapped_reachable|].
  apply (refcount_safety cfg1 swapped). apply swapped_reachable.
Defined.

(** In the sample run the superseded handle is destroyed once, by the
    release that drops its last reference, and the newest is untouched. *)
Example swapped_manager :
  (fun h => (modelName h, refCount h, retiring h, destroyRuns h, pipeline h))
    <$> manager swapped
  = [("m0", 0, true, 1%nat, []); ("m1", 0, false, 0%nat, [0])].
Proof. reflexivity. Qed.

(** ** References held by one game thread (C10) *)

(** Inside the callback, after its acquireLatest (line 249) and before its
    release (line 252 or 255), the thread holds two references. *)
Lemma holds_exactly_one_fails : ~ holds_exactly_one cfg1.
Proof.
  intros H.
  specialize (H inCallback 0%nat (W_Callback 0 1 0) inCallback_reachable).
  vm_compute in H. specialize (H eq_refl).
  assert (2 = 1)%nat as Habs; [|discriminate Habs].
  apply H; discriminate.
Qed.

(** C10, amended.  For every game thread, the acquireLatest calls made so
    far equal the release calls made so far plus the references held at
    the current program point: none at the head of an iteration and after
    the loop, two inside the callback between its acquire and its release,
    and one everywhere else between the initial acquire and the final
    release. *)
Theorem worker_balance cfg s k w :
  reachable cfg s -> game s !! k = Some w ->
  count_calls is_acquire (calls_of (TWorker k) (trace s)) =
  (count_calls is_release (calls_of (TWorker k) (trace s)) + held w)%nat.
Proof.
  intros Hreach Hk.
  apply (worker_traces cfg balanced) with (s := s) (k := k) (w := w); try done.
  apply balanced_step.
Qed.

Lemma worker_balance_witness :
  reachable cfg1 inCallback /\ game inCallback !! 0%nat = Some (W_Callback 0 1 0) /\
  count_calls is_acquire (calls_of (TWorker 0) (trace inCallback)) =
  (count_calls is_release (calls_of (TWorker 0) (trace inCallback)) + 2)%nat.
Proof.
  split; [apply inCallback_reachable|]. split; [reflexivity|].
  apply (worker_balance cfg1 inCallback 0%nat (W_Callback 0 1 0)).
  - apply inCallback_reachable.
  - reflexivity.
Defined.

(** ** What follows a finished game, and what follows the ceiling *)

Lemma snoc_split {A} (tr cs pre post : list A) x :
  tr ++ cs = pre ++ x :: post ->
  (exists post0, tr = pre ++ x :: post0 /\ post = post0 ++ cs) \/
  (exists pre1, pre = tr ++ pre1 /\ cs = pre1 ++ x :: post).
Proof.
  intros H. apply app_eq_app in H as [l [[-> Hl]|[-> ->]]].
  - destruct l as [|y l]; simpl in Hl.
    + right. exists []. by rewrite !app_nil_r.
    + injection Hl as Hx Hp. subst. left. by exists l.
  - right. by exists l.
Qed.

Lemma single_split {A} (c x : A) (pre post : list A) :
  [c] = pre ++ x :: post -> pre = [] /\ post = [] /\ x = c.
Proof.
  destruct pre as [|y pre]; simpl; intros H; injection H as H1 H2.
  - by subst.
  - by destruct pre.
Qed.

Lemma completes_step cfg w cs w' tr :
  wlocal cfg w cs w' -> completes w tr -> completes w' (tr ++ cs).
Proof.
  intros Hloc (H1 & H2 & H3). split; [|split].
  - intros pre idx h post Heq.
    apply snoc_split in Heq as [(post0 & -> & ->)|(pre1 & -> & Hcs)].
    + destruct (H1 _ _ _ _ eq_refl) as [[-> ->]|[[-> ->]|(rest & ->)]].
      * inversion Hloc; subst; simpl; auto.
      * inversion Hloc; subst; simpl; auto. right. right. by exists [].
      * right. right. by eexists.
    + destruct Hloc; try (by destruct pre1);
        apply single_split in Hcs as (-> & -> & Hc); try discriminate Hc.
      injection Hc as -> -> Hf. rewrite <- Hf. by left.
  - intros pre h g post Heq.
    apply snoc_split in Heq as [(post0 & -> & ->)|(pre1 & -> & Hcs)].
    + by eapply H2.
    + destruct Hloc; try (by destruct pre1);
        apply single_split in Hcs as (-> & -> & Hc); try discriminate Hc.
      injection Hc as -> ->. rewrite app_nil_r. by apply H3.
  - intros h g Hw. inversion Hloc; subst; try discriminate.
    + rewrite app_nil_r. by apply H3.
    + match goal with H : W_Enqueue _ _ = W_Enqueue _ _ |- _ => injection H as -> Hf end.
      destruct finished; [|discriminate]. injection Hf as ->. by exists tr.
    + by destruct sc.
Qed.

Lemma completes_start : completes W_Top [].
Proof.
  split; [|split].
  - intros pre idx h post H. by destruct pre.
  - intros pre h g post H. by destruct pre.
  - done.
Qed.

Lemma ceiling_stop_step cfg w cs w' tr :
  wlocal cfg w cs w' -> ceiling_stop cfg w tr -> ceiling_stop cfg w' (tr ++ cs).
Proof.
  intros Hloc HP pre idx post Heq Hmax.
  apply snoc_split in Heq as [(post0 & -> & ->)|(pre1 & -> & Hcs)].
  - destruct (HP _ _ _ eq_refl Hmax) as (h & [[-> ->]|[[-> Hw]|[-> ->]]]); exists h.
    + inversion Hloc; subst; simpl; auto.
    + destruct Hw as [->|[->| ->]]; inversion Hloc; subst; simpl; auto 6; lia.
    + inversion Hloc; subst; simpl; auto.
  - destruct Hloc; try (by destruct pre1);
      apply single_split in Hcs as (-> & -> & Hc); try discriminate Hc.
    injection Hc as ->. eexists. by left.
Qed.

Lemma ceiling_stop_start cfg : ceiling_stop cfg W_Top [].
Proof. intros pre idx post H. by destruct pre. Qed.

Lemma acquired_app tr cs : acquired (tr ++ cs) = acquired tr ++ acquired cs.
Proof. unfold acquired. apply omap_app. Qed.

Lemma tagged_step cfg w cs w' tr :
  wlocal cfg w cs w' -> tagged w tr -> tagged w' (tr ++ cs).
Proof.
  intros Hloc [Hw Henq]. split.
  - rewrite acquired_app.
    destruct Hloc; simpl in *; rewrite ?app_nil_r; try done;
      try (by rewrite last_snoc); by repeat case_match.
  - intros pre h g post Heq.
    apply snoc_split in Heq as [(post0 & -> & ->)|(pre1 & -> & Hcs)].
    + by eapply Henq.
    + destruct Hloc; try (by destruct pre1);
        apply single_split in Hcs as (-> & -> & Hc); try discriminate Hc.
      injection Hc as -> ->. by rewrite app_nil_r.
Qed.

Lemma tagged_start : tagged W_Top [].
Proof. split; [done|]. intros pre h g post H. by destruct pre. Qed.

(** ** Completed games (C5) *)

(** In the sample run the game starts on handle 0, the callback swaps in
    handle 1, and the record of game 0 is enqueued under handle 1. *)
Example swapped_calls :
  calls_of (TWorker 0) (trace swapped) =
  [CAcquire 0; CFetchAdd 0; CCountOneGameStarted 0 0; CRunGame 0 0;
   CAcquire 1; CRelease 0; CRunGameReturn 0 1 true; CEnqueue 1 0; CRelease 1].
Proof. reflexivity. Qed.

(** ** The shared game counter *)

Lemma total_insert f g k w w' :
  g !! k = Some w -> (total f (<[k := w']> g) + f w = total f g + f w')%nat.
Proof.
  revert k. induction g as [|a g IH]; intros k Hk; [done|].
  destruct k as [|k]; simpl in *.
  - injection Hk as ->. lia.
  - specialize (IH k Hk). lia.
Qed.

Lemma total_le f g : (forall w, (f w <= 1)%nat) -> (total f g <= length g)%nat.
Proof.
  intros Hf. induction g as [|a g IH]; simpl; [done|]. specialize (Hf a). lia.
Qed.

Lemma total_pos f g :
  (0 < total f g)%nat -> exists k w, g !! k = Some w /\ (0 < f w)%nat.
Proof.
  induction g as [|a g IH]; simpl; [lia|]. intros H.
  destruct (decide (0 < f a)%nat) as [Ha|Ha].
  - by exists 0%nat, a.
  - destruct IH as (k & w & Hk & Hw); [lia|]. by exists (S k), w.
Qed.

Lemma total_replicate f n w : f w = 0%nat -> total f (replicate n w) = 0%nat.
Proof. intros Hw. induction n as [|n IH]; simpl; [done|]. by rewrite Hw, IH. Qed.

Lemma started_worker idx k cs :
  started idx (pair (TWorker k) <$> cs) = count_calls (is_rungame idx) cs.
Proof.
  induction cs as [|c cs IH]; [done|]. unfold started in *.
  rewrite fmap_cons. cbn [count_calls is_start]. by rewrite IH.
Qed.

Lemma started_other idx t cs :
  (forall k, t <> TWorker k) -> started idx (pair t <$> cs) = 0%nat.
Proof.
  intros Ht. induction cs as [|c cs IH]; [done|]. unfold started in *.
  rewrite fmap_cons. cbn [count_calls is_start].
  rewrite IH. destruct t; [done..|]. by destruct (Ht k).
Qed.

Ltac zcases :=
  repeat match goal with
         | |- context [?a <=? ?b] => destruct (Z.leb_spec a b)
         | |- context [?a <? ?b] => destruct (Z.ltb_spec a b)
         | |- context [?a =? ?b] => destruct (Z.eqb_spec a b)
         end.

Lemma wlocal_doomed cfg w cs w' :
  wlocal cfg w cs w' -> (doomed cfg w <= doomed cfg w')%nat.
Proof.
  intros Hloc. destruct Hloc; simpl; repeat case_match; zcases; simpl; lia.
Qed.

Lemma wlocal_pending cfg w cs w' idx :
  wlocal cfg w cs w' -> (forall h, w <> W_FetchAdd h) ->
  (count_calls (is_rungame idx) cs + pending cfg idx w')%nat = pending cfg idx w.
Proof.
  intros Hloc Hw. destruct Hloc; simpl; repeat case_match; zcases; simpl; try lia.
  by destruct (Hw h).
Qed.

Lemma gameLoop_step_counter cfg k c s w :
  game s !! k = Some w ->
  match w with
  | W_FetchAdd h =>
      game (gameLoop_step cfg k c s) = <[k := W_Count h (numGamesStarted s)]> (game s) /\
      trace (gameLoop_step cfg k c s) =
        trace s ++ (pair (TWorker k) <$> [CFetchAdd (numGamesStarted s)]) /\
      numGamesStarted (gameLoop_step cfg k c s) = wrap_signed 64 (numGamesStarted s + 1)
  | _ => numGamesStarted (gameLoop_step cfg k c s) = numGamesStarted s
  end.
Proof.
  intros Hk. unfold gameLoop_step. rewrite Hk. unfold checkForNewNNEval_finish.
  destruct w; simpl; repeat case_match; done.
Qed.

Lemma started_app idx tr tr' :
  started idx (tr ++ tr') = (started idx tr + started idx tr')%nat.
Proof. apply count_calls_app. Qed.

Lemma spawn_empty cfg s : reachable cfg s -> mainT s = M_Spawn -> game s = [].
Proof.
  intros Hreach Hm. apply reachable_Inv in Hreach as [(_ & _ & Hg & _)|(_ & _ & _ & HS & _)].
  - done.
  - by apply HS.
Qed.

Lemma counterInv_start cfg env :
  valid_config cfg -> counterInv cfg (selfplay_startup cfg env).
Proof.
  intros [HN HM]. unfold selfplay_startup.
  destruct (loadLatestNeuralNetIntoManager cfg env None []) as [[ok m] evs].
  assert (Hgoal : forall tr, (forall idx, started idx tr = 0%nat) -> counterOK cfg 0 [] tr).
  { intros tr Htr. split; [simpl; lia|]. split; [simpl; lia|].
    intros idx. rewrite Htr. simpl. zcases; simpl; lia. }
  destruct ok; apply Hgoal; intros idx; simpl.
  - by apply started_other.
  - rewrite started_app, !started_other by done. done.
Qed.

Lemma counterInv_step cfg a s :
  valid_config cfg -> reachable cfg s ->
  counterInv cfg s -> counterInv cfg (step cfg a s).
Proof.
  intros [HN HM] Hreach (Hc & Hlen & Hidx). unfold step.
  destruct (fatal s); [done|]. destruct a as [|k c|env|].
  - done.
  - destruct (game s !! k) as [w|] eqn:Hk; [|unfold gameLoop_step; by rewrite Hk].
    destruct (gameLoop_step_local cfg k c s w Hk) as (w' & cs & Hloc & Hg & Ht).
    pose proof (gameLoop_step_counter cfg k c s w Hk) as Hcnt.
    pose proof (total_le (doomed cfg) (game s)) as Hdl.
    assert (Hd1 : forall w0, (doomed cfg w0 <= 1)%nat).
    { intros w0. destruct w0; simpl; repeat case_match; lia. }
    specialize (Hdl Hd1).
    assert (Hcase : (exists h, w = W_FetchAdd h) \/ ~ (exists h, w = W_FetchAdd h)).
    { destruct w; try (right; intros [h' Hh]; discriminate Hh). left. eauto. }
    destruct Hcase as [[h ->]|Hnf].
    + destruct Hcnt as (Hg' & Ht' & Hc').
      unfold counterInv. rewrite Hg', Ht', Hc'.
      rewrite wrap_signed_id by lia.
      pose proof (total_insert (doomed cfg) _ _ _ (W_Count h (numGamesStarted s)) Hk) as Hd.
      split; [|split].
      * simpl in Hd. destruct (Z.leb_spec (maxGamesTotal cfg) (numGamesStarted s)); lia.
      * by rewrite length_insert.
      * intros idx. specialize (Hidx idx).
        pose proof (total_insert (pending cfg idx) _ _ _ (W_Count h (numGamesStarted s)) Hk) as Hp.
        rewrite started_app, started_worker. simpl in *.
        revert Hidx Hp. zcases; simpl; intros; lia.
    + assert (Hw : forall h, w <> W_FetchAdd h) by (intros h ->; apply Hnf; eauto).
      assert (Hc' : numGamesStarted (gameLoop_step cfg k c s) = numGamesStarted s).
      { destruct w; try done. by destruct (Hw nnEval). }
      unfold counterInv. rewrite Hg, Ht, Hc'.
      pose proof (total_insert (doomed cfg) _ _ _ w' Hk) as Hd.
      pose proof (wlocal_doomed _ _ _ _ Hloc) as Hmono.
      split; [lia|]. split; [by rewrite length_insert|].
      intros idx. specialize (Hidx idx).
      pose proof (total_insert (pending cfg idx) _ _ _ w' Hk) as Hp.
      pose proof (wlocal_pending _ _ _ _ idx Hloc Hw) as Hpe.
      rewrite started_app, started_worker. rewrite <- Hidx. lia.
  - destruct (modelLoadLoop_step_frame cfg env s) as (Hg & _ & Hcs & _ & _ & cs & Ht).
    unfold counterInv. rewrite Hg, Hcs, Ht.
    split; [done|]. split; [done|]. intros idx.
    rewrite started_app, started_other by done. rewrite <- Hidx. lia.
  - destruct (selfplay_step_cases cfg s) as [[Hm ->]|(Hm & _ & Hg & _ & _ & Hcs & cs & Ht)].
    + pose proof (spawn_empty cfg s Hreach Hm) as He. rewrite He in *.
      change (counterOK cfg (numGamesStarted s)
                (replicate (Z.to_nat (numGameThreads cfg)) W_Top) (trace s)).
      split; [|split].
      * rewrite total_replicate by done. exact Hc.
      * by rewrite length_replicate.
      * intros idx. rewrite total_replicate by done. apply Hidx.
    + unfold counterInv. rewrite Hg, Hcs, Ht.
      split; [done|]. split; [done|]. intros idx.
      rewrite started_app, started_other by done. rewrite <- Hidx. lia.
Qed.

Lemma reachable_counterInv cfg s :
  valid_config cfg -> reachable cfg s -> counterInv cfg s.
Proof.
  intros Hv Hreach. induction Hreach as [env|s a Hreach IH Hadm].
  - by apply counterInv_start.
  - by apply counterInv_step.
Qed.

(** ** Game indices and the ceiling (C3) *)

Lemma atCeiling_reachable : reachable cfg1 atCeiling.
Proof. apply run_reachable; [apply swapped_reachable|reflexivity]. Defined.

Lemma cfg1_valid : valid_config cfg1.
Proof. unfold valid_config, cfg1. simpl. lia. Qed.

(** Line 265 calls countOneGameStarted before line 266 tests the index. *)
Lemma no_count_at_ceiling_fails : ~ no_count_at_ceiling cfg1.
Proof.
  intros H. specialize (H atCeiling 0%nat 1%nat 1 atCeiling_reachable).
  assert (1 < 1) as Habs; [|lia].
  apply H. apply list_elem_of_lookup. exists 11%nat. reflexivity.
Qed.

(** In that run two games are recorded as started although runGame was
    entered once. *)
Example atCeiling_counts :
  gamesStarted <$> manager atCeiling = [1%nat; 1%nat] /\
  started 0 (trace atCeiling) = 1%nat /\ started 1 (trace atCeiling) = 0%nat.
Proof. repeat split; reflexivity. Qed.

(** C3, amended.  A game thread that has drawn an index at or above the
    ceiling makes exactly two more calls, countOneGameStarted and release
    on the handle it holds, and is then finished; runGame is entered only
    with indices below the ceiling; no index is used for two entries; and
    the indices used, together with those drawn by threads that are about
    to enter runGame, are exactly the integers from 0 up to the smaller of
    the counter and the ceiling; once all game threads have finished, these
    are exactly the indices used.  The configuration is in the ranges that
    lines 85 and 101 enforce, so that the 64-bit counter does not wrap. *)
Theorem game_indices cfg s :
  valid_config cfg -> reachable cfg s ->
  (forall k w pre idx post,
      game s !! k = Some w ->
      calls_of (TWorker k) (trace s) = pre ++ CFetchAdd idx :: post ->
      maxGamesTotal cfg <= idx ->
      exists h,
        (post = [] /\ w = W_Count h idx) \/
        (post = [CCountOneGameStarted h idx] /\
         (w = W_Branch h idx \/ w = W_Enqueue h None \/ w = W_Release h false)) \/
        (post = [CCountOneGameStarted h idx; CRelease h] /\ w = W_Done)) /\
  (forall idx, (started idx (trace s) <= 1)%nat) /\
  (forall idx, started idx (trace s) = 1%nat ->
               0 <= idx < Z.min (numGamesStarted s) (maxGamesTotal cfg)) /\
  (forall idx, 0 <= idx < Z.min (numGamesStarted s) (maxGamesTotal cfg) ->
               started idx (trace s) = 1%nat \/
               exists k h, game s !! k = Some (W_Count h idx) \/
                           game s !! k = Some (W_Branch h idx)) /\
  ((forall k w, game s !! k = Some w -> w = W_Done) ->
   forall idx, started idx (trace s) = 1%nat <->
               0 <= idx < Z.min (numGamesStarted s) (maxGamesTotal cfg)).
Proof.
  intros Hv Hreach.
  pose proof (reachable_counterInv cfg s Hv Hreach) as (_ & _ & Hidx).
  assert (Hcover : forall idx, 0 <= idx < Z.min (numGamesStarted s) (maxGamesTotal cfg) ->
               started idx (trace s) = 1%nat \/
               exists k h, game s !! k = Some (W_Count h idx) \/
                           game s !! k = Some (W_Branch h idx)); [|split_and!; [| | |exact Hcover|]].
  - intros idx Hrange. specialize (Hidx idx).
    destruct (decide (started idx (trace s) = 1%nat)) as [|Hne]; [by left|right].
    destruct (total_pos (pending cfg idx) (game s)) as (k & w & Hk & Hw).
    { revert Hidx. zcases; simpl; intros; lia. }
    exists k. destruct w as [| |h|h i|h i| | | | |]; simpl in Hw; try lia.
    + exists h. left. revert Hw. zcases; simpl; intros; [by subst|lia..].
    + exists h. right. revert Hw. zcases; simpl; intros; [by subst|lia..].
  - intros k w pre idx post Hk Heq Hmax.
    by apply (worker_traces cfg (ceiling_stop cfg) (ceiling_stop_start cfg)
                (ceiling_stop_step cfg) s Hreach k w Hk pre idx post).
  - intros idx. specialize (Hidx idx). revert Hidx. case_match; lia.
  - intros idx H1. specialize (Hidx idx). rewrite H1 in Hidx.
    revert Hidx. zcases; simpl; intros; lia.
  - intros Hdone idx. split.
    + intros H1. specialize (Hidx idx). rewrite H1 in Hidx.
      revert Hidx. zcases; simpl; intros; lia.
    + intros Hrange. destruct (Hcover idx Hrange) as [|(k & h & [Hk|Hk])]; [done|..];
        by specialize (Hdone _ _ Hk).
Qed.

Lemma game_indices_witness :
  valid_config cfg1 /\ reachable cfg1 atCeiling /\
  (forall idx, (started idx (trace atCeiling) <= 1)%nat) /\
  (forall idx, started idx (trace atCeiling) = 1%nat ->
               0 <= idx < Z.min (numGamesStarted atCeiling) (maxGamesTotal cfg1)).
Proof.
  split; [apply cfg1_valid|]. split; [apply atCeiling_reachable|].
  pose proof (game_indices cfg1 atCeiling cfg1_valid atCeiling_reachable)
    as (_ & H2 & H3 & _).
  split; [exact H2|exact H3].
Defined.

(** ** The shutdown sequence of the main thread (C6) *)

Lemma trace_split tr t cs pre post (e : event) :
  tr ++ (pair t <$> cs) = pre ++ e :: post ->
  (exists post0, tr = pre ++ e :: post0 /\ post = post0 ++ (pair t <$> cs)) \/
  (exists c pre1 post1, e = (t, c) /\ cs = pre1 ++ c :: post1 /\
                        pre = tr ++ (pair t <$> pre1) /\ post = pair t <$> post1).
Proof.
  intros H. apply snoc_split in H as [H|(pre1 & -> & Hcs)]; [by left|right].
  apply fmap_app_inv in Hcs as (l1 & l2 & -> & Hl2 & ->).
  symmetry in Hl2. apply fmap_cons_inv in Hl2 as (c & l3 & -> & -> & ->).
  by exists c, l1, l3.
Qed.

Lemma wlocal_done cfg cs w' : wlocal cfg W_Done cs w' -> cs = [] /\ w' = W_Done.
Proof. by inversion 1. Qed.

Lemma tryMake_calls env i ps :
  Forall (fun c => is_dir_call c = true) (snd (tryMake env i ps)).
Proof.
  induction ps as [|p ps IH]; simpl; [constructor|].
  destruct (makeOK env i p).
  - destruct (tryMake env i ps) as [ok evs]. simpl in *. by constructor.
  - simpl. by repeat constructor.
Qed.

Lemma makeDirLoop_calls fuel env ps i :
  Forall (fun c => is_dir_call c = true) (snd (makeDirLoop fuel env ps i)).
Proof.
  revert i. induction fuel as [|fuel IH]; intros i; simpl; [constructor|].
  destruct (i <? maxTries); [|constructor].
  pose proof (tryMake_calls env i ps) as Ht.
  destruct (tryMake env i ps) as [ok evs]. simpl in Ht.
  destruct ok; [by constructor|].
  destruct (i =? maxTries - 1); [by constructor|].
  specialize (IH (i + 1)).
  destruct (makeDirLoop fuel env ps (i + 1)) as [r evs']. simpl in *.
  constructor; [done|]. apply Forall_app. split; [done|]. by constructor.
Qed.

Lemma load_calls cfg env lastNetName m :
  Forall (fun c => is_load_call c = true)
         (snd (loadLatestNeuralNetIntoManager cfg env lastNetName m)).
Proof.
  unfold loadLatestNeuralNetIntoManager.
  destruct (findLatestModel env) as [name|]; [|constructor].
  destruct (sameName lastNetName name); [constructor|].
  pose proof (makeDirLoop_calls (Z.to_nat maxTries) env (modelDirs cfg name) 0) as Hl.
  destruct (makeDirLoop _ _ _ _) as [r evs]. simpl in Hl.
  assert (Hl' : Forall (fun c => is_load_call c = true) evs).
  { eapply Forall_impl; [exact Hl|]. simpl. intros c Hc. by destruct c. }
  destruct r; simpl; constructor; try done;
    apply Forall_app; split; try done; by repeat constructor.
Qed.

Lemma no_such_call (t : tid) (cs : list call) pre post c :
  Forall (fun c' => c' <> c) cs -> (pair t <$> cs) = pre ++ (t, c) :: post -> False.
Proof.
  intros Hall Heq.
  apply fmap_app_inv in Heq as (l1 & l2 & _ & Hl2 & ->).
  symmetry in Hl2. apply fmap_cons_inv in Hl2 as (c' & l3 & Hcc & _ & ->).
  injection Hcc as <-.
  apply Forall_app in Hall as [_ Hall]. by apply Forall_cons in Hall as [Hc _].
Qed.

Lemma mainInv_start cfg env : mainInv (selfplay_startup cfg env).
Proof.
  unfold selfplay_startup.
  pose proof (load_calls cfg env None []) as Hcalls.
  destruct (loadLatestNeuralNetIntoManager cfg env None []) as [[ok m] evs].
  simpl in Hcalls.
  assert (Hno : forall c, is_load_call c = false -> c <> CThrow ->
                          Forall (fun c' => c' <> c) (evs ++ [CThrow])).
  { intros c Hc Hthrow. apply Forall_app. split.
    - eapply Forall_impl; [exact Hcalls|]. simpl. intros c' Hc' ->. congruence.
    - constructor; [congruence|constructor]. }
  assert (Hno' : forall c, is_load_call c = false -> Forall (fun c' => c' <> c) evs).
  { intros c Hc. eapply Forall_impl; [exact Hcalls|]. simpl. intros c' Hc' ->. congruence. }
  destruct ok.
  - split_and!; try done.
    + intros pre post Heq. exfalso. by eapply (no_such_call TMain evs), Heq; apply Hno'.
    + intros pre post Heq. exfalso. by eapply (no_such_call TMain evs), Heq; apply Hno'.
  - assert (Htr : forall c pre post, is_load_call c = false -> c <> CThrow ->
              (pair TMain <$> evs) ++ [(TMain, CThrow)] = pre ++ (TMain, c) :: post -> False).
    { intros c pre post Hc Hthrow Heq.
      eapply (no_such_call TMain (evs ++ [CThrow])); [by apply Hno|].
      rewrite fmap_app. exact Heq. }
    split_and!; try done.
    + intros pre post Heq. exfalso. by eapply Htr, Heq.
    + intros pre post Heq. exfalso. by eapply Htr, Heq.
Qed.

Lemma mainInv_other s s' t cs :
  mainInv s -> t <> TMain ->
  mainT s' = mainT s ->
  (shouldStop s = true -> shouldStop s' = true) ->
  trace s' = trace s ++ (pair t <$> cs) ->
  (forall j w', game s' !! j = Some w' ->
                exists w, game s !! j = Some w /\ (w = W_Done -> w' = W_Done)) ->
  (alldone (game s) -> forall k, calls_of (TWorker k) (pair t <$> cs) = []) ->
  (poll s = P_Done -> poll s' = P_Done) ->
  mainInv s'.
Proof.
  intros (Hst & Hstore & Hnotify & Hps & Hpn & Hexit) Ht Hm Hstop Htr Hg Hcalls Hpoll.
  unfold mainInv. rewrite Hm, Htr.
  assert (Hdone : alldone (game s) -> alldone (game s')).
  { intros Ha j w' Hj. destruct (Hg j w' Hj) as (w & Hw & Himp). apply Himp. by eapply Ha. }
  split_and!.
  - destruct (mainT s); try done.
    + intros j w' Hji Hj. destruct (Hg j w' Hj) as (w & Hw & Himp).
      apply Himp. by eapply Hst.
    + by apply Hdone.
    + destruct Hst. split; [by apply Hdone|by apply Hstop].
    + destruct Hst. split; [by apply Hdone|by apply Hstop].
    + destruct Hst. split; [by apply Hdone|by apply Hstop].
    + destruct Hst. split; [by apply Hdone|by apply Hstop].
  - intros pre post Heq.
    apply trace_split in Heq as [(post0 & Heq & ->)|(c & _ & _ & Hc & _ & _)];
      [|congruence].
    destruct (Hstore _ _ Heq) as [Hpast Hw]. split; [done|].
    intros k. rewrite calls_of_app, Hw. simpl. apply Hcalls.
    destruct (mainT s); try done; by destruct Hst.
  - intros pre post Heq.
    apply trace_split in Heq as [(post0 & Heq & ->)|(c & _ & _ & Hc & _ & _)];
      [|congruence].
    by destruct (Hnotify _ _ Heq).
  - intros Hp. apply elem_of_app. left. by apply Hps.
  - intros Hp. apply elem_of_app. left. by apply Hpn.
  - intros He. apply Hpoll. by apply Hexit.
Qed.

Lemma poller_done cfg env s : poll s = P_Done -> modelLoadLoop_step cfg env s = s.
Proof. intros H. unfold modelLoadLoop_step. by rewrite H. Qed.

Lemma mainInv_step cfg a s : mainInv s -> mainInv (step cfg a s).
Proof.
  intros HI. unfold step. destruct (fatal s); [done|].
  destruct a as [|k c|env|].
  - apply (mainInv_other s _ TPoller []); try done.
    + simpl. by rewrite app_nil_r.
    + intros j w' Hj. by exists w'.
  - destruct (game s !! k) as [w|] eqn:Hk; [|unfold gameLoop_step; by rewrite Hk].
    destruct (gameLoop_step_local cfg k c s w Hk) as (w' & cs & Hloc & Hg & Ht).
    destruct (gameLoop_step_frame cfg k c s) as (Hp & Hm & Hs & _).
    apply (mainInv_other s _ (TWorker k) cs); try done.
    + by rewrite Hs.
    + intros j w0 Hj. rewrite Hg in Hj.
      destruct (decide (j = k)) as [->|Hne].
      * rewrite list_lookup_insert_eq in Hj by (by apply lookup_lt_Some in Hk).
        injection Hj as <-. exists w. split; [done|]. intros ->.
        by apply wlocal_done in Hloc as [_ ->].
      * rewrite list_lookup_insert_ne in Hj by done. by exists w0.
    + intros Ha k'. rewrite (Ha k w Hk) in Hloc.
      apply wlocal_done in Hloc as [-> _]. done.
    + by rewrite Hp.
  - destruct (modelLoadLoop_step_frame cfg env s) as (Hg & Hm & _ & Hs & _ & cs & Ht).
    apply (mainInv_other s _ TPoller cs); try done.
    + by rewrite Hs.
    + intros j w' Hj. rewrite Hg in Hj. by exists w'.
    + intros _ k. by apply calls_of_other.
    + intros Hp. by rewrite poller_done.
  - destruct HI as (Hst & Hstore & Hnotify & Hps & Hpn & Hexit).
    unfold selfplay_step. destruct (mainT s) as [| |i| | | | |] eqn:Hm.
    + unfold mainInv. by rewrite Hm.
    + unfold mainInv. simpl. split_and!; try done; intros; lia.
    + destruct (Nat.ltb_spec i (length (game s))) as [Hlt|Hge].
      * destruct (game s !! i) as [w|] eqn:Hi; [|unfold mainInv; by rewrite Hm].
        destruct w; try (unfold mainInv; by rewrite Hm).
        unfold mainInv. simpl. split_and!; try done.
        intros j w Hj Hjw. destruct (decide (j = i)) as [->|Hne]; [congruence|].
        apply (Hst j w); [lia|done].
      * unfold mainInv. simpl. split_and!; try done.
        intros j w Hj. apply (Hst j w); [|done]. apply lookup_lt_Some in Hj. lia.
    + unfold mainInv. simpl. split_and!; try done.
      * intros pre post Heq.
        apply (trace_split _ TMain [CStoreStop]) in Heq
          as [(post0 & Heq & ->)|(c & pre1 & post1 & Hc & Hcs & -> & ->)].
        -- by destruct (Hstore _ _ Heq).
        -- apply single_split in Hcs as (-> & -> & ->). done.
      * intros pre post Heq.
        apply (trace_split _ TMain [CStoreStop]) in Heq
          as [(post0 & Heq & ->)|(c & pre1 & post1 & Hc & Hcs & -> & ->)].
        -- by destruct (Hnotify _ _ Heq).
        -- apply single_split in Hcs as (-> & -> & ->). done.
      * intros _. apply elem_of_app. right. by apply list_elem_of_singleton.
    + unfold mainInv. simpl. destruct Hst. split_and!; try done.
    + unfold mainInv. simpl. destruct Hst. split_and!; try done.
      * intros pre post Heq.
        apply (trace_split _ TMain [CNotifyAll]) in Heq
          as [(post0 & Heq & ->)|(c & pre1 & post1 & Hc & Hcs & -> & ->)].
        -- destruct (Hstore _ _ Heq) as [_ Hw]. split; [done|].
           intros k. rewrite calls_of_app, Hw. by apply calls_of_other.
        -- apply single_split in Hcs as (-> & -> & ->). done.
      * intros pre post Heq.
        apply (trace_split _ TMain [CNotifyAll]) in Heq
          as [(post0 & Heq & ->)|(c & pre1 & post1 & Hc & Hcs & -> & ->)].
        -- by destruct (Hnotify _ _ Heq).
        -- apply single_split in Hcs as (-> & -> & ->).
           split; [done|]. simpl. rewrite app_nil_r. by apply Hps.
      * intros _. apply elem_of_app. left. by apply Hps.
      * intros _. apply elem_of_app. right. by apply list_elem_of_singleton.
    + destruct (poll s) eqn:Hp; try (unfold mainInv; by rewrite Hm).
      unfold mainInv. simpl. destruct Hst. split_and!; try done.
    + unfold mainInv. by rewrite Hm.
Qed.

Lemma reachable_mainInv cfg s : reachable cfg s -> mainInv s.
Proof.
  induction 1 as [env|s a Hreach IH Hadm].
  - apply mainInv_start.
  - by apply mainInv_step.
Qed.

Lemma stopped_reachable : reachable cfg1 stopped.
Proof. apply run_reachable; [apply atCeiling_reachable|reflexivity]. Defined.

Example stopped_state :
  mainT stopped = M_Exit /\ poll stopped = P_Done /\ game stopped = [W_Done] /\
  calls_of TMain (trace stopped) =
    [CInitNNEval "m0" 20; CTryMakeDirs 0; CMakeDir "out/m0" true;
     CMakeDir "out/m0/sgfs" true; CMakeDir "out/m0/tdata" true;
     CMakeDir "out/m0/vdata" true; CLoadModel "m0"; CStoreStop; CNotifyAll].
Proof. repeat split; reflexivity. Qed.

Lemma join_blocked_step cfg a s : join_blocked s -> join_blocked (step cfg a s).
Proof.
  intros (Hm & Hmx & Hp). unfold step. destruct (fatal s); [done|].
  destruct a as [|k c|env|].
  - done.
  - destruct (gameLoop_step_frame cfg k c s) as (Hp' & Hm' & _ & Hmx').
    unfold join_blocked. by rewrite Hp', Hm', Hmx'.
  - unfold modelLoadLoop_step. destruct Hp as [Hp|Hp]; rewrite Hp, Hmx;
      (split; [done|split; [done|auto]]).
  - unfold selfplay_step. rewrite Hm. destruct Hp as [Hp|Hp]; rewrite Hp;
      (split; [done|split; [done|auto]]).
Qed.

Lemma join_blocked_forever cfg acts s :
  join_blocked s -> join_blocked (run cfg acts s).
Proof.
  revert s. induction acts as [|a acts IH]; intros s Hs; [done|].
  simpl. apply IH. by apply join_blocked_step.
Qed.

Remark join_blocked_reachable :
  reachable cfg1 (run cfg1 hungRun atCeiling) /\
  join_blocked (run cfg1 hungRun atCeiling) /\
  forall acts, poll (run cfg1 acts (run cfg1 hungRun atCeiling)) <> P_Done.
Proof.
  split; [apply run_reachable; [apply atCeiling_reachable|reflexivity]|].
  assert (Hb : join_blocked (run cfg1 hungRun atCeiling)).
  { split; [reflexivity|]. split; [reflexivity|]. right. reflexivity. }
  split; [exact Hb|]. intros acts.
  destruct (join_blocked_forever cfg1 acts _ Hb) as (_ & _ & [Hp|Hp]); by rewrite Hp.
Qed.

(** ** The concurrency budget (C9) *)

Lemma wrap_signed_congr bits x y :
  x mod 2 ^ bits = y mod 2 ^ bits -> wrap_signed bits x = wrap_signed bits y.
Proof.
  intros H. unfold wrap_signed. f_equal.
  rewrite (Zplus_mod x), H, <- Zplus_mod. done.
Qed.

Lemma maxConcurrentEvals_wrap cfg :
  maxConcurrentEvals cfg =
  wrap_signed 32 (numSearchThreads cfg * numGameThreads cfg * 2 + 16).
Proof.
  unfold maxConcurrentEvals, int_add, int_mul.
  apply wrap_signed_congr.
  assert (H : (wrap_signed 32 (numSearchThreads cfg * numGameThreads cfg) * 2) mod 2 ^ 32
              = (numSearchThreads cfg * numGameThreads cfg * 2) mod 2 ^ 32).
  { rewrite Zmult_mod, wrap_signed_mod by lia. by rewrite <- Zmult_mod. }
  rewrite Zplus_mod, wrap_signed_mod, H by lia. by rewrite <- Zplus_mod.
Qed.

Lemma maxConcurrentEvals_exact cfg :
  int_min <= numSearchThreads cfg * numGameThreads cfg * 2 + 16 <= int_max ->
  maxConcurrentEvals cfg = numSearchThreads cfg * numGameThreads cfg * 2 + 16.
Proof.
  unfold int_min, int_max. intros H. rewrite maxConcurrentEvals_wrap.
  apply wrap_signed_id; [lia|]. change (32 - 1) with 31. lia.
Qed.

Lemma load_first_call cfg env lastNetName m :
  fst (fst (loadLatestNeuralNetIntoManager cfg env lastNetName m)) = true ->
  exists name evs,
    findLatestModel env = Some name /\
    snd (loadLatestNeuralNetIntoManager cfg env lastNetName m)
    = CInitNNEval name (maxConcurrentEvals cfg) :: evs /\
    Forall (fun c => forall n b, c <> CInitNNEval n b) evs.
Proof.
  unfold loadLatestNeuralNetIntoManager.
  destruct (findLatestModel env) as [name|]; [|done].
  destruct (sameName lastNetName name); [done|].
  pose proof (makeDirLoop_calls (Z.to_nat maxTries) env (modelDirs cfg name) 0) as Hl.
  destruct (makeDirLoop _ _ _ _) as [r evs]. simpl in Hl.
  assert (Hl' : Forall (fun c => forall n b, c <> CInitNNEval n b) evs).
  { eapply Forall_impl; [exact Hl|]. simpl. intros c Hc n b ->. done. }
  destruct r; simpl; try done; intros _; exists name; eexists;
    (split; [done|split; [done|]]); apply Forall_app; (split; [done|]);
    by repeat constructor.
Qed.

(** With 65536 search threads and 16384 game threads the product is 2^31,
    which an [int] does not hold. *)
Lemma budget_always_exact_fails : ~ budget_always_exact.
Proof.
  intros H.
  destruct (H cfgBig (okEnv "m0") None [])
    as (name & evs & Heq).
  - unfold valid_config. simpl. lia.
  - reflexivity.
  - vm_compute in Heq. discriminate Heq.
Qed.

(** X18.  When none of the three operations of line 144 overflows, the
    budget passed to the construction of the evaluator is
    numSearchThreads * numGameThreads * 2 + 16 itself; the construction
    is the first call of a successful load, and the only one of its kind. *)
Theorem budget_exact_when_defined cfg env lastNetName m :
  budget_defined cfg = true ->
  fst (fst (loadLatestNeuralNetIntoManager cfg env lastNetName m)) = true ->
  exists name evs,
    snd (loadLatestNeuralNetIntoManager cfg env lastNetName m)
    = CInitNNEval name (numSearchThreads cfg * numGameThreads cfg * 2 + 16) :: evs /\
    Forall (fun c => forall n b, c <> CInitNNEval n b) evs.
Proof.
  intros Hdef Hok.
  destruct (load_first_call cfg env lastNetName m Hok) as (name & evs & _ & Heq & Hall).
  exists name, evs. rewrite <- maxConcurrentEvals_exact; [done|].
  revert Hdef. unfold budget_defined, in_int, int_min, int_max. lia.
Qed.

Lemma budget_exact_when_defined_witness :
  budget_defined cfg1 = true /\
  exists name evs,
    snd (loadLatestNeuralNetIntoManager cfg1 (okEnv "m0") None [])
    = CInitNNEval name (numSearchThreads cfg1 * numGameThreads cfg1 * 2 + 16) :: evs /\
    Forall (fun c => forall n b, c <> CInitNNEval n b) evs.
Proof.
  split; [reflexivity|].
  apply (budget_exact_when_defined cfg1 (okEnv "m0") None []); reflexivity.
Defined.

(** C9, at the failing input.  With 65536 search threads and 16384 game
    threads, values that this file accepts, the second multiplication of
    line 144 has the exact result 2^31, which is outside the range of
    [int]: the expression overflows, and the budget that the load passes
    to the construction of the evaluator is the negative number left by
    the wrap-around, not the 2147483664 of the formula. *)
Theorem budget_overflows :
  valid_config cfgBig /\
  in_int (numSearchThreads cfgBig * numGameThreads cfgBig) = true /\
  in_int (numSearchThreads cfgBig * numGameThreads cfgBig * 2) = false /\
  numSearchThreads cfgBig * numGameThreads cfgBig * 2 + 16 = 2147483664 /\
  maxConcurrentEvals cfgBig = -2147483632 /\
  fst (fst (loadLatestNeuralNetIntoManager cfgBig (okEnv "m0") None [])) = true /\
  snd (loadLatestNeuralNetIntoManager cfgBig (okEnv "m0") None []) !! 0%nat
    = Some (CInitNNEval "m0" (-2147483632)).
Proof.
  split; [unfold valid_config, cfgBig; simpl; lia|]. repeat split; reflexivity.
Qed.

(** ** Creating the output directories (C7) *)


Lemma tryMake_counts env i ps :
  count_calls is_try (snd (tryMake env i ps)) = 0%nat /\
  count_calls is_sleep (snd (tryMake env i ps)) = 0%nat /\
  Forall (sleep_ok env) (snd (tryMake env i ps)).
Proof.
  induction ps as [|p ps (IH1 & IH2 & IH3)]; simpl; [by repeat constructor|].
  destruct (makeOK env i p).
  - destruct (tryMake env i ps) as [ok evs]. simpl in *.
    split; [done|]. split; [done|]. by constructor.
  - simpl. split; [done|]. split; [done|]. by repeat constructor.
Qed.

Lemma makeDirLoop_spec env ps fuel i :
  0 <= i < maxTries -> (Z.to_nat (maxTries - i) <= fuel)%nat ->
  let res := makeDirLoop fuel env ps i in
  (fst res = LoopBreak \/ fst res = LoopReturnFalse) /\
  Z.of_nat (count_calls is_try (snd res)) <= maxTries - i /\
  count_calls is_try (snd res) = S (count_calls is_sleep (snd res)) /\
  Forall (sleep_ok env) (snd res) /\
  (fst res = LoopReturnFalse <->
   forall j, i <= j < maxTries -> fst (tryMake env j ps) = false) /\
  (fst res = LoopReturnFalse ->
   Z.of_nat (count_calls is_try (snd res)) = maxTries - i).
Proof.
  revert i. induction fuel as [|fuel IH]; intros i Hi Hfuel; [lia|].
  simpl. destruct (Z.ltb_spec i maxTries) as [_|]; [|lia].
  destruct (tryMake_counts env i ps) as (Ht & Hs & Hok).
  destruct (tryMake env i ps) as [success evs] eqn:Htry. simpl in Ht, Hs, Hok.
  destruct success.
  - simpl. rewrite Ht, Hs. split_and!; try (by auto); try lia.
    + by constructor.
    + split; [done|]. intros Hall. specialize (Hall i). rewrite Htry in Hall.
      simpl in Hall. discriminate Hall. lia.
  - destruct (Z.eqb_spec i (maxTries - 1)) as [Hlast|Hnot].
    + simpl. rewrite Ht, Hs. split_and!; try (by auto); try lia.
      * by constructor.
      * split; [|done]. intros _ j Hj. assert (j = i) as -> by lia. by rewrite Htry.
    + specialize (IH (i + 1)). 
      destruct (makeDirLoop fuel env ps (i + 1)) as [r evs'] eqn:Hloop.
      destruct IH as (Hr & Hle & Heq & Hsl & Hiff & Hfull); [lia|lia|].
      simpl in *. rewrite !count_calls_app. simpl. rewrite Ht, Hs.
      split_and!; try done; try lia.
      * constructor; [done|]. apply Forall_app. split; [done|].
        constructor; [|done]. exists i. split; [lia|done].
      * rewrite Hiff. split.
        -- intros Hall j Hj. destruct (decide (j = i)) as [->|Hne].
           ++ by rewrite Htry.
           ++ apply Hall. lia.
        -- intros Hall j Hj. apply Hall. lia.
      * intros Hrf. specialize (Hfull Hrf). lia.
Qed.


Lemma load_all_fail cfg env lastNetName m name :
  findLatestModel env = Some name -> sameName lastNetName name = false ->
  (forall j, 0 <= j < maxTries -> fst (tryMake env j (modelDirs cfg name)) = false) ->
  let res := loadLatestNeuralNetIntoManager cfg env lastNetName m in
  fst (fst res) = false /\ snd (fst res) = m /\
  count_calls is_try (snd res) = 5%nat /\ count_calls is_sleep (snd res) = 4%nat.
Proof.
  intros Hfind Hsame Hall. unfold loadLatestNeuralNetIntoManager.
  rewrite Hfind, Hsame.
  destruct (makeDirLoop_spec env (modelDirs cfg name) (Z.to_nat maxTries) 0)
    as (_ & _ & Heq & _ & Hiff & Hfull); [unfold maxTries; lia..|].
  destruct (makeDirLoop _ _ _ _) as [r evs]. simpl in *.
  assert (Hr : r = LoopReturnFalse) by (apply Hiff; intros j Hj; by apply Hall).
  subst r. specialize (Hfull eq_refl). simpl.
  unfold maxTries in Hfull. split_and!; try done; lia.
Qed.







(** The sleep of line 185 for three draws: ten seconds for zero, thirteen
    for the [double] nearest to one tenth, and forty, the sum being
    rounded up, for the largest [double] below one. *)
Example sleepTime_values :
  sleepTime (S754_zero false) = double_10 /\
  sleepTime double_tenth = S754_finite false 7318349394477056 (-49) /\
  sleepTime double_below_1 = S754_finite false 5629499534213120 (-47).
Proof. repeat split; vm_compute; reflexivity. Qed.

(** A run of the loop in which the third attempt succeeds: two failed
    attempts, each stopped at its first directory and followed by a sleep
    of 25 seconds, and then the four directories. *)
Example attempts_third_succeeds :
  snd (makeDirLoop 5 (mkLoadEnv (Some "m1"%string) (fun i _ => 2 <=? i)
                        (fun _ => double_half))
         (modelDirs cfg1 "m1") 0)
  = [ CTryMakeDirs 0; CMakeDir "out/m1" false;
      CSleep (S754_finite false 7036874417766400 (-48));
      CTryMakeDirs 1; CMakeDir "out/m1" false;
      CSleep (S754_finite false 7036874417766400 (-48));
      CTryMakeDirs 2; CMakeDir "out/m1" true; CMakeDir "out/m1/sgfs" true;
      CMakeDir "out/m1/tdata" true; CMakeDir "out/m1/vdata" true ]%string.
Proof. vm_compute. reflexivity. Qed.

(** ** Failure of the first load, and of a later one (C8) *)

Lemma load_fails_false cfg env lastNetName m :
  load_fails cfg env ->
  fst (fst (loadLatestNeuralNetIntoManager cfg env lastNetName m)) = false /\
  snd (fst (loadLatestNeuralNetIntoManager cfg env lastNetName m)) = m.
Proof.
  intros [Hnone|(name & Hfind & Hall)].
  - unfold loadLatestNeuralNetIntoManager. by rewrite Hnone.
  - destruct (sameName lastNetName name) eqn:Hsame.
    + unfold loadLatestNeuralNetIntoManager. by rewrite Hfind, Hsame.
    + by destruct (load_all_fail cfg env lastNetName m name Hfind Hsame Hall) as (? & ? & _).
Qed.

Lemma run_fatal cfg acts s : fatal s = true -> run cfg acts s = s.
Proof.
  intros Hf. induction acts as [|a acts IH]; [done|].
  simpl. assert (Hs : step cfg a s = s) by (unfold step; by rewrite Hf).
  rewrite Hs. exact IH.
Qed.

(** C8.  When the load at start-up fails the program throws: the process
    is ended with no game thread and no polling thread started, and
    nothing runs afterwards.  When a load fails on a poll cycle the
    process is not ended; the polling thread goes on to its second test
    of the flag, sleeps, and comes back to the load with the same latest
    name. *)
Theorem startup_failure_fatal cfg env :
  (load_fails cfg env ->
   let s0 := selfplay_startup cfg env in
   fatal s0 = true /\ mainT s0 = M_Threw /\ game s0 = [] /\ poll s0 = P_NotStarted /\
   last (trace s0) = Some (TMain, CThrow) /\
   (forall k, calls_of (TWorker k) (trace s0) = []) /\
   forall acts, run cfg acts s0 = s0) /\
  (forall s lastNetName,
     load_fails cfg env ->
     fatal s = false -> poll s = P_Load lastNetName ->
     shouldStop s = false -> mutexHeld s = false ->
     let s' := step cfg (APoller env) s in
     fatal s' = false /\ poll s' = P_Check2 /\
     manager s' = manager s /\ game s' = game s /\
     forall e1 e2 e3 e4 e5,
       poll (run cfg [APoller e1; APoller e2; APoller e3; APoller e4; APoller e5] s')
       = P_Load (getLatestModelName (manager s))).
Proof.
  split.
  - intros Hfail s0. subst s0.
    destruct (load_fails_false cfg env None [] Hfail) as [Hok Hm].
    unfold selfplay_startup.
    destruct (loadLatestNeuralNetIntoManager cfg env None []) as [[ok m] evs].
    simpl in Hok, Hm. subst ok m.
    split_and!; try done.
    + simpl. by rewrite last_snoc.
    + intros k. simpl. rewrite calls_of_app, !calls_of_other; done.
    + intros acts. by apply run_fatal.
  - intros s lastNetName Hfail Hf Hp Hs Hmx s'. subst s'.
    destruct (load_fails_false cfg env (Some lastNetName) (manager s) Hfail) as [Hok Hm].
    assert (Hs' : exists evs, step cfg (APoller env) s =
              emits TPoller evs (set_poll P_Check2 (set_manager (manager s) s))).
    { unfold step, modelLoadLoop_step. rewrite Hf, Hp.
      destruct (loadLatestNeuralNetIntoManager cfg env (Some lastNetName) (manager s))
        as [[ok m] evs]. simpl in Hok, Hm. subst ok m. by exists evs. }
    destruct Hs' as [evs ->].
    split_and!; try done.
    intros e1 e2 e3 e4 e5. simpl.
    repeat (unfold step at 1; unfold modelLoadLoop_step at 1; simpl; rewrite ?Hf, ?Hs, ?Hmx; simpl).
    done.
Qed.

Lemma startup_failure_fatal_witness :
  load_fails cfg1 noEnv /\
  fatal (selfplay_startup cfg1 noEnv) = true /\
  mainT (selfplay_startup cfg1 noEnv) = M_Threw /\
  game (selfplay_startup cfg1 noEnv) = [].
Proof.
  assert (H : load_fails cfg1 noEnv) by (by left).
  split; [exact H|].
  destruct (proj1 (startup_failure_fatal cfg1 noEnv) H) as (H1 & H2 & H3 & _).
  split; [exact H1|]. split; [exact H2|exact H3].
Defined.

(** ** The callback (C4) *)

Lemma handle_eta h :
  mkHandle (modelName h) (refCount h) (retiring h) (destroyRuns h)
           (gamesStarted h) (pipeline h) = h.
Proof. by destruct h. Qed.

Lemma maybeDestroy_refCount h : refCount (maybeDestroy h) = refCount h.
Proof. unfold maybeDestroy. by destruct (drained h). Qed.

(** C4.  With a model on offer and the held handle [nnEval] alive: if the
    latest handle is [nnEval], the callback returns NULL, [nnEval] stays
    and the manager ends as it began; otherwise the callback returns the
    latest handle, which becomes [nnEval], the count of the latest handle
    has gone up by one, that of the handle held before has gone down by
    one, and no other handle has changed. *)
Theorem callback_effect m nnEval hl h :
  last m = Some hl -> offered hl = true ->
  m !! nnEval = Some h -> destroyed h = false ->
  (pred (length m) = nnEval ->
   checkForNewNNEval m nnEval = Some (m, nnEval, None)) /\
  (pred (length m) <> nnEval ->
   exists m',
     checkForNewNNEval m nnEval = Some (m', pred (length m), Some (pred (length m))) /\
     refCount <$> m' !! pred (length m) = Some (refCount hl + 1) /\
     refCount <$> m' !! nnEval = Some (refCount h - 1) /\
     length m' = length m /\
     forall i, i <> pred (length m) -> i <> nnEval -> m' !! i = m !! i).
Proof.
  intros Hlast Hoff Hheld Halive.
  destruct (offered_inv _ Hoff) as [Hret Hruns].
  assert (Hlat : latest m = Some (pred (length m))).
  { apply last_Some in Hlast as (m0 & ->). unfold latest.
    rewrite newestFrom_snoc by done. rewrite length_app. simpl. f_equal. lia. }
  assert (Hlook : m !! pred (length m) = Some hl) by (by rewrite <- last_lookup).
  assert (Hlt : (pred (length m) < length m)%nat) by (by apply lookup_lt_Some in Hlook).
  unfold checkForNewNNEval, acquireLatest. rewrite Hlat, Hlook.
  unfold checkForNewNNEval_finish. split.
  - intros Heq. rewrite Heq in *. rewrite Nat.eqb_refl. unfold release.
    rewrite list_lookup_insert_eq by done.
    assert (Hd : destroyed (incRef hl) = false).
    { unfold destroyed. simpl. by rewrite Hruns. }
    rewrite Hd. rewrite list_insert_insert_eq.
    assert (Hback : maybeDestroy (decRef (incRef hl)) = hl).
    { unfold maybeDestroy, drained. simpl. rewrite Hret. simpl.
      unfold decRef, incRef. simpl.
      replace (refCount hl + 1 - 1) with (refCount hl) by lia. apply handle_eta. }
    rewrite Hback, list_insert_id by done. done.
  - intros Hne.
    destruct (Nat.eqb_spec (pred (length m)) nnEval) as [|_]; [done|].
    unfold release. rewrite list_lookup_insert_ne by done. rewrite Hheld, Halive.
    eexists. split; [done|]. split_and!.
    + rewrite list_lookup_insert_ne by done.
      rewrite list_lookup_insert_eq by done. done.
    + rewrite list_lookup_insert_eq.
      * simpl. by rewrite maybeDestroy_refCount.
      * rewrite length_insert. by apply lookup_lt_Some in Hheld.
    + by rewrite !length_insert.
    + intros i Hi1 Hi2. by rewrite !list_lookup_insert_ne.
Qed.

Lemma callback_effect_witness :
  last beforeCallback = Some (mkHandle "m1" 0 false 0 0 []) /\
  beforeCallback !! 0%nat = Some (mkHandle "m0" 1 true 0 1 []) /\
  (1%nat <> 0%nat ->
   exists m',
     checkForNewNNEval beforeCallback 0 = Some (m', 1%nat, Some 1%nat) /\
     refCount <$> m' !! 1%nat = Some (0 + 1) /\
     refCount <$> m' !! 0%nat = Some (1 - 1) /\
     length m' = 2%nat /\
     forall i, i <> 1%nat -> i <> 0%nat -> m' !! i = beforeCallback !! i).
Proof.
  split; [reflexivity|]. split; [reflexivity|].
  apply (callback_effect beforeCallback 0%nat (mkHandle "m1" 0 false 0 0 [])
           (mkHandle "m0" 1 true 0 1 [])); reflexivity.
Defined.

(** The superseded handle loses its last reference in the callback and is
    destroyed there. *)
Example callback_swap :
  checkForNewNNEval beforeCallback 0 =
  Some ([mkHandle "m0" 0 true 1 1 []; mkHandle "m1" 1 false 0 0 []], 1%nat, Some 1%nat).
Proof. reflexivity. Qed.

(** ** The last sweep of the polling thread (C2) *)

(** The newest handle is never scheduled for cleanup, by any sweep. *)
Lemma newest_stays_on_offer cfg s :
  reachable cfg s -> mainT s <> M_Threw ->
  exists hl, last (manager s) = Some hl /\ retiring hl = false /\ destroyRuns hl = 0%nat.
Proof.
  intros Hreach Hm. apply reachable_Inv in Hreach as [(HT & _)|HG]; [done|].
  destruct HG as (_ & ((hl & Hlast & Hoff) & _) & _).
  exists hl. split; [done|]. by apply offered_inv.
Qed.

(** C2, at the failing input.  The last sweep is made over the names m0
    and m1 and calls scheduleCleanupModelWhenFree for m0 alone: when the
    polling thread has finished, the newest model m1 is not retiring and
    its pipeline has not been closed. *)
Theorem final_sweep_skips_newest :
  poll signalled = P_Done /\
  modelNames (manager signalled) = ["m0"; "m1"]%string /\
  filter (fun c => is_schedule c = true) (calls_of TPoller (trace signalled))
    = [CSchedule "m0"; CSchedule "m0"] /\
  (fun h => (modelName h, retiring h, destroyRuns h)) <$> manager signalled
    = [("m0", true, 0%nat); ("m1", false, 0%nat)]%string.
Proof. repeat split; reflexivity. Qed.

(** ** What the last sweep has left to do *)

Lemma view_insert (m : Manager) i h h' :
  m !! i = Some h -> modelName h' = modelName h -> retiring h' = retiring h ->
  view (<[i := h']> m) = view m.
Proof.
  intros Hi Hn Hr. unfold view. rewrite list_fmap_insert, Hn, Hr.
  apply list_insert_id. by rewrite list_lookup_fmap, Hi.
Qed.

Lemma maybeDestroy_retiring h : retiring (maybeDestroy h) = retiring h.
Proof. unfold maybeDestroy. by destruct (drained h). Qed.

Lemma view_acquire m h m' : acquireLatest m = Some (h, m') -> view m' = view m.
Proof.
  unfold acquireLatest. destruct (latest m) as [i|]; [|done].
  destruct (m !! i) as [hi|] eqn:Hi; [|done]. intros [= <- <-].
  by apply (view_insert m i hi).
Qed.

Lemma view_release m i m' : release m i = Some m' -> view m' = view m.
Proof.
  unfold release. destruct (m !! i) as [hi|] eqn:Hi; [|done].
  destruct (destroyed hi); [done|]. intros [= <-].
  apply (view_insert m i hi); [done|..].
  - by rewrite maybeDestroy_name.
  - by rewrite maybeDestroy_retiring.
Qed.

Lemma view_worker cfg k c s :
  view (manager (gameLoop_step cfg k c s)) = view (manager s).
Proof.
  unfold gameLoop_step. destruct (game s !! k) as [w|]; [|done].
  destruct w as [| |h|h idx|h idx|h idx|h h' idx|h gd|h sc|].
  - by destruct (shouldStop s).
  - destruct (acquireLatest (manager s)) as [[h m]|] eqn:Ha; [|done].
    simpl. by eapply view_acquire.
  - done.
  - simpl. unfold countOneGameStarted.
    destruct (manager s !! h) as [hh|] eqn:Hh; [|done]. by apply (view_insert _ h hh).
  - by destruct (idx <? maxGamesTotal cfg).
  - destruct c; [|done]. destruct (switchNetsMidGame cfg); [|done].
    destruct (acquireLatest (manager s)) as [[h' m]|] eqn:Ha; [|done].
    simpl. by eapply view_acquire.
  - unfold checkForNewNNEval_finish. destruct (Nat.eqb h' h).
    + destruct (release (manager s) h') as [m|] eqn:Hr; [|done].
      simpl. by eapply view_release.
    + destruct (release (manager s) h) as [m|] eqn:Hr; [|done].
      simpl. by eapply view_release.
  - destruct gd as [g|]; [|done]. simpl. unfold enqueueDataToWrite.
    destruct (manager s !! h) as [hh|] eqn:Hh; [|done]. by apply (view_insert _ h hh).
  - destruct (release (manager s) h) as [m|] eqn:Hr; [|done].
    simpl. by eapply view_release.
  - done.
Qed.

Lemma length_view m : length (view m) = length m.
Proof. unfold view. by rewrite length_fmap. Qed.

Lemma oldestFrom_None P i (m : list Handle) :
  oldestFrom P i m = None -> forall k h, m !! k = Some h -> P h = false.
Proof.
  revert i. induction m as [|a m IH]; intros i; simpl; [done|].
  destruct (P a) eqn:HP; [done|]. intros H [|k] h Hk; simpl in Hk.
  - by injection Hk as <-.
  - by eapply IH.
Qed.

Lemma live_unretired h c :
  handleOK h c -> retiring h = false -> destroyed h = false.
Proof.
  intros [_ Hd] Hr. unfold destroyed. rewrite Hd. unfold drained. by rewrite Hr.
Qed.

Lemma schedule_marks m cnt n k nm :
  MgrOK m cnt ->
  view (scheduleCleanupModelWhenFree m n) !! k = Some (nm, false) ->
  view m !! k = Some (nm, false) /\ nm <> n.
Proof.
  intros (_ & Hh & Hnd). unfold scheduleCleanupModelWhenFree.
  assert (Hnamed : forall h, view m !! k = Some (nm, false) -> m !! k = Some h ->
                             nm = n -> named n h = true).
  { intros h Hv Hk ->. unfold view in Hv. rewrite list_lookup_fmap, Hk in Hv.
    injection Hv as Hn Hr. specialize (Hh k). rewrite Hk in Hh.
    unfold named. rewrite (live_unretired h _ Hh Hr). simpl.
    by apply String.eqb_eq. }
  destruct (oldestFrom (named n) 0 m) as [i|] eqn:Hold.
  - apply oldestFrom_Some in Hold as (_ & hi & Hi & Hni).
    rewrite Nat.sub_0_r in Hi. rewrite Hi. intros Hv.
    destruct (decide (k = i)) as [->|Hne].
    + unfold view in Hv.
      rewrite list_lookup_fmap, list_lookup_insert_eq in Hv
        by (by apply lookup_lt_Some in Hi).
      simpl in Hv. rewrite maybeDestroy_retiring in Hv. simpl in Hv. discriminate Hv.
    + unfold view in Hv. rewrite list_lookup_fmap, list_lookup_insert_ne in Hv by done.
      rewrite <- list_lookup_fmap in Hv. split; [exact Hv|].
      intros ->. apply Hne.
      unfold named in Hni. apply andb_true_iff in Hni as [_ Hni].
      apply String.eqb_eq in Hni.
      apply (NoDup_lookup (modelName <$> m) k i n Hnd).
      * rewrite list_lookup_fmap in Hv. rewrite list_lookup_fmap.
        destruct (m !! k) as [hk|]; [|done]. simpl in *. by injection Hv as -> _.
      * by rewrite list_lookup_fmap, Hi, <- Hni.
  - intros Hv. split; [done|]. intros ->.
    pose proof Hv as Hv'. unfold view in Hv'. rewrite list_lookup_fmap in Hv'.
    destruct (m !! k) as [h|] eqn:Hk; [|done].
    pose proof (oldestFrom_None _ _ _ Hold k h Hk) as Hno.
    rewrite (Hnamed h Hv eq_refl eq_refl) in Hno. discriminate Hno.
Qed.

Lemma spawn_not_started cfg s :
  reachable cfg s -> mainT s = M_Spawn -> poll s = P_NotStarted.
Proof.
  induction 1 as [env|s a Hreach IH Hadm].
  - unfold selfplay_startup.
    destruct (loadLatestNeuralNetIntoManager cfg env None []) as [[[] m] evs]; done.
  - unfold step. destruct (fatal s); [done|]. destruct a as [|k c|env|].
    + done.
    + destruct (gameLoop_step_frame cfg k c s) as (Hp & Hm & _). by rewrite Hp, Hm.
    + destruct (modelLoadLoop_step_frame cfg env s) as (_ & Hm & _). rewrite Hm.
      intros HS. specialize (IH HS). unfold modelLoadLoop_step. by rewrite IH.
    + destruct (selfplay_step_cases cfg s) as [[Hm ->]|(_ & Hm & _)]; done.
Qed.

Lemma sweepInv_transfer s s' :
  poll s' = poll s -> view (manager s') = view (manager s) ->
  sweepInv s -> sweepInv s'.
Proof.
  intros Hp Hv. unfold sweepInv, olderRetired. rewrite Hp, Hv.
  assert (Hlen : length (manager s') = length (manager s)).
  { by rewrite <- !length_view, Hv. }
  by rewrite Hlen.
Qed.

Lemma length_schedule m n : length (scheduleCleanupModelWhenFree m n) = length m.
Proof.
  unfold scheduleCleanupModelWhenFree. repeat case_match; try done.
  by rewrite length_insert.
Qed.

Lemma snapshot_covers m cnt k nm :
  MgrOK m cnt -> (k + 1 < length m)%nat -> view m !! k = Some (nm, false) ->
  exists j, (j + 1 < length (modelNames m))%nat /\ modelNames m !! j = Some nm.
Proof.
  intros ((hl & Hlast & Hoff) & Hh & _) Hk Hv.
  destruct (offered_inv _ Hoff) as [_ Hd0].
  apply last_Some in Hlast as (m0 & ->).
  assert (Hnames : modelNames (m0 ++ [hl]) = modelNames m0 ++ [modelName hl]).
  { unfold modelNames. rewrite filter_app, fmap_app. f_equal.
    rewrite filter_cons_True; [done|]. unfold destroyed. by rewrite Hd0. }
  rewrite length_app in Hk. simpl in Hk.
  unfold view in Hv. rewrite list_lookup_fmap in Hv.
  specialize (Hh k). rewrite lookup_app_l in Hv, Hh by lia.
  destruct (m0 !! k) as [h|] eqn:Hk0; [|done].
  injection Hv as Hn Hr.
  assert (Hin : nm ∈ modelNames m0).
  { unfold modelNames. apply list_elem_of_fmap. exists h. split; [done|].
    apply list_elem_of_filter. split.
    - by apply (live_unretired h _ Hh).
    - by apply list_elem_of_lookup_2 in Hk0. }
  apply list_elem_of_lookup in Hin as (j & Hj).
  exists j. rewrite Hnames, length_app. simpl. split.
  - apply lookup_lt_Some in Hj. lia.
  - by apply lookup_app_l_Some.
Qed.

Lemma sweepInv_start cfg env : sweepInv (selfplay_startup cfg env).
Proof.
  unfold selfplay_startup.
  destruct (loadLatestNeuralNetIntoManager cfg env None []) as [[ok m] evs] eqn:Hload.
  apply load_cases in Hload as [[-> ->]|(-> & name & _ & _ & ->)];
    unfold sweepInv, olderRetired; simpl; intros; lia.
Qed.

Lemma sweepInv_step cfg a s :
  reachable cfg s -> sweepInv s -> sweepInv (step cfg a s).
Proof.
  intros Hreach HI.
  pose proof (reachable_Inv cfg s Hreach) as [(_ & Hf & _)|HG];
    [unfold step; by rewrite Hf|].
  pose proof HG as (Hf & HM & HP & _). unfold step. rewrite Hf.
  destruct a as [|k c|env|].
  - by apply (sweepInv_transfer s).
  - destruct (gameLoop_step_frame cfg k c s) as (Hp & _).
    apply (sweepInv_transfer s); [done| |done]. apply view_worker.
  - assert (Hkeep : forall p, p <> P_Snapshot -> (forall f n i, p <> P_Sweep f n i) ->
              olderRetired (manager s) -> sweepInv (set_poll p s)).
    { intros p Hp1 Hp2 Ho. unfold sweepInv. simpl. destruct p; try done.
      by destruct (Hp2 final modelNames0 i). }
    unfold modelLoadLoop_step. unfold sweepInv, pollOK in HI, HP.
    destruct (poll s) as [| | |lastNetName| |final names i| | | | |] eqn:Hpoll.
    + unfold sweepInv. by rewrite Hpoll.
    + destruct (shouldStop s); by apply Hkeep.
    + by apply Hkeep.
    + destruct (loadLatestNeuralNetIntoManager cfg env (Some lastNetName) (manager s))
        as [[ok m'] evs] eqn:Hload.
      apply load_cases in Hload as [[-> ->]|(-> & _)]; [|done].
      by apply (Hkeep P_Check2).
    + destruct (Nat.ltb 0 (length (modelNames (manager s))));
        [|unfold sweepInv; simpl; by rewrite Hpoll].
      unfold sweepInv. simpl. intros k nm Hk Hv.
      destruct (snapshot_covers _ _ k nm HM Hk Hv) as (j & Hj & Hjn).
      exists j. split; [lia|done].
    + destruct HP as (Hi & Hlen & Hnames).
      assert (Hb : sweepBound names = Z.of_nat (length names) - 1).
      { unfold sweepBound. destruct names; [simpl in Hlen; lia|done]. }
      rewrite Hb. destruct (Z.ltb_spec i (Z.of_nat (length names) - 1)) as [Hlt|Hge].
      * destruct (lookup_lt_is_Some_2 names (Z.to_nat i)) as [n Hn]; [lia|].
        rewrite Hn. unfold sweepInv. simpl. destruct final.
        -- intros k nm Hk Hv. rewrite length_schedule in Hk.
           destruct (schedule_marks _ _ n k nm HM Hv) as [Hv' _]. by apply (HI k nm).
        -- intros k nm Hk Hv. rewrite length_schedule in Hk.
           destruct (schedule_marks _ _ n k nm HM Hv) as [Hv' Hne].
           destruct (HI k nm Hk Hv') as (j & Hij & Hj & Hjn).
           exists j. split; [|done].
           destruct (decide (j = Z.to_nat i)) as [->|]; [congruence|lia].
      * destruct final; [by apply Hkeep|]. apply Hkeep; [done..|].
        intros k nm Hk Hv. destruct (HI k nm Hk Hv) as (j & Hij & Hj & _). lia.
    + destruct (shouldStop s); by apply Hkeep.
    + destruct (mutexHeld s); [unfold sweepInv; simpl; by rewrite Hpoll|].
      destruct (shouldStop s); by apply Hkeep.
    + destruct (mutexHeld s); [unfold sweepInv; simpl; by rewrite Hpoll|]. by apply Hkeep.
    + unfold sweepInv. simpl. exact HI.
    + unfold sweepInv. by rewrite Hpoll.
  - destruct (selfplay_step_cases cfg s) as [[Hm ->]|(_ & _ & _ & Hp & Hmgr & _)].
    + pose proof (spawn_not_started cfg s Hreach Hm) as Hp.
      unfold sweepInv in *. by rewrite Hp in HI.
    + apply (sweepInv_transfer s); [done| |done]. by rewrite Hmgr.
Qed.

Lemma reachable_sweepInv cfg s : reachable cfg s -> sweepInv s.
Proof.
  induction 1 as [env|s a Hreach IH Hadm].
  - apply sweepInv_start.
  - by apply sweepInv_step.
Qed.

(** When the polling thread makes its last sweep every model but the
    newest is retiring already, and a step of the sweep leaves the manager
    as it is. *)
Lemma final_sweep_idle cfg s names i env :
  reachable cfg s -> poll s = P_Sweep true names i ->
  olderRetired (manager s) /\ manager (step cfg (APoller env) s) = manager s.
Proof.
  intros Hreach Hp.
  pose proof (reachable_sweepInv cfg s Hreach) as HI.
  unfold sweepInv in HI. rewrite Hp in HI. split; [done|].
  pose proof (reachable_Inv cfg s Hreach) as [(_ & Hf & _)|HG];
    [unfold step; by rewrite Hf|].
  destruct HG as (Hf & HM & HP & _). unfold step, modelLoadLoop_step. rewrite Hf, Hp.
  unfold pollOK in HP. rewrite Hp in HP. destruct HP as (Hi & Hlen & Hnames).
  destruct (i <? sweepBound names) eqn:Hlt; [|by destruct (mainT s)].
  destruct (names !! Z.to_nat i) as [n|] eqn:Hn; [|done]. simpl.
  assert (Hb : sweepBound names = Z.of_nat (length names) - 1).
  { unfold sweepBound. destruct names; [simpl in Hlen; lia|done]. }
  rewrite Hb in Hlt. apply Z.ltb_lt in Hlt.
  assert (Hne : Some n <> modelName <$> last (manager s)).
  { apply (Hnames (Z.to_nat i)); [lia|done]. }
  unfold scheduleCleanupModelWhenFree.
  destruct (oldestFrom (named n) 0 (manager s)) as [k|] eqn:Hold; [|done].
  apply oldestFrom_Some in Hold as (_ & h & Hk & Hnamed).
  rewrite Nat.sub_0_r in Hk. rewrite Hk.
  unfold named in Hnamed. apply andb_true_iff in Hnamed as [Hlive Hname].
  apply String.eqb_eq in Hname. apply negb_true_iff in Hlive.
  assert (Hret : retiring h = true).
  { destruct (retiring h) eqn:Hr; [done|]. exfalso.
    apply (HI k n).
    - assert (k <> pred (length (manager s))).
      { intros ->. apply Hne. by rewrite last_lookup, Hk, <- Hname. }
      apply lookup_lt_Some in Hk. lia.
    - unfold view. by rewrite list_lookup_fmap, Hk, <- Hname, <- Hr. }
  destruct HM as (_ & Hh & _). specialize (Hh k). rewrite Hk in Hh.
  destruct Hh as [_ Hruns].
  assert (Hdr : drained h = false).
  { unfold destroyed in Hlive. destruct (drained h); [|done]. by rewrite Hruns in Hlive. }
  assert (Hsame : maybeDestroy (markRetiring h) = h).
  { unfold maybeDestroy. unfold drained in *. simpl. rewrite Hret in *. simpl in *.
    rewrite Hdr. unfold markRetiring. rewrite <- Hret. apply handle_eta. }
  rewrite Hsame. by apply list_insert_id.
Qed.

(** * The threads together: accounts, the end of the run, start-up and exit *)

(** One step of the main thread, program point by program point. *)
Ltac main_cases s Hm Hp :=
  unfold selfplay_step;
  destruct (mainT s) eqn:Hm;
  [ | | match goal with
        | |- context [Nat.ltb ?i ?n] =>
            destruct (Nat.ltb i n); [destruct (game s !! i) as [[]|]|]
        end
  | | | | destruct (poll s) eqn:Hp | ];
  simpl; rewrite ?Hm; try rewrite !Hp.

(** ** The mutex and the wait of the polling thread *)

Lemma mutexInv_step cfg a s : mutexInv s -> mutexInv (step cfg a s).
Proof.
  unfold mutexInv. intros HI. unfold step. destruct (fatal s); [done|].
  destruct a as [|k c|env|].
  - done.
  - destruct (gameLoop_step_frame cfg k c s) as (_ & Hm & _ & Hmx). by rewrite Hm, Hmx.
  - destruct (modelLoadLoop_step_frame cfg env s) as (_ & Hm & _ & _ & Hmx & _).
    by rewrite Hm, Hmx.
  - unfold selfplay_step. destruct (mainT s) eqn:Hm;
      repeat case_match; simpl; rewrite ?Hm; done.
Qed.

Lemma reachable_mutexInv cfg s : reachable cfg s -> mutexInv s.
Proof.
  induction 1 as [env|s a Hreach IH Hadm]; [|by apply mutexInv_step].
  unfold selfplay_startup, mutexInv.
  by destruct (loadLatestNeuralNetIntoManager cfg env None []) as [[[] m] evs].
Qed.

Lemma hung_step cfg a s :
  mutexHeld s = true -> (mainT s = M_Notify \/ mainT s = M_JoinPoller) ->
  waiting (poll s) = true ->
  mutexHeld (step cfg a s) = true /\
  (mainT (step cfg a s) = M_Notify \/ mainT (step cfg a s) = M_JoinPoller) /\
  poll (step cfg a s) = poll s.
Proof.
  intros Hmx Hm Hp. unfold step. destruct (fatal s); [done|].
  destruct a as [|k c|env|].
  - done.
  - destruct (gameLoop_step_frame cfg k c s) as (Hp' & Hm' & _ & Hmx').
    by rewrite Hp', Hm', Hmx'.
  - unfold modelLoadLoop_step. destruct (poll s) eqn:Hpoll; try done; by rewrite Hmx.
  - unfold selfplay_step. destruct Hm as [Hm|Hm]; rewrite Hm.
    + simpl. auto.
    + destruct (poll s) eqn:Hpoll; try done; rewrite Hm; auto.
Qed.

Lemma hung_run cfg acts s :
  mutexHeld s = true -> (mainT s = M_Notify \/ mainT s = M_JoinPoller) ->
  waiting (poll s) = true ->
  (mainT (run cfg acts s) = M_Notify \/ mainT (run cfg acts s) = M_JoinPoller) /\
  poll (run cfg acts s) = poll s.
Proof.
  revert s. induction acts as [|a acts IH]; intros s Hmx Hm Hp; [done|].
  destruct (hung_step cfg a s Hmx Hm Hp) as (Hmx' & Hm' & Hp').
  simpl. rewrite <- Hp'. apply IH; [done|done|by rewrite Hp'].
Qed.

(** ** The threads there are *)

Lemma modelLoadLoop_step_started cfg env s :
  (poll s = P_NotStarted -> poll (modelLoadLoop_step cfg env s) = P_NotStarted) /\
  (poll s <> P_NotStarted -> poll (modelLoadLoop_step cfg env s) <> P_NotStarted).
Proof.
  unfold modelLoadLoop_step.
  destruct (poll s) eqn:Hp; (split; [try done|intros Hne]);
    repeat case_match; simpl; rewrite ?Hp; done.
Qed.

Lemma threadsInv_step cfg a s : threadsInv cfg s -> threadsInv cfg (step cfg a s).
Proof.
  unfold threadsInv. intros HI. unfold step. destruct (fatal s); [done|].
  destruct a as [|k c|env|].
  - done.
  - destruct (gameLoop_step_frame cfg k c s) as (Hp & Hm & _).
    rewrite Hp, Hm.
    assert (Hg : length (game (gameLoop_step cfg k c s)) = length (game s) /\
                 (game s = [] -> game (gameLoop_step cfg k c s) = [])).
    { destruct (game s !! k) as [w|] eqn:Hk.
      - destruct (gameLoop_step_local cfg k c s w Hk) as (w' & cs & _ & Hg & _).
        rewrite Hg, length_insert. split; [done|]. intros He. by rewrite He in Hk.
      - unfold gameLoop_step. by rewrite Hk. }
    destruct Hg as [Hlen Hnil]. destruct (mainT s); rewrite ?Hlen; try done;
      destruct HI; auto.
  - destruct (modelLoadLoop_step_frame cfg env s) as (Hg & Hm & _).
    rewrite Hg, Hm.
    destruct (modelLoadLoop_step_started cfg env s) as [Hp0 Hp1]. destruct (mainT s); destruct HI; auto.
  - main_cases s Hm Hp; rewrite ?length_replicate; done.
Qed.

Lemma reachable_threadsInv cfg s : reachable cfg s -> threadsInv cfg s.
Proof.
  induction 1 as [env|s a Hreach IH Hadm]; [|by apply threadsInv_step].
  unfold selfplay_startup, threadsInv.
  by destruct (loadLatestNeuralNetIntoManager cfg env None []) as [[[] m] evs].
Qed.
(** ** The two flags *)

Lemma step_sigReceived cfg a s :
  sigReceived (step cfg a s) = sigReceived s || (is_signal a && negb (fatal s)).
Proof.
  unfold step. destruct (fatal s); [by rewrite andb_false_r, orb_false_r|].
  rewrite andb_true_r. destruct a as [|k c|env|]; simpl; rewrite ?orb_false_r.
  - by rewrite orb_true_r.
  - unfold gameLoop_step, checkForNewNNEval_finish.
    destruct (game s !! k) as [[]|]; repeat case_match; done.
  - unfold modelLoadLoop_step. destruct (poll s); repeat case_match; done.
  - unfold selfplay_step. destruct (mainT s); repeat case_match; done.
Qed.

Lemma step_shouldStop cfg a s :
  shouldStop s = true -> shouldStop (step cfg a s) = true.
Proof.
  intros Hs. unfold step. destruct (fatal s); [done|].
  destruct a as [|k c|env|].
  - done.
  - destruct (gameLoop_step_frame cfg k c s) as (_ & _ & H & _). by rewrite H.
  - destruct (modelLoadLoop_step_frame cfg env s) as (_ & _ & _ & H & _). by rewrite H.
  - unfold selfplay_step. destruct (mainT s); repeat case_match; done.
Qed.

Lemma store_elem_app t cs (tr : list event) :
  (t = TMain -> CStoreStop ∉ cs) ->
  (TMain, CStoreStop) ∈ tr ++ (pair t <$> cs) <-> (TMain, CStoreStop) ∈ tr.
Proof.
  intros Hno. rewrite elem_of_app. split; [|by left].
  intros [Hin|Hin]; [done|]. apply list_elem_of_fmap in Hin as (c & [= <- <-] & Hc).
  by destruct Hno.
Qed.

Lemma flagInv_step cfg a s : flagInv s -> flagInv (step cfg a s).
Proof.
  unfold flagInv. intros HI. unfold step. destruct (fatal s) eqn:Hf; [done|].
  destruct a as [|k c|env|].
  - simpl. split; auto.
  - pose proof (step_sigReceived cfg (AWorker k c) s) as Hsig.
    unfold step in Hsig. rewrite Hf in Hsig. simpl in Hsig. rewrite orb_false_r in Hsig.
    destruct (gameLoop_step_frame cfg k c s) as (_ & _ & Hs & _).
    rewrite Hsig, Hs.
    destruct (game s !! k) as [w|] eqn:Hk; [|unfold gameLoop_step; by rewrite Hk].
    destruct (gameLoop_step_local cfg k c s w Hk) as (w' & cs & _ & _ & Ht).
    rewrite Ht, store_elem_app; done.
  - pose proof (step_sigReceived cfg (APoller env) s) as Hsig.
    unfold step in Hsig. rewrite Hf in Hsig. simpl in Hsig. rewrite orb_false_r in Hsig.
    destruct (modelLoadLoop_step_frame cfg env s) as (_ & _ & _ & Hs & _ & cs & Ht).
    rewrite Hsig, Hs, Ht, store_elem_app; done.
  - main_cases s Hm Hp; try done.
    + split; [intros _|done]. right. apply elem_of_app. right. apply list_elem_of_here.
    + change (trace s ++ [(TMain, CNotifyAll)]) with (trace s ++ (pair TMain <$> [CNotifyAll])).
      rewrite store_elem_app; [done|]. intros _ Hin.
      apply list_elem_of_singleton in Hin. discriminate Hin.
Qed.

Lemma reachable_flagInv cfg s : reachable cfg s -> flagInv s.
Proof.
  induction 1 as [env|s a Hreach IH Hadm]; [|by apply flagInv_step].
  unfold selfplay_startup, flagInv.
  destruct (loadLatestNeuralNetIntoManager cfg env None []) as [[ok m] evs] eqn:Hload.
  pose proof (load_calls cfg env None []) as Hcalls. rewrite Hload in Hcalls. simpl in Hcalls.
  assert (Hno : (TMain, CStoreStop) ∉ (pair TMain <$> evs : list event)).
  { intros Hin. apply list_elem_of_fmap in Hin as (c & [= <-] & Hc).
    rewrite Forall_forall in Hcalls. by specialize (Hcalls _ Hc). }
  destruct ok; simpl.
  - split; [done|]. intros [?|?]; done.
  - split; [done|]. intros [?|Hin]; [done|].
    apply elem_of_app in Hin as [Hin|Hin]; [done|].
    apply list_elem_of_singleton in Hin. discriminate Hin.
Qed.

Lemma running_not_fatal cfg s : reachable cfg s -> mainT s <> M_Threw -> fatal s = false.
Proof.
  intros Hreach Hm. apply reachable_Inv in Hreach as [(HT & _)|(Hf & _)]; done.
Qed.


Lemma run_shouldStop cfg acts s :
  shouldStop s = true -> shouldStop (run cfg acts s) = true.
Proof.
  revert s. induction acts as [|a acts IH]; intros s Hs; [done|].
  simpl. apply IH. by apply step_shouldStop.
Qed.

Lemma run_sigReceived_mono cfg acts s :
  sigReceived s = true -> sigReceived (run cfg acts s) = true.
Proof.
  revert s. induction acts as [|a acts IH]; intros s Hs; [done|].
  simpl. apply IH. by rewrite step_sigReceived, Hs.
Qed.

(** X1.  The join of line 350 is made inside the scope of the lock_guard
    of line 348.  If the polling thread is at its wait (about to lock the
    mutex at line 319, or inside wait_for, which must lock it again to
    return) while the main thread holds the mutex, then whatever the
    threads do afterwards the polling thread stays where it is and the
    main thread never gets past the join: [selfplay] does not return. *)
Theorem join_under_lock_hangs cfg s acts :
  reachable cfg s ->
  mainT s = M_Notify \/ mainT s = M_JoinPoller ->
  poll s = P_Sleep \/ poll s = P_Blocked ->
  poll (run cfg acts s) = poll s /\
  mainT (run cfg acts s) <> M_Exit /\
  selfplay_exit (run cfg acts s) = None.
Proof.
  intros Hreach Hm Hp.
  pose proof (reachable_mutexInv cfg s Hreach) as Hmx. unfold mutexInv in Hmx.
  assert (Hheld : mutexHeld s = true) by (destruct Hm as [Hm|Hm]; by rewrite Hm in Hmx).
  assert (Hw : waiting (poll s) = true) by (destruct Hp as [Hp|Hp]; by rewrite Hp).
  destruct (hung_run cfg acts s Hheld Hm Hw) as [Hm' Hp'].
  split; [done|]. unfold selfplay_exit.
  destruct Hm' as [Hm'|Hm']; rewrite Hm'; done.
Qed.

Lemma join_under_lock_hangs_witness :
  let s := run cfg1 hungRun atCeiling in
  reachable cfg1 s /\ mainT s = M_JoinPoller /\ poll s = P_Blocked /\
  poll (run cfg1 [APoller noEnv; AMain; ASignal; APoller noEnv; AMain] s) = P_Blocked.
Proof.
  assert (Hr : reachable cfg1 (run cfg1 hungRun atCeiling)).
  { apply run_reachable; [apply atCeiling_reachable|reflexivity]. }
  split; [exact Hr|]. split; [reflexivity|]. split; [reflexivity|].
  apply (join_under_lock_hangs cfg1 (run cfg1 hungRun atCeiling)
           [APoller noEnv; AMain; ASignal; APoller noEnv; AMain] Hr).
  - right. reflexivity.
  - right. reflexivity.
Defined.

(** X2.  No thread exists before the loop of lines 332-336 or after a
    failed first load; from then on there are exactly [numGameThreads]
    game threads and the polling thread has been started. *)
Theorem threads_created cfg s :
  reachable cfg s ->
  match mainT s with
  | M_Threw | M_Spawn => game s = [] /\ poll s = P_NotStarted
  | _ => length (game s) = Z.to_nat (numGameThreads cfg) /\ poll s <> P_NotStarted
  end.
Proof. apply reachable_threadsInv. Qed.

Lemma threads_created_witness :
  reachable cfg1 inCallback /\
  length (game inCallback) = 1%nat /\ poll inCallback <> P_NotStarted.
Proof.
  split; [apply inCallback_reachable|].
  apply (threads_created cfg1 inCallback). apply inCallback_reachable.
Defined.

(** X3.  [shouldStop] is raised by the signal handler (lines 27-33) and
    by the main thread at line 343 and by nothing else: it is true
    exactly when a signal has been received or the main thread has made
    its store; and neither flag is ever lowered again. *)
Theorem stop_flag_raised cfg s :
  reachable cfg s ->
  (shouldStop s = true <-> sigReceived s = true \/ (TMain, CStoreStop) ∈ trace s) /\
  (forall acts, shouldStop s = true -> shouldStop (run cfg acts s) = true) /\
  (forall acts, sigReceived s = true -> sigReceived (run cfg acts s) = true).
Proof.
  intros Hreach. split; [exact (reachable_flagInv cfg s Hreach)|]. split.
  - intros acts. apply run_shouldStop.
  - intros acts. apply run_sigReceived_mono.
Qed.

Lemma stop_flag_raised_witness :
  reachable cfg1 signalled /\ shouldStop signalled = true /\
  (sigReceived signalled = true \/ (TMain, CStoreStop) ∈ trace signalled).
Proof.
  assert (Hr : reachable cfg1 signalled).
  { apply run_reachable; [apply inCallback_reachable|reflexivity]. }
  split; [exact Hr|]. split; [reflexivity|].
  apply (proj1 (stop_flag_raised cfg1 signalled Hr)). reflexivity.
Defined.


(** ** Accounts of the calls of all game threads *)

Lemma wsum_app E tr tr' : wsum E (tr ++ tr') = (wsum E tr + wsum E tr')%nat.
Proof.
  induction tr as [|[[] c] tr IH]; simpl; [done|..]; rewrite ?IH; try done. lia.
Qed.

Lemma wsum_worker E k cs : wsum E (pair (TWorker k) <$> cs) = csum E cs.
Proof. induction cs as [|c cs IH]; [done|]. rewrite fmap_cons. simpl. by rewrite IH. Qed.

Lemma wsum_other E t cs : (forall k, t <> TWorker k) -> wsum E (pair t <$> cs) = 0%nat.
Proof.
  intros Ht. induction cs as [|c cs IH]; [done|]. rewrite fmap_cons. simpl.
  destruct t; [done..|]. by destruct (Ht k).
Qed.

Lemma wsum_start E cfg env : wsum E (trace (selfplay_startup cfg env)) = 0%nat.
Proof.
  unfold selfplay_startup.
  destruct (loadLatestNeuralNetIntoManager cfg env None []) as [[[] m] evs]; simpl.
  - by apply wsum_other.
  - rewrite wsum_app, wsum_other by done. done.
Qed.

Lemma game_start cfg env : game (selfplay_startup cfg env) = [].
Proof.
  unfold selfplay_startup.
  by destruct (loadLatestNeuralNetIntoManager cfg env None []) as [[[] m] evs].
Qed.

Section Accounts.
Variable cfg : Config.
Variables E S : call -> nat.
Variables F G : wstate -> nat.
Hypothesis F_top : F W_Top = 0%nat.
Hypothesis G_top : G W_Top = 0%nat.
Hypothesis local :
  forall w cs w', wlocal cfg w cs w' ->
    (csum E cs + F w' + G w = csum S cs + G w' + F w)%nat.

Lemma accounts s :
  reachable cfg s ->
  (wsum E (trace s) + total F (game s) = wsum S (trace s) + total G (game s))%nat.
Proof.
  induction 1 as [env|s a Hreach IH Hadm].
  - by rewrite !wsum_start, game_start.
  - unfold step. destruct (fatal s); [done|]. destruct a as [|k c|env|].
    + done.
    + destruct (game s !! k) as [w|] eqn:Hk; [|unfold gameLoop_step; by rewrite Hk].
      destruct (gameLoop_step_local cfg k c s w Hk) as (w' & cs & Hloc & Hg & Ht).
      rewrite Hg, Ht, !wsum_app, !wsum_worker.
      pose proof (total_insert F _ _ _ w' Hk) as HF.
      pose proof (total_insert G _ _ _ w' Hk) as HG.
      pose proof (local _ _ _ Hloc). lia.
    + destruct (modelLoadLoop_step_frame cfg env s) as (Hg & _ & _ & _ & _ & cs & Ht).
      rewrite Hg, Ht, !wsum_app, !wsum_other by done. lia.
    + destruct (selfplay_step_cases cfg s) as [[Hm ->]|(Hm & _ & Hg & _ & _ & _ & cs & Ht)].
      * pose proof (spawn_empty cfg s Hreach Hm) as He. rewrite He in IH. simpl in *.
        by rewrite !total_replicate.
      * rewrite Hg, Ht, !wsum_app, !wsum_other by done. lia.
Qed.
End Accounts.
Lemma wsum_plus E1 E2 tr :
  wsum (fun c => (E1 c + E2 c)%nat) tr = (wsum E1 tr + wsum E2 tr)%nat.
Proof.
  induction tr as [|[[] c] tr IH]; simpl; [done|..]; rewrite ?IH; try done. lia.
Qed.

Lemma wsum_started idx tr : wsum (fun c => b2n (is_rungame idx c)) tr = started idx tr.
Proof.
  unfold started. induction tr as [|[[] c] tr IH]; simpl; [done|..]; rewrite ?IH; try done.
Qed.

Lemma total_holds g i : total (fun w => holds w i) g = holders g i.
Proof. induction g as [|w g IH]; simpl; [done|]. by rewrite IH. Qed.

Lemma game_local cfg idx w cs w' :
  wlocal cfg w cs w' ->
  (csum (fun c => (is_enqueue idx c + is_abandon idx c)%nat) cs + inflight idx w' + 0
   = csum (fun c => b2n (is_rungame idx c)) cs + 0 + inflight idx w)%nat.
Proof.
  intros Hloc. destruct Hloc; simpl; repeat case_match; simpl; lia.
Qed.

Lemma count_local cfg w cs w' :
  wlocal cfg w cs w' ->
  (csum is_count cs + atCount w' + 0 = csum is_fetch cs + 0 + atCount w)%nat.
Proof.
  intros Hloc. destruct Hloc; simpl; repeat case_match; simpl; lia.
Qed.

Lemma b2n_eqb h i : b2n (Nat.eqb h i) = one h i.
Proof. unfold one. destruct (Nat.eqb_spec h i); by case_decide. Qed.

Lemma handle_local cfg i w cs w' :
  wlocal cfg w cs w' ->
  (csum (is_acquire_of i) cs + 0 + holds w i
   = csum (is_release_of i) cs + holds w' i + 0)%nat.
Proof.
  intros Hloc. destruct Hloc; simpl; rewrite ?b2n_eqb; unfold one; repeat case_match; simpl; lia.
Qed.

(** ** The counter and the games *)

Lemma wlocal_draw cfg w cs w' :
  wlocal cfg w cs w' -> (forall h, w <> W_FetchAdd h) ->
  csum is_fetch cs = 0%nat /\
  (csum is_game cs + toRun cfg w')%nat = toRun cfg w.
Proof.
  intros Hloc Hw. destruct Hloc; simpl; unfold b2n; repeat case_match; zcases;
    simpl; try (split; lia); exfalso; by eapply Hw.
Qed.

Lemma drawInv_step cfg a s :
  valid_config cfg -> reachable cfg s -> drawInv cfg s -> drawInv cfg (step cfg a s).
Proof.
  intros Hv Hreach [Hf Hr].
  pose proof (reachable_counterInv cfg s Hv Hreach) as (Hc & Hlen & _).
  destruct Hv as [HN HM].
  unfold step. destruct (fatal s); [done|]. destruct a as [|k c|env|].
  - done.
  - destruct (game s !! k) as [w|] eqn:Hk; [|unfold gameLoop_step; by rewrite Hk].
    destruct (gameLoop_step_local cfg k c s w Hk) as (w' & cs & Hloc & Hg & Ht).
    pose proof (gameLoop_step_counter cfg k c s w Hk) as Hcnt.
    assert (Hcase : (exists h, w = W_FetchAdd h) \/ ~ (exists h, w = W_FetchAdd h)).
    { destruct w; try (right; intros [h' Hh]; discriminate Hh). left. eauto. }
    destruct Hcase as [[h ->]|Hnf].
    + destruct Hcnt as (Hg' & Ht' & Hc').
      pose proof (total_le (doomed cfg) (game s)) as Hdl.
      assert (Hd1 : forall w0, (doomed cfg w0 <= 1)%nat).
      { intros w0. destruct w0; simpl; repeat case_match; lia. }
      specialize (Hdl Hd1).
      unfold drawInv, fetches, gamesRun. rewrite Hg', Ht', Hc', !wsum_app, !wsum_worker.
      rewrite wrap_signed_id by lia.
      pose proof (total_insert (toRun cfg) _ _ _ (W_Count h (numGamesStarted s)) Hk) as Hp.
      unfold fetches, gamesRun in *. simpl in *. unfold b2n in *.
      revert Hp. zcases; simpl; intros; lia.
    + assert (Hw : forall h, w <> W_FetchAdd h) by (intros h ->; apply Hnf; eauto).
      assert (Hc' : numGamesStarted (gameLoop_step cfg k c s) = numGamesStarted s).
      { destruct w; try done. by destruct (Hw nnEval). }
      destruct (wlocal_draw cfg w cs w' Hloc Hw) as [Hfe Hga].
      unfold drawInv, fetches, gamesRun. rewrite Hg, Ht, Hc', !wsum_app, !wsum_worker.
      pose proof (total_insert (toRun cfg) _ _ _ w' Hk) as Hp.
      unfold fetches, gamesRun in *. lia.
  - destruct (modelLoadLoop_step_frame cfg env s) as (Hg & _ & Hcs & _ & _ & cs & Ht).
    unfold drawInv, fetches, gamesRun.
    rewrite Hg, Hcs, Ht, !wsum_app, !wsum_other by done.
    unfold fetches, gamesRun in *. lia.
  - destruct (selfplay_step_cases cfg s) as [[Hm ->]|(Hm & _ & Hg & _ & _ & Hcs & cs & Ht)].
    + pose proof (spawn_empty cfg s Hreach Hm) as He. rewrite He in *.
      unfold drawInv. simpl in *. by rewrite total_replicate.
    + unfold drawInv, fetches, gamesRun.
      rewrite Hg, Hcs, Ht, !wsum_app, !wsum_other by done.
      unfold fetches, gamesRun in *. lia.
Qed.

Lemma reachable_drawInv cfg s : valid_config cfg -> reachable cfg s -> drawInv cfg s.
Proof.
  intros Hv Hreach. induction Hreach as [env|s a Hreach IH Hadm].
  - unfold drawInv, fetches, gamesRun. rewrite !wsum_start, game_start.
    assert (Hc : numGamesStarted (selfplay_startup cfg env) = 0).
    { unfold selfplay_startup.
      by destruct (loadLatestNeuralNetIntoManager cfg env None []) as [[[] m] evs]. }
    rewrite Hc. destruct Hv as [_ HM]. simpl. lia.
  - by apply drawInv_step.
Qed.
Lemma total_zero f g :
  (forall k w, g !! k = Some w -> f w = 0%nat) -> total f g = 0%nat.
Proof.
  induction g as [|a g IH]; intros Hz; simpl; [done|].
  rewrite (Hz 0%nat a eq_refl), IH; [done|]. intros k w Hk. by apply (Hz (S k)).
Qed.

(** X5.  The shared counter is the number of fetch_add calls made so far
    (line 264); it never exceeds the ceiling by more than the number of
    game threads, each thread drawing at most one index at or above the
    ceiling, so the 64-bit counter does not overflow. *)
Theorem counter_bounded cfg s :
  valid_config cfg -> reachable cfg s ->
  numGamesStarted s = Z.of_nat (fetches (trace s)) /\
  0 <= numGamesStarted s <= maxGamesTotal cfg + numGameThreads cfg /\
  numGamesStarted s < 2 ^ 63.
Proof.
  intros Hv Hreach.
  destruct (reachable_drawInv cfg s Hv Hreach) as [Hf _].
  destruct (reachable_counterInv cfg s Hv Hreach) as (Hc & Hlen & _).
  pose proof (total_le (doomed cfg) (game s)) as Hdl.
  assert (Hd1 : forall w0, (doomed cfg w0 <= 1)%nat).
  { intros w0. destruct w0; simpl; repeat case_match; lia. }
  specialize (Hdl Hd1). destruct Hv as [HN HM]. split; [done|]. split; lia.
Qed.

(** In the sample run the bound is attained: one game, one thread, and the
    counter at two. *)
Lemma counter_bounded_witness :
  valid_config cfg1 /\ reachable cfg1 atCeiling /\
  numGamesStarted atCeiling = 2 /\
  0 <= numGamesStarted atCeiling <= maxGamesTotal cfg1 + numGameThreads cfg1.
Proof.
  split; [apply cfg1_valid|]. split; [apply atCeiling_reachable|].
  split; [reflexivity|].
  apply (counter_bounded cfg1 atCeiling cfg1_valid atCeiling_reachable).
Defined.

(** X6.  runGame is entered at most [numGamesTotal] times over the whole
    run, and never more often than an index has been drawn; when all game
    threads have finished it has been entered exactly as often as the
    smaller of the counter and the ceiling. *)
Theorem games_within_ceiling cfg s :
  valid_config cfg -> reachable cfg s ->
  Z.of_nat (gamesRun (trace s)) <= Z.min (numGamesStarted s) (maxGamesTotal cfg) /\
  ((forall k w, game s !! k = Some w -> w = W_Done) ->
   Z.of_nat (gamesRun (trace s)) = Z.min (numGamesStarted s) (maxGamesTotal cfg)).
Proof.
  intros Hv Hreach. destruct (reachable_drawInv cfg s Hv Hreach) as [_ Hr].
  split; [lia|]. intros Hdone.
  rewrite (total_zero (toRun cfg) (game s)) in Hr; [lia|].
  intros k w Hk. by rewrite (Hdone k w Hk).
Qed.

Lemma games_within_ceiling_witness :
  valid_config cfg1 /\ reachable cfg1 stopped /\
  Z.of_nat (gamesRun (trace stopped)) = 1 /\
  Z.of_nat (gamesRun (trace stopped))
    <= Z.min (numGamesStarted stopped) (maxGamesTotal cfg1).
Proof.
  split; [apply cfg1_valid|]. split; [apply stopped_reachable|].
  split; [reflexivity|].
  apply (games_within_ceiling cfg1 stopped cfg1_valid stopped_reachable).
Defined.

Lemma game_account cfg s idx :
  reachable cfg s ->
  started idx (trace s) =
    (enqueued idx (trace s) + abandoned idx (trace s) + total (inflight idx) (game s))%nat.
Proof.
  intros Hreach.
  pose proof (accounts cfg (fun c => (is_enqueue idx c + is_abandon idx c)%nat)
                (fun c => b2n (is_rungame idx c)) (inflight idx) (fun _ => 0%nat)
                eq_refl eq_refl (game_local cfg idx) s Hreach) as Hacc.
  rewrite wsum_plus, wsum_started in Hacc.
  rewrite (total_zero (fun _ => 0%nat)) in Hacc by done.
  fold (enqueued idx (trace s)) in Hacc. fold (abandoned idx (trace s)) in Hacc. lia.
Qed.

Lemma enqueued_once cfg s idx :
  valid_config cfg -> reachable cfg s ->
  (enqueued idx (trace s) <= 1)%nat /\
  (enqueued idx (trace s) = 1%nat ->
   started idx (trace s) = 1%nat /\ 0 <= idx < maxGamesTotal cfg).
Proof.
  intros Hv Hreach. pose proof (game_account cfg s idx Hreach) as Hacc.
  destruct (reachable_counterInv cfg s Hv Hreach) as (_ & _ & Hidx).
  specialize (Hidx idx).
  assert (Hle : (started idx (trace s) <= 1)%nat) by (revert Hidx; case_match; lia).
  split; [lia|]. intros H1.
  assert (Hst : started idx (trace s) = 1%nat) by lia. split; [done|].
  rewrite Hst in Hidx. revert Hidx. zcases; simpl; intros; lia.
Qed.

(** X7.  Every entry into runGame with a given index is accounted for:
    its record has been enqueued (line 285), or runGame returned NULL, or
    the game is still with its thread.  So the record of a game is
    enqueued at most once, by whichever thread, and only for an index
    below the ceiling with which runGame was entered. *)
Theorem game_accounted cfg s idx :
  valid_config cfg -> reachable cfg s ->
  started idx (trace s) =
    (enqueued idx (trace s) + abandoned idx (trace s) + total (inflight idx) (game s))%nat /\
  (enqueued idx (trace s) <= 1)%nat /\
  (enqueued idx (trace s) = 1%nat ->
   started idx (trace s) = 1%nat /\ 0 <= idx < maxGamesTotal cfg).
Proof.
  intros Hv Hreach. split; [by apply (game_account cfg)|].
  by apply enqueued_once.
Qed.

Lemma game_accounted_witness :
  valid_config cfg1 /\ reachable cfg1 stopped /\
  started 0 (trace stopped) = 1%nat /\ enqueued 0 (trace stopped) = 1%nat /\
  (enqueued 0 (trace stopped) <= 1)%nat.
Proof.
  split; [apply cfg1_valid|]. split; [apply stopped_reachable|].
  split; [reflexivity|]. split; [reflexivity|].
  apply (game_accounted cfg1 stopped 0 cfg1_valid stopped_reachable).
Defined.

(** X8.  Every index drawn from the counter is recorded with
    countOneGameStarted exactly once (lines 264-265), whether or not it is
    below the ceiling: the calls made, and the threads that are between
    the two lines, add up to the draws. *)
Theorem draws_counted cfg s :
  reachable cfg s ->
  (counted (trace s) + total atCount (game s))%nat = fetches (trace s).
Proof.
  intros Hreach.
  pose proof (accounts cfg is_count is_fetch atCount (fun _ => 0%nat)
                eq_refl eq_refl (count_local cfg) s Hreach) as Hacc.
  rewrite (total_zero (fun _ => 0%nat)) in Hacc by done.
  unfold counted, fetches. lia.
Qed.

Lemma draws_counted_witness :
  reachable cfg1 atCeiling /\
  counted (trace atCeiling) = 2%nat /\ gamesRun (trace atCeiling) = 1%nat /\
  (counted (trace atCeiling) + total atCount (game atCeiling))%nat
    = fetches (trace atCeiling).
Proof.
  split; [apply atCeiling_reachable|]. split; [reflexivity|]. split; [reflexivity|].
  apply (draws_counted cfg1 atCeiling atCeiling_reachable).
Defined.

(** X9.  For every handle, over all game threads together: the
    acquireLatest calls that returned it are the release calls made on
    it plus the references the threads hold at their program points.  No
    thread releases a handle that was not acquired, and the manager's
    count is the difference of the two numbers of calls. *)
Theorem handle_balance cfg s i :
  reachable cfg s ->
  acquires i (trace s) = (releases i (trace s) + holders (game s) i)%nat /\
  (forall h, manager s !! i = Some h ->
     refCount h = Z.of_nat (acquires i (trace s)) - Z.of_nat (releases i (trace s))).
Proof.
  intros Hreach.
  pose proof (accounts cfg (is_acquire_of i) (is_release_of i) (fun _ => 0%nat)
                (fun w => holds w i) eq_refl eq_refl (handle_local cfg i) s Hreach) as Hacc.
  rewrite (total_zero (fun _ => 0%nat)), total_holds in Hacc by done.
  fold (acquires i (trace s)) in Hacc. fold (releases i (trace s)) in Hacc.
  split; [lia|]. intros h Hi.
  apply reachable_Inv in Hreach as [(_ & _ & _ & Hm)|HG]; [by rewrite Hm in Hi|].
  destruct HG as (_ & (_ & Hh & _) & _). specialize (Hh i). rewrite Hi in Hh.
  destruct Hh as [Hrc _]. lia.
Qed.

Lemma handle_balance_witness :
  reachable cfg1 inCallback /\
  acquires 1 (trace inCallback) = 1%nat /\ releases 1 (trace inCallback) = 0%nat /\
  acquires 1 (trace inCallback)
    = (releases 1 (trace inCallback) + holders (game inCallback) 1)%nat.
Proof.
  split; [apply inCallback_reachable|]. split; [reflexivity|]. split; [reflexivity|].
  apply (handle_balance cfg1 inCallback 1%nat inCallback_reachable).
Defined.
(** ** Game threads without the callback *)

Lemma no_callback_step cfg w cs w' tr :
  switchNetsMidGame cfg = false ->
  wlocal cfg w cs w' -> no_callback w tr -> no_callback w' (tr ++ cs).
Proof.
  intros Hsw Hloc [Hb Hn]. split; [by eapply balanced_step|].
  destruct Hloc; try done; try congruence; by repeat case_match.
Qed.

(** X10.  With [switchNetsMidGame] off, runGame is given no callback
    (line 276): no game thread is ever inside [checkForNewNNEval], and a
    thread that is past its acquire and before its release has acquired
    exactly once more than it has released, as the sentence about the
    references of one thread says. *)
Theorem no_switch_one_reference cfg :
  switchNetsMidGame cfg = false ->
  holds_exactly_one cfg /\
  forall s k h h' i, reachable cfg s -> game s !! k <> Some (W_Callback h h' i).
Proof.
  intros Hsw.
  assert (HP : forall s k w, reachable cfg s -> game s !! k = Some w ->
                 no_callback w (calls_of (TWorker k) (trace s))).
  { intros s k w Hreach Hk.
    apply (worker_traces cfg no_callback) with (s := s) (k := k) (w := w); try done.
    intros w0 cs w' tr. by apply no_callback_step. }
  split.
  - intros s k w Hreach Hk H1 H2 H3. destruct (HP s k w Hreach Hk) as [Hb Hn].
    unfold balanced in Hb. rewrite Hb. f_equal.
    destruct w; try done. by destruct (Hn nnEval newNNEval gameIdx).
  - intros s k h h' i Hreach Hk. destruct (HP s k _ Hreach Hk) as [_ Hn].
    by destruct (Hn h h' i).
Qed.

Lemma no_switch_one_reference_witness : holds_exactly_one cfgNoSwitch.
Proof. apply (no_switch_one_reference cfgNoSwitch). reflexivity. Defined.

(** ** The command line, and the stream of the game records *)

Lemma length_append (a b : string) :
  String.length (String.append a b) = (String.length a + String.length b)%nat.
Proof.
  induction a as [|x a IH]; [done|].
  change (String.append (String x a) b) with (String x (String.append a b)).
  simpl. by rewrite IH.
Qed.

Lemma append_assoc (a b c : string) :
  String.append (String.append a b) c = String.append a (String.append b c).
Proof.
  induction a as [|x a IH]; [done|].
  change (String.append (String x a) b) with (String x (String.append a b)).
  change (String.append (String x (String.append a b)) c)
    with (String x (String.append (String.append a b) c)).
  by rewrite IH.
Qed.

Lemma checkDirNonEmpty_None flag s : checkDirNonEmpty flag s = None <-> s <> EmptyString.
Proof.
  unfold checkDirNonEmpty. destruct s; simpl; [split; done|].
  destruct (Z.leb_spec (Z.of_nat (S (String.length s))) 0); [lia|]. split; done.
Qed.

(** X11.  The three values of the command line are handed on exactly
    when both directory names are non-empty.  An empty name is reported
    by a StringError, for [models-dir] first, and this error leaves
    [selfplay]: the handler of lines 66-69 is for [TCLAP::ArgException]
    only, so the value 1 is returned for an error of the parser and for
    nothing else. *)
Theorem empty_dir_rejected parse :
  (forall c m o, selfplay_args parse = ArgsParsed c m o <->
                 parse = inr (c, m, o) /\ m <> EmptyString /\ o <> EmptyString) /\
  (forall code cerr, selfplay_args parse = ArgsReturn code cerr <->
                     exists e, parse = inl e /\ code = 1 /\
                       cerr = String.append
                                (String.append (String.append "Error: " (error e))
                                   " for argument ") (argId e)) /\
  (forall c o, parse = inr (c, EmptyString, o) ->
     selfplay_args parse = ArgsThrow "Empty directory specified for models-dir") /\
  (forall c m, parse = inr (c, m, EmptyString) -> m <> EmptyString ->
     selfplay_args parse = ArgsThrow "Empty directory specified for output-dir").
Proof.
  split_and!.
  - intros c m o. destruct parse as [e|[[c' m'] o']]; simpl; [split; [done|by intros [? _]]|].
    destruct (checkDirNonEmpty "models-dir" m') eqn:Hm.
    { split; [done|]. intros ([= -> -> ->] & Hm' & _).
      apply (checkDirNonEmpty_None "models-dir") in Hm'. by rewrite Hm in Hm'. }
    destruct (checkDirNonEmpty "output-dir" o') eqn:Ho.
    { split; [done|]. intros ([= -> -> ->] & _ & Ho').
      apply (checkDirNonEmpty_None "output-dir") in Ho'. by rewrite Ho in Ho'. }
    apply checkDirNonEmpty_None in Hm, Ho. split.
    + by intros [= -> -> ->].
    + by intros ([= -> -> ->] & _).
  - intros code cerr. destruct parse as [e|[[c' m'] o']]; simpl.
    + split.
      * intros [= <- <-]. by exists e.
      * by intros (e' & [= <-] & -> & ->).
    + split; [|by intros (e & ? & _)]. by repeat case_match.
  - by intros c o ->.
  - intros c m -> Hm. simpl. apply (checkDirNonEmpty_None "models-dir") in Hm.
    rewrite Hm.
    done.
Qed.

(** X12.  The conditional of line 203 never takes its NULL branch: the
    name of the directory ends in [/sgfs] and is not empty, so the stream
    of the game records is always opened, in the second of the four
    directories that the loop of lines 163-189 has made. *)
Theorem sgfOut_always_opened cfg name hex :
  sgfOut cfg name hex
    = Some (String.append (String.append (String.append (sgfOutputDir cfg name) "/") hex)
              ".sgfs") /\
  modelDirs cfg name !! 1%nat = Some (sgfOutputDir cfg name) /\
  modelDirs cfg name !! 0%nat = Some (modelOutputDir cfg name).
Proof.
  split_and!.
  - unfold sgfOut, sgfOutputDir. rewrite length_append. simpl.
    destruct (Z.ltb_spec 0 (Z.of_nat (String.length (modelOutputDir cfg name) + 5))); [done|lia].
  - unfold modelDirs, sgfOutputDir, modelOutputDir. simpl.
    by rewrite (append_assoc (outputDir cfg) "/" name).
  - unfold modelDirs, modelOutputDir. simpl.
    by rewrite (append_assoc (outputDir cfg) "/" name).
Qed.
(** ** One attempt at the directories, and the attempts of one load *)

(** X13.  One attempt (lines 166-169) makes the directories in the order
    given and is abandoned at the first one that fails: an attempt that
    succeeds has made all of them, and one that fails has made those
    before the failing one and has not tried those after it. *)
Theorem attempt_stops_at_first_failure env i ps :
  match tryMake env i ps with
  | (true, evs) =>
      evs = (fun p => CMakeDir p true) <$> ps /\
      forall p, p ∈ ps -> makeOK env i p = true
  | (false, evs) =>
      exists pre p post,
        ps = pre ++ p :: post /\
        (forall q, q ∈ pre -> makeOK env i q = true) /\
        makeOK env i p = false /\
        evs = ((fun q => CMakeDir q true) <$> pre) ++ [CMakeDir p false]
  end.
Proof.
  induction ps as [|p ps IH]; simpl.
  - split; [done|]. intros p Hp. by apply elem_of_nil in Hp.
  - destruct (makeOK env i p) eqn:Hp.
    + destruct (tryMake env i ps) as [[] evs].
      * destruct IH as [-> Hall]. split; [done|].
        intros q Hq. apply elem_of_cons in Hq as [->|Hq]; auto.
      * destruct IH as (pre & q & post & -> & Hall & Hq & ->).
        exists (p :: pre), q, post. split_and!; try done.
        intros r Hr. apply elem_of_cons in Hr as [->|Hr]; auto.
    + exists [], p, ps. split_and!; try done.
      intros q Hq. by apply elem_of_nil in Hq.
Qed.

Lemma makeDirLoop_until env ps fuel i j :
  0 <= i <= j -> j < maxTries -> (Z.to_nat (maxTries - i) <= fuel)%nat ->
  (forall j', i <= j' < j -> fst (tryMake env j' ps) = false) ->
  fst (tryMake env j ps) = true ->
  let res := makeDirLoop fuel env ps i in
  fst res = LoopBreak /\
  count_calls is_try (snd res) = Z.to_nat (j - i + 1) /\
  count_calls is_sleep (snd res) = Z.to_nat (j - i).
Proof.
  revert i. induction fuel as [|fuel IH]; intros i Hi Hj Hfuel Hfail Hok;
    [unfold maxTries in *; lia|].
  simpl. destruct (Z.ltb_spec i maxTries) as [_|]; [|lia].
  destruct (tryMake_counts env i ps) as (Ht & Hs & _).
  destruct (tryMake env i ps) as [success evs] eqn:Htry. simpl in Ht, Hs.
  destruct success.
  - assert (j = i) as ->.
    { destruct (decide (j = i)) as [|Hne]; [done|].
      specialize (Hfail i). rewrite Htry in Hfail. simpl in Hfail.
      discriminate Hfail. lia. }
    simpl. rewrite Ht, Hs. replace (i - i + 1) with 1 by lia.
    replace (i - i) with 0 by lia. done.
  - assert (Hlt : i < j).
    { destruct (decide (j = i)) as [->|Hne]; [|lia].
      rewrite Htry in Hok. discriminate Hok. }
    destruct (Z.eqb_spec i (maxTries - 1)) as [Hlast|Hnot]; [lia|].
    specialize (IH (i + 1)).
    destruct (makeDirLoop fuel env ps (i + 1)) as [r evs'] eqn:Hloop.
    destruct IH as (Hr & Htr & Hsl); [lia|lia|lia| |done|].
    { intros j' Hj'. apply Hfail. lia. }
    simpl in *. rewrite !count_calls_app. simpl. rewrite Ht, Hs, Htr, Hsl.
    split; [done|]. split; lia.
Qed.

(** X14.  A call of [loadLatestNeuralNetIntoManager] returns true exactly
    when a model is found whose name is not the one passed in and one of
    the five attempts at its directories succeeds.  If the first
    successful attempt is attempt [j], the directories have been attempted
    [j + 1] times with [j] sleeps, the model has been handed to the
    manager, and that is the last thing done; a call that returns false
    hands nothing to the manager. *)
Theorem load_succeeds_iff cfg env lastNetName m :
  let res := loadLatestNeuralNetIntoManager cfg env lastNetName m in
  (fst (fst res) = true <->
   exists name j, findLatestModel env = Some name /\ sameName lastNetName name = false /\
     0 <= j < maxTries /\ fst (tryMake env j (modelDirs cfg name)) = true) /\
  (forall name j,
     findLatestModel env = Some name -> sameName lastNetName name = false ->
     0 <= j < maxTries -> fst (tryMake env j (modelDirs cfg name)) = true ->
     (forall j', 0 <= j' < j -> fst (tryMake env j' (modelDirs cfg name)) = false) ->
     snd (fst res) = loadModelAndStartDataWriting m name /\
     count_calls is_try (snd res) = Z.to_nat (j + 1) /\
     count_calls is_sleep (snd res) = Z.to_nat j /\
     last (snd res) = Some (CLoadModel name)) /\
  (fst (fst res) = false ->
   snd (fst res) = m /\ forall name, CLoadModel name ∉ snd res).
Proof.
  intros res. subst res. split_and!.
  - unfold loadLatestNeuralNetIntoManager.
    destruct (findLatestModel env) as [name|]; [|split; [done|by intros (? & ? & ? & _)]].
    destruct (sameName lastNetName name) eqn:Hsame.
    { split; [done|]. intros (n & j & [= <-] & Hs & _). by rewrite Hsame in Hs. }
    destruct (makeDirLoop_spec env (modelDirs cfg name) (Z.to_nat maxTries) 0)
      as (Hr & _ & _ & _ & Hiff & _); try (unfold maxTries; lia).
    destruct (makeDirLoop _ _ _ _) as [r evs]. simpl in Hr, Hiff.
    destruct Hr as [-> | ->]; simpl.
    + split; [intros _|done]. exists name.
      assert (Hsome : ~ (forall j, 0 <= j < maxTries ->
                           fst (tryMake env j (modelDirs cfg name)) = false)).
      { intros Hall. by apply Hiff in Hall. }
      unfold maxTries in *.
      destruct (fst (tryMake env 0 (modelDirs cfg name))) eqn:H0;
        [exists 0; split_and!; try done; lia|].
      destruct (fst (tryMake env 1 (modelDirs cfg name))) eqn:H1;
        [exists 1; split_and!; try done; lia|].
      destruct (fst (tryMake env 2 (modelDirs cfg name))) eqn:H2;
        [exists 2; split_and!; try done; lia|].
      destruct (fst (tryMake env 3 (modelDirs cfg name))) eqn:H3;
        [exists 3; split_and!; try done; lia|].
      destruct (fst (tryMake env 4 (modelDirs cfg name))) eqn:H4;
        [exists 4; split_and!; try done; lia|].
      destruct Hsome. intros j Hj.
      assert (j = 0 \/ j = 1 \/ j = 2 \/ j = 3 \/ j = 4) as [-> | [-> | [-> | [-> | ->]]]] by lia;
        done.
    + split; [done|]. intros (n & j & [= <-] & _ & Hj & Hok).
      destruct Hiff as [Hiff _]. rewrite (Hiff eq_refl j Hj) in Hok. done.
  - intros name j Hfind Hsame Hj Hok Hfail.
    unfold loadLatestNeuralNetIntoManager. rewrite Hfind, Hsame.
    destruct (makeDirLoop_until env (modelDirs cfg name) (Z.to_nat maxTries) 0 j)
      as (Hr & Htr & Hsl); try done; try lia.
    destruct (makeDirLoop _ _ _ _) as [r evs]. simpl in Hr, Htr, Hsl. subst r. simpl.
    rewrite !count_calls_app. simpl. rewrite Htr, Hsl.
    replace (j - 0 + 1) with (j + 1) by lia. replace (j - 0) with j by lia.
    split_and!; try done; try lia.
    by rewrite app_comm_cons, last_snoc.
  - intros Hfalse.
    pose proof (load_cases cfg env lastNetName m) as Hcases.
    revert Hfalse Hcases. unfold loadLatestNeuralNetIntoManager.
    destruct (findLatestModel env) as [name|]; [|simpl; intros _ _; split; [done|]; intros n Hn; by apply elem_of_nil in Hn].
    destruct (sameName lastNetName name);
      [simpl; intros _ _; split; [done|]; intros n Hn; by apply elem_of_nil in Hn|].
    pose proof (makeDirLoop_calls (Z.to_nat maxTries) env (modelDirs cfg name) 0) as Hl.
    destruct (makeDirLoop _ _ _ _) as [r evs]. simpl in Hl.
    destruct r; simpl; try done. intros _ _. split; [done|].
    intros n Hn. apply elem_of_cons in Hn as [Hn|Hn]; [done|].
    rewrite Forall_forall in Hl. by specialize (Hl _ Hn).
Qed.
(** ** The sweeps of the polling thread *)

Lemma sweep_index_ok cfg s :
  reachable cfg s -> mainT s <> M_Threw ->
  modelNames (manager s) <> [] /\
  forall final names i, poll s = P_Sweep final names i ->
    names <> [] /\ sweepBound names = Z.of_nat (length names) - 1 /\
    0 <= i /\
    (i < sweepBound names -> is_Some (names !! Z.to_nat i)).
Proof.
  intros Hreach Hm. apply reachable_Inv in Hreach as [(HT & _)|HG]; [done|].
  destruct HG as (_ & HM & HP & _). split.
  - destruct (modelNames_ok _ _ HM) as [Hlen _].
    intros He. rewrite He in Hlen. simpl in Hlen. lia.
  - intros final names i Hp. unfold pollOK in HP. rewrite Hp in HP.
    destruct HP as (Hi & Hlen & _).
    assert (Hb : sweepBound names = Z.of_nat (length names) - 1).
    { unfold sweepBound. destruct names; [simpl in Hlen; lia|done]. }
    split_and!; try done.
    + intros He. rewrite He in Hlen. simpl in Hlen. lia.
    + intros Hlt. apply lookup_lt_is_Some_2. lia.
Qed.

(** X15.  While the program runs the manager always has a model, so the
    assertion of line 311 holds and the unsigned [modelNames.size()-1] of
    lines 312 and 326 does not wrap; and in both sweeps the body is
    entered only with an index inside [modelNames]. *)
Theorem sweep_in_bounds cfg s :
  reachable cfg s -> mainT s <> M_Threw ->
  modelNames (manager s) <> [] /\
  forall final names i, poll s = P_Sweep final names i ->
    names <> [] /\ sweepBound names = Z.of_nat (length names) - 1 /\
    0 <= i /\
    (i < sweepBound names -> is_Some (names !! Z.to_nat i)).
Proof. apply sweep_index_ok. Qed.

Lemma sweep_in_bounds_witness :
  reachable cfg1 interrupted /\
  poll interrupted = P_Sweep false ["m0"; "m1"]%string 1 /\
  sweepBound ["m0"; "m1"]%string = 1 /\
  modelNames (manager interrupted) <> [].
Proof.
  assert (Hr : reachable cfg1 interrupted).
  { apply run_reachable; [apply inCallback_reachable|reflexivity]. }
  split; [exact Hr|]. split; [reflexivity|]. split; [reflexivity|].
  apply (proj1 (sweep_in_bounds cfg1 interrupted Hr
                  ltac:(intros H; vm_compute in H; discriminate H))).
Defined.

(** X16.  The sweep that follows a load does what its comment says
    (line 309): whenever the polling thread is not between a successful
    load and the end of that sweep, every model but the newest is
    retiring, and the newest is not: exactly one model is on offer. *)
Theorem older_models_retired cfg s :
  reachable cfg s -> mainT s <> M_Threw ->
  poll s <> P_Snapshot -> (forall names i, poll s <> P_Sweep false names i) ->
  forall k h, manager s !! k = Some h ->
    (retiring h = false <-> S k = length (manager s)).
Proof.
  intros Hreach Hm Hp1 Hp2 k h Hk.
  pose proof (reachable_sweepInv cfg s Hreach) as HI.
  destruct (newest_stays_on_offer cfg s Hreach Hm) as (hl & Hlast & Hret & _).
  assert (Hold : olderRetired (manager s)).
  { unfold sweepInv in HI. destruct (poll s) as [| | | | |[] names i| | | | |]; try done.
    by destruct (Hp2 names i). }
  rewrite last_lookup in Hlast. pose proof (lookup_lt_Some _ _ _ Hk) as Hlt.
  split.
  - intros Hr. destruct (decide (S k = length (manager s))) as [|Hne]; [done|].
    destruct (Hold k (modelName h)); [lia|].
    unfold view. by rewrite list_lookup_fmap, Hk, <- Hr.
  - intros Hlen. replace (pred (length (manager s))) with k in Hlast by lia.
    rewrite Hk in Hlast. by injection Hlast as ->.
Qed.

Lemma older_models_retired_witness :
  reachable cfg1 stopped /\
  (retiring <$> manager stopped) = [true; false] /\
  forall k h, manager stopped !! k = Some h ->
    (retiring h = false <-> S k = length (manager stopped)).
Proof.
  split; [apply stopped_reachable|]. split; [reflexivity|].
  apply (older_models_retired cfg1 stopped stopped_reachable);
    intros; intros H; vm_compute in H; discriminate H.
Defined.

(** ** The end of the polling thread *)

Lemma finishes_done cfg s : poll s = P_Done -> finishes cfg s.
Proof. intros Hp. by exists 0%nat. Qed.

Lemma stopping_step cfg s :
  stopping cfg s ->
  step cfg (APoller noEnv) s = modelLoadLoop_step cfg noEnv s /\
  stopping cfg (modelLoadLoop_step cfg noEnv s) /\
  fatal (modelLoadLoop_step cfg noEnv s) = false /\
  mainT (modelLoadLoop_step cfg noEnv s) = mainT s /\
  mutexHeld (modelLoadLoop_step cfg noEnv s) = mutexHeld s.
Proof.
  intros (Hreach & Hm & Hs).
  pose proof (running_not_fatal cfg s Hreach Hm) as Hf.
  assert (Hstep : step cfg (APoller noEnv) s = modelLoadLoop_step cfg noEnv s).
  { unfold step. by rewrite Hf. }
  destruct (modelLoadLoop_step_frame cfg noEnv s) as (_ & Hm' & _ & Hs' & Hmx & _).
  assert (Hreach' : reachable cfg (modelLoadLoop_step cfg noEnv s)).
  { rewrite <- Hstep. by apply reach_step. }
  split; [done|]. split; [split_and!; [done|by rewrite Hm'|by rewrite Hs']|].
  split; [|done]. apply (running_not_fatal cfg); [done|by rewrite Hm'].
Qed.

Lemma finishes_step cfg s :
  stopping cfg s -> finishes cfg (modelLoadLoop_step cfg noEnv s) -> finishes cfg s.
Proof.
  intros Hst (n & Hp & Hm & Hf).
  destruct (stopping_step cfg s Hst) as (Hstep & _ & Hf' & Hm' & _).
  destruct Hst as (Hreach & Hmt & _).
  exists (S n). simpl. rewrite Hstep. split; [done|]. split; [by rewrite <- Hm'|].
  rewrite (running_not_fatal cfg s Hreach Hmt), <- Hf'. exact Hf.
Qed.

Lemma finishes_sweep cfg n : forall s final names i,
  stopping cfg s -> poll s = P_Sweep final names i ->
  (Z.to_nat (sweepBound names - i) <= n)%nat ->
  (forall s', stopping cfg s' -> poll s' = (if final then P_Done else P_Check2) ->
              finishes cfg s') ->
  finishes cfg s.
Proof.
  induction n as [|n IH]; intros s final names i Hst Hp Hn Hnext;
    apply finishes_step; try done;
    destruct (stopping_step cfg s Hst) as (_ & Hst' & Hf' & _);
    destruct (sweep_index_ok cfg s (proj1 Hst) (proj1 (proj2 Hst)))
      as (_ & Hsw); destruct (Hsw final names i Hp) as (_ & _ & Hi & Hsome);
    revert Hst' Hf'; unfold modelLoadLoop_step; rewrite Hp;
    destruct (Z.ltb_spec i (sweepBound names)) as [Hlt|Hge]; try lia.
  - intros Hst' _. by apply Hnext.
  - destruct (Hsome Hlt) as [name Hname]. rewrite Hname. intros Hst' _.
    apply (IH _ final names (i + 1)); try done. lia.
  - intros Hst' _. by apply Hnext.
Qed.

Lemma finishes_final cfg s : stopping cfg s -> poll s = P_Final -> finishes cfg s.
Proof.
  intros Hst Hp. apply finishes_step; [done|].
  destruct (stopping_step cfg s Hst) as (_ & Hst' & _).
  revert Hst'. unfold modelLoadLoop_step. rewrite Hp. intros Hst'.
  apply (finishes_sweep cfg _ _ true (modelNames (manager s)) 0 Hst' eq_refl (le_n _)).
  intros s' _ Hp'. by apply finishes_done.
Qed.

Lemma finishes_check cfg s :
  stopping cfg s -> poll s = P_Top \/ poll s = P_Check2 -> finishes cfg s.
Proof.
  intros Hst Hp. apply finishes_step; [done|].
  destruct (stopping_step cfg s Hst) as (_ & Hst' & _).
  apply finishes_final; [done|]. unfold modelLoadLoop_step.
  destruct Hst as (_ & _ & Hs). destruct Hp as [Hp|Hp]; by rewrite Hp, Hs.
Qed.

Lemma finishes_any cfg s :
  stopping cfg s -> poll s <> P_NotStarted ->
  (mutexHeld s = true -> poll s <> P_Sleep /\ poll s <> P_Blocked) ->
  finishes cfg s.
Proof.
  intros Hst Hns Hmx. destruct (poll s) as [| | |l| |final names i| | | | |] eqn:Hp.
  - done.
  - apply finishes_check; auto.
  - destruct (stopping_step cfg s Hst) as (_ & Hst1 & _).
    destruct (stopping_step cfg _ Hst1) as (_ & Hst2 & _).
    do 2 (apply finishes_step; [done|]).
    apply finishes_check; [done|]. right.
    unfold modelLoadLoop_step at 1. unfold modelLoadLoop_step at 1. by rewrite Hp.
  - apply finishes_step; [done|].
    destruct (stopping_step cfg s Hst) as (_ & Hst1 & _).
    apply finishes_check; [done|]. right. unfold modelLoadLoop_step. by rewrite Hp.
  - apply finishes_step; [done|].
    destruct (stopping_step cfg s Hst) as (_ & Hst1 & Hf1 & _).
    revert Hst1 Hf1. unfold modelLoadLoop_step. rewrite Hp.
    destruct (Nat.ltb 0 (length (modelNames (manager s)))); [|done].
    intros Hst1 _.
    apply (finishes_sweep cfg _ _ false (modelNames (manager s)) 0 Hst1 eq_refl (le_n _)).
    intros s' Hst' Hp'. apply finishes_check; auto.
  - apply (finishes_sweep cfg _ s final names i Hst Hp (le_n _)).
    intros s' Hst' Hp'. destruct final; [by apply finishes_done|].
    apply finishes_check; auto.
  - apply finishes_check; auto.
  - assert (Hfree : mutexHeld s = false).
    { destruct (mutexHeld s); [|done]. by destruct (Hmx eq_refl). }
    apply finishes_step; [done|].
    destruct (stopping_step cfg s Hst) as (_ & Hst1 & _).
    apply finishes_check; [done|]. left. unfold modelLoadLoop_step.
    destruct Hst as (_ & _ & Hs). by rewrite Hp, Hfree, Hs.
  - assert (Hfree : mutexHeld s = false).
    { destruct (mutexHeld s); [|done]. by destruct (Hmx eq_refl). }
    apply finishes_step; [done|].
    destruct (stopping_step cfg s Hst) as (_ & Hst1 & _).
    apply finishes_check; [done|]. left. unfold modelLoadLoop_step.
    by rewrite Hp, Hfree.
  - by apply finishes_final.
  - by apply finishes_done.
Qed.

(** X17.  Once the flag is up, the polling thread, finding no new model,
    comes to the end of [modelLoadLoop] in finitely many of its own steps
    from wherever it is, unless the main thread holds the mutex while the
    polling thread is at its wait; the join of line 350 then returns and
    [selfplay] ends. *)
Theorem poller_finishes cfg s :
  reachable cfg s -> shouldStop s = true -> poll s <> P_NotStarted ->
  (mutexHeld s = true -> poll s <> P_Sleep /\ poll s <> P_Blocked) ->
  exists n,
    let s' := run cfg (replicate n (APoller noEnv)) s in
    poll s' = P_Done /\
    (mainT s = M_JoinPoller -> selfplay_exit (step cfg AMain s') <> None).
Proof.
  intros Hreach Hs Hns Hmx.
  assert (Hm : mainT s <> M_Threw).
  { pose proof (reachable_threadsInv cfg s Hreach) as HT. unfold threadsInv in HT.
    intros Hm. rewrite Hm in HT. by destruct HT. }
  destruct (finishes_any cfg s) as (n & Hp & Hm' & Hf'); [done|done|done|].
  exists n. split; [done|]. intros Hj.
  unfold step. rewrite Hf', (running_not_fatal cfg s Hreach Hm).
  unfold selfplay_step, selfplay_exit. rewrite Hm', Hj, Hp. done.
Qed.

Lemma poller_finishes_witness :
  reachable cfg1 interrupted /\
  exists n, poll (run cfg1 (replicate n (APoller noEnv)) interrupted) = P_Done.
Proof.
  assert (Hr : reachable cfg1 interrupted).
  { apply run_reachable; [apply inCallback_reachable|reflexivity]. }
  split; [exact Hr|].
  destruct (poller_finishes cfg1 interrupted Hr) as (n & Hp & _).
  - reflexivity.
  - intros H. vm_compute in H. discriminate H.
  - intros Hmx. vm_compute in Hmx. discriminate Hmx.
  - exists n. exact Hp.
Defined.

(** ** Where the game records go *)

Lemma enqueuedTo_app i tr tr' : enqueuedTo i (tr ++ tr') = enqueuedTo i tr ++ enqueuedTo i tr'.
Proof. apply omap_app. Qed.

Lemma enqueuedTo_cons i e tr : enqueuedTo i (e :: tr) = enqueuedTo i [e] ++ enqueuedTo i tr.
Proof. by rewrite <- enqueuedTo_app. Qed.

Lemma enqueuedTo_other i t cs :
  (forall k, t <> TWorker k) -> enqueuedTo i (pair t <$> cs) = [].
Proof.
  intros Ht. induction cs as [|c cs IH]; [done|]. rewrite fmap_cons, enqueuedTo_cons, IH.
  destruct t; [done..|]. by destruct (Ht k).
Qed.

Lemma enqueuedTo_start i cfg env : enqueuedTo i (trace (selfplay_startup cfg env)) = [].
Proof.
  unfold selfplay_startup.
  destruct (loadLatestNeuralNetIntoManager cfg env None []) as [[[] m] evs]; simpl.
  - by apply enqueuedTo_other.
  - rewrite enqueuedTo_app, enqueuedTo_other by done. done.
Qed.

Lemma pipes_insert (m : Manager) i h h' :
  m !! i = Some h -> pipeline h' = pipeline h ->
  pipeline <$> <[i := h']> m = pipeline <$> m.
Proof.
  intros Hi Hn. rewrite list_fmap_insert, Hn. apply list_insert_id.
  by rewrite list_lookup_fmap, Hi.
Qed.

Lemma maybeDestroy_pipeline h : pipeline (maybeDestroy h) = pipeline h.
Proof. unfold maybeDestroy. by destruct (drained h). Qed.

Lemma pipes_acquire m h m' :
  acquireLatest m = Some (h, m') -> pipeline <$> m' = pipeline <$> m.
Proof.
  unfold acquireLatest. destruct (latest m) as [i|]; [|done].
  destruct (m !! i) as [hh|] eqn:Hi; [|done]. intros [= <- <-].
  by apply pipes_insert with (h := hh).
Qed.

Lemma pipes_release m i m' : release m i = Some m' -> pipeline <$> m' = pipeline <$> m.
Proof.
  unfold release. destruct (m !! i) as [hh|] eqn:Hi; [|done].
  destruct (destroyed hh); [done|]. intros [= <-].
  apply pipes_insert with (h := hh); [done|]. by rewrite maybeDestroy_pipeline.
Qed.

Lemma pipes_count m i : pipeline <$> countOneGameStarted m i = pipeline <$> m.
Proof.
  unfold countOneGameStarted. destruct (m !! i) as [hh|] eqn:Hi; [|done].
  by apply pipes_insert with (h := hh).
Qed.

Lemma pipes_schedule m n : pipeline <$> scheduleCleanupModelWhenFree m n = pipeline <$> m.
Proof.
  unfold scheduleCleanupModelWhenFree.
  destruct (oldestFrom (named n) 0 m) as [i|]; [|done].
  destruct (m !! i) as [hh|] eqn:Hi; [|done].
  apply pipes_insert with (h := hh); [done|]. by rewrite maybeDestroy_pipeline.
Qed.

(** A handle that a game thread holds is one the manager has and has not
    destroyed. *)
Lemma held_handle_alive s k w h :
  Good s -> game s !! k = Some w -> (0 < holds w h)%nat ->
  exists hh, manager s !! h = Some hh /\ destroyRuns hh = 0%nat.
Proof.
  intros (_ & HM & _) Hk Hpos.
  pose proof (holders_ge (game s) k w h Hk) as Hge.
  destruct (held_alive (manager s) (holders (game s)) h HM) as (hh & Hh & _ & Hd); [lia|].
  by exists hh.
Qed.

Lemma one_refl h : one h h = 1%nat.
Proof. unfold one. by case_decide. Qed.

Lemma pipelineInv_worker cfg k c s :
  Good s -> pipelineInv s -> pipelineInv (gameLoop_step cfg k c s).
Proof.
  intros HG HI i. specialize (HI i).
  assert (Hsame : forall m' cs,
            pipeline <$> m' = pipeline <$> manager s ->
            (forall c0, c0 ∈ cs -> forall h g, c0 <> CEnqueue h g) ->
            enqueuedTo i (trace s ++ (pair (TWorker k) <$> cs))
            = default [] ((pipeline <$> m') !! i)).
  { intros m' cs Hm Hcs. rewrite Hm, <- HI, enqueuedTo_app.
    assert (Hnil : enqueuedTo i (pair (TWorker k) <$> cs) = []); [|by rewrite Hnil, app_nil_r].
    clear -Hcs. induction cs as [|c0 cs IH]; [done|].
    rewrite fmap_cons, enqueuedTo_cons, IH.
    - destruct c0; try done. by destruct (Hcs (CEnqueue h gameIdx) (list_elem_of_here _ _) h gameIdx).
    - intros c1 Hc1. apply Hcs. by apply list_elem_of_further. }
  assert (H1 : forall m' c0, pipeline <$> m' = pipeline <$> manager s ->
            (forall h g, c0 <> CEnqueue h g) ->
            enqueuedTo i (trace s ++ [(TWorker k, c0)])
            = default [] ((pipeline <$> m') !! i)).
  { intros m' c0 Hm Hc0. apply (Hsame m' [c0] Hm). intros c1 Hc1.
    apply list_elem_of_singleton in Hc1 as ->. done. }
  assert (H0 : enqueuedTo i (trace s) = default [] ((pipeline <$> manager s) !! i)) by done.
  unfold gameLoop_step. destruct (game s !! k) as [w|] eqn:Hk; [|done].
  destruct w as [| |h|h idx|h idx|h idx|h h' idx|h gd|h sc|]; simpl.
  - by destruct (shouldStop s).
  - destruct (acquireLatest (manager s)) as [[h m]|] eqn:Ha; [|done]. simpl.
    apply H1; [by eapply pipes_acquire|done].
  - simpl. by apply H1.
  - simpl. apply H1; [apply pipes_count|done].
  - destruct (idx <? maxGamesTotal cfg); simpl; [by apply H1|done].
  - destruct c as [|finished].
    + destruct (switchNetsMidGame cfg); [|done].
      destruct (acquireLatest (manager s)) as [[h' m]|] eqn:Ha; [|done]. simpl.
      apply H1; [by eapply pipes_acquire|done].
    + simpl. by apply H1.
  - unfold checkForNewNNEval_finish.
    destruct (Nat.eqb h' h); (destruct (release (manager s) _) as [m|] eqn:Hr; [|done]);
      simpl; (apply H1; [by eapply pipes_release|done]).
  - destruct gd as [g|]; [|done]. simpl.
    destruct (held_handle_alive s k _ h HG Hk) as (hh & Hh & _).
    { simpl. rewrite one_refl. lia. }
    unfold enqueueDataToWrite. rewrite Hh, enqueuedTo_app, HI, list_fmap_insert.
    unfold enqueuedTo at 1. simpl.
    destruct (decide (i = h)) as [->|Hne].
    + rewrite Nat.eqb_refl. simpl.
      rewrite list_lookup_insert_eq by (rewrite length_fmap; by eapply lookup_lt_Some).
      by rewrite list_lookup_fmap, Hh.
    + destruct (Nat.eqb_spec h i) as [->|_]; [done|]. simpl.
      by rewrite list_lookup_insert_ne, app_nil_r.
  - destruct (release (manager s) h) as [m|] eqn:Hr; [|done]. simpl.
    apply H1; [by eapply pipes_release|done].
  - done.
Qed.

Lemma pipelineInv_poller cfg env s : pipelineInv s -> pipelineInv (modelLoadLoop_step cfg env s).
Proof.
  intros HI i. specialize (HI i).
  assert (Hsame : forall m' cs,
            pipeline <$> m' = pipeline <$> manager s ->
            enqueuedTo i (trace s ++ (pair TPoller <$> cs))
            = default [] ((pipeline <$> m') !! i)).
  { intros m' cs Hm. by rewrite Hm, <- HI, enqueuedTo_app, enqueuedTo_other, app_nil_r. }
  unfold modelLoadLoop_step.
  destruct (poll s) as [| | |lastNetName| |final names j| | | | |]; simpl;
    try done; try (by repeat case_match).
  - destruct (loadLatestNeuralNetIntoManager cfg env (Some lastNetName) (manager s))
      as [[ok m'] evs] eqn:Hload.
    apply load_cases in Hload as [[-> ->]|(-> & name & _ & _ & ->)]; simpl.
    + by apply Hsame.
    + rewrite enqueuedTo_app, enqueuedTo_other, app_nil_r, HI by done.
      unfold loadModelAndStartDataWriting. rewrite fmap_app. simpl.
      destruct (decide (i < length (manager s))%nat) as [Hlt|Hge].
      * by rewrite lookup_app_l by (by rewrite length_fmap).
      * rewrite (lookup_ge_None_2 (pipeline <$> manager s)) by (rewrite length_fmap; lia).
        rewrite lookup_app_r by (rewrite length_fmap; lia). rewrite length_fmap.
        by destruct (i - length (manager s))%nat as [|[|]].
  - destruct (j <? sweepBound names); [|done].
    destruct (names !! Z.to_nat j) as [name|]; [|done]. simpl.
    apply (Hsame _ [CSchedule name]). apply pipes_schedule.
Qed.

Lemma pipelineInv_step cfg a s :
  reachable cfg s -> pipelineInv s -> pipelineInv (step cfg a s).
Proof.
  intros Hreach HI. unfold step. destruct (fatal s) eqn:Hf; [done|].
  destruct a as [|k c|env|].
  - done.
  - apply pipelineInv_worker; [|done].
    apply reachable_Inv in Hreach as [(_ & Hf' & _)|HG]; [congruence|done].
  - by apply pipelineInv_poller.
  - intros i. specialize (HI i).
    destruct (selfplay_step_cases cfg s) as [[Hm ->]|(Hm & _ & _ & _ & Hmg & _ & cs & Ht)].
    + done.
    + by rewrite Hmg, Ht, enqueuedTo_app, enqueuedTo_other, app_nil_r.
Qed.

Lemma reachable_pipelineInv cfg s : reachable cfg s -> pipelineInv s.
Proof.
  induction 1 as [env|s a Hreach IH Hadm]; [|by apply pipelineInv_step].
  intros i. rewrite enqueuedTo_start. unfold selfplay_startup.
  destruct (loadLatestNeuralNetIntoManager cfg env None []) as [[ok m] evs] eqn:Hload.
  apply load_cases in Hload as [[-> ->]|(-> & name & _ & _ & ->)]; simpl.
  - done.
  - by destruct i as [|[|]].
Qed.
(** ** Completed games (C5) *)

(** C5.  In the calls of a game thread, every return of runGame with a
    game record is followed by the enqueueDataToWrite of that record under
    the handle held at the return, and that by the release of the same
    handle, with nothing in between; every enqueueDataToWrite comes
    directly after the return that produced its record; and the handle it
    names is the one the thread acquired last, so that after a swap in the
    middle of the game it is the newer handle.  A thread that is about to
    enqueue holds its handle, and the manager has not destroyed it.  The
    records arrive: the pipeline of every handle holds exactly the records
    that the game threads have enqueued under it, in the order of the
    calls, and nothing is enqueued under a handle that the manager does
    not have.  No record is enqueued twice, by whichever thread. *)
Theorem completed_game_enqueued cfg s k w :
  reachable cfg s -> game s !! k = Some w ->
  (forall pre idx h post,
      calls_of (TWorker k) (trace s) = pre ++ CRunGameReturn idx h true :: post ->
      (post = [] /\ w = W_Enqueue h (Some idx)) \/
      (post = [CEnqueue h idx] /\ w = W_Release h true) \/
      (exists rest, post = CEnqueue h idx :: CRelease h :: rest)) /\
  (forall pre h g post,
      calls_of (TWorker k) (trace s) = pre ++ CEnqueue h g :: post ->
      (exists pre', pre = pre' ++ [CRunGameReturn g h true]) /\
      last (acquired pre) = Some h) /\
  (forall h gameData, w = W_Enqueue h gameData ->
     exists hh, manager s !! h = Some hh /\ destroyRuns hh = 0%nat /\ 0 < refCount hh) /\
  (forall i h, manager s !! i = Some h -> pipeline h = enqueuedTo i (trace s)) /\
  (forall i, manager s !! i = None -> enqueuedTo i (trace s) = []) /\
  (valid_config cfg -> forall idx, (enqueued idx (trace s) <= 1)%nat).
Proof.
  intros Hreach Hk.
  pose proof (worker_traces cfg completes completes_start (completes_step cfg)
                s Hreach k w Hk) as (H1 & H2 & _).
  pose proof (worker_traces cfg tagged tagged_start (tagged_step cfg)
                s Hreach k w Hk) as (_ & H3).
  pose proof (reachable_pipelineInv cfg s Hreach) as HI.
  split_and!.
  - exact H1.
  - intros pre h g post Heq. split; [by eapply H2|by eapply H3].
  - intros h gd ->.
    pose proof (reachable_Inv cfg s Hreach) as [(_ & _ & Hg & _)|HG];
      [by rewrite Hg in Hk|].
    pose proof HG as (_ & HM & _).
    pose proof (holders_ge (game s) k _ h Hk) as Hge. simpl in Hge.
    rewrite one_refl in Hge.
    destruct (held_alive (manager s) (holders (game s)) h HM) as (hh & Hh & [Hrc _] & Hd);
      [lia|].
    exists hh. split_and!; try done. lia.
  - intros i h Hi. specialize (HI i). by rewrite HI, list_lookup_fmap, Hi.
  - intros i Hi. specialize (HI i). by rewrite HI, list_lookup_fmap, Hi.
  - intros Hv idx. by apply (enqueued_once cfg s idx Hv Hreach).
Qed.

Lemma completed_game_enqueued_witness :
  reachable cfg1 swapped /\ game swapped !! 0%nat = Some W_Top /\
  enqueuedTo 1 (trace swapped) = [0] /\
  (forall pre h g post,
      calls_of (TWorker 0) (trace swapped) = pre ++ CEnqueue h g :: post ->
      (exists pre', pre = pre' ++ [CRunGameReturn g h true]) /\
      last (acquired pre) = Some h) /\
  (forall i h, manager swapped !! i = Some h -> pipeline h = enqueuedTo i (trace swapped)).
Proof.
  split; [apply swapped_reachable|]. split; [reflexivity|]. split; [reflexivity|].
  pose proof (completed_game_enqueued cfg1 swapped 0%nat W_Top swapped_reachable eq_refl)
    as (_ & H2 & _ & H4 & _).
  split; [exact H2|exact H4].
Defined.

(** ** The shutdown sequence of the main thread (C6) *)

Lemma run_cons cfg a acts s : run cfg (a :: acts) s = run cfg acts (step cfg a s).
Proof. done. Qed.

(** The join loop of lines 339-340 when every game thread has finished. *)
Lemma join_all cfg n : forall s i,
  fatal s = false -> mainT s = M_Join i -> alldone (game s) ->
  (length (game s) - i)%nat = n ->
  run cfg (replicate (S n) AMain) s = set_main M_Store s.
Proof.
  induction n as [|n IH]; intros s i Hf Hm Hdone Hn.
  - simpl. unfold step, selfplay_step. rewrite Hf, Hm.
    destruct (Nat.ltb_spec i (length (game s))); [lia|done].
  - change (replicate (S (S n)) AMain) with (AMain :: replicate (S n) AMain).
    rewrite run_cons.
    assert (Hstep : step cfg AMain s = set_main (M_Join (S i)) s).
    { unfold step, selfplay_step. rewrite Hf, Hm.
      destruct (Nat.ltb_spec i (length (game s))); [|lia].
      destruct (lookup_lt_is_Some_2 (game s) i) as [w Hw]; [done|].
      rewrite Hw. by rewrite (Hdone i w Hw). }
    rewrite Hstep. rewrite (IH _ (S i)); try done. simpl. lia.
Qed.

Lemma run_app cfg acts acts' s : run cfg (acts ++ acts') s = run cfg acts' (run cfg acts s).
Proof. apply fold_left_app. Qed.

(** C6.  Once every game thread has finished, the main thread, from
    wherever it is in its join loop, gets through the joins, stores true
    to [shouldStop] whatever the flag was, locks the mutex, notifies and
    arrives at the join of the polling thread: its calls are the store
    and then the notify_all, and nothing else.  Whenever the store is in
    the trace, every game thread has finished, none of them made a call
    after the store, and the flag is true; a notify_all in the trace has
    the store before it; the main thread gets to the join of the polling
    thread, and past it, only with the notify_all in the trace.  From the
    store on every test of the flag by the polling thread sees it true:
    at the top of its loop and at the second test it leaves the loop, the
    predicate of its wait is true, so that it does not go to sleep, and
    out of a wait begun earlier it comes back to the top of the loop.  So
    the polling thread, finding no new model, then finishes in finitely
    many steps of its own from wherever it is, and the join returns,
    unless it needs the mutex for its wait while the main thread holds it;
    in that one case it stays where it is for ever, which the flag has no
    part in. *)
Theorem shutdown_order cfg s :
  reachable cfg s ->
  (forall i, mainT s = M_Join i -> (forall k w, game s !! k = Some w -> w = W_Done) ->
     let s' := run cfg (replicate (S (length (game s) - i) + 3) AMain) s in
     mainT s' = M_JoinPoller /\ shouldStop s' = true /\ mutexHeld s' = true /\
     trace s' = trace s ++ [(TMain, CStoreStop); (TMain, CNotifyAll)]) /\
  (forall pre post, trace s = pre ++ (TMain, CStoreStop) :: post ->
     (forall k w, game s !! k = Some w -> w = W_Done) /\
     (forall k, calls_of (TWorker k) post = []) /\
     shouldStop s = true) /\
  (forall pre post, trace s = pre ++ (TMain, CNotifyAll) :: post ->
     (TMain, CStoreStop) ∈ pre) /\
  (mainT s = M_JoinPoller \/ mainT s = M_Exit -> (TMain, CNotifyAll) ∈ trace s) /\
  (mainT s = M_Exit -> poll s = P_Done) /\
  (forall env, (TMain, CStoreStop) ∈ trace s ->
     (poll s = P_Top \/ poll s = P_Check2 ->
      poll (step cfg (APoller env) s) = P_Final) /\
     (poll s = P_Sleep ->
      poll (step cfg (APoller env) s) = if mutexHeld s then P_Sleep else P_Top) /\
     (poll s = P_Blocked ->
      poll (step cfg (APoller env) s) = if mutexHeld s then P_Blocked else P_Top)) /\
  ((TMain, CStoreStop) ∈ trace s ->
   (mutexHeld s = true -> poll s <> P_Sleep /\ poll s <> P_Blocked) ->
   exists n,
     let s' := run cfg (replicate n (APoller noEnv)) s in
     poll s' = P_Done /\
     (mainT s = M_JoinPoller -> mainT (step cfg AMain s') = M_Exit)) /\
  (mutexHeld s = true -> poll s = P_Sleep \/ poll s = P_Blocked ->
   forall acts, poll (run cfg acts s) = poll s /\ mainT (run cfg acts s) <> M_Exit).
Proof.
  intros Hreach.
  destruct (reachable_mainInv cfg s Hreach) as (Hst & Hstore & Hnotify & Hps & Hpn & Hexit).
  assert (Hflag : forall pre post, trace s = pre ++ (TMain, CStoreStop) :: post ->
            alldone (game s) /\ shouldStop s = true).
  { intros pre post Heq. destruct (Hstore _ _ Heq) as [Hpast _].
    destruct (mainT s); try done. }
  assert (Hstored : (TMain, CStoreStop) ∈ trace s ->
            shouldStop s = true /\ fatal s = false /\ mainT s <> M_Threw /\
            poll s <> P_NotStarted).
  { intros Hin. apply list_elem_of_split in Hin as (pre & post & Heq).
    destruct (Hflag _ _ Heq) as [_ Hs]. destruct (Hstore _ _ Heq) as [Hpast _].
    assert (Hm : mainT s <> M_Threw) by (intros Hm; by rewrite Hm in Hpast).
    split; [done|]. split; [by apply (running_not_fatal cfg)|]. split; [done|].
    pose proof (reachable_threadsInv cfg s Hreach) as HT. unfold threadsInv in HT.
    destruct (mainT s); try done; by destruct HT. }
  split_and!.
  - intros i Hm Hdone s'. subst s'.
    assert (Hf : fatal s = false).
    { apply (running_not_fatal cfg); [done|]. by rewrite Hm. }
    rewrite replicate_add, run_app.
    rewrite (join_all cfg (length (game s) - i) s i Hf Hm Hdone eq_refl).
    change (replicate 3 AMain) with [AMain; AMain; AMain]. rewrite !run_cons.
    assert (H1 : step cfg AMain (set_main M_Store s)
                 = emit TMain CStoreStop (set_main M_Lock (set_stop s))).
    { unfold step, selfplay_step. simpl. by rewrite Hf. }
    rewrite H1.
    assert (H2 : step cfg AMain (emit TMain CStoreStop (set_main M_Lock (set_stop s)))
                 = set_main M_Notify
                     (set_mutex true (emit TMain CStoreStop (set_main M_Lock (set_stop s))))).
    { unfold step, selfplay_step. simpl. by rewrite Hf. }
    rewrite H2.
    unfold step, selfplay_step. simpl. rewrite Hf. simpl.
    by rewrite <- app_assoc.
  - intros pre post Heq. destruct (Hflag _ _ Heq) as [Ha Hs].
    destruct (Hstore _ _ Heq) as [_ Hw]. done.
  - intros pre post Heq. by destruct (Hnotify _ _ Heq).
  - intros [Hm|Hm]; apply Hpn; by rewrite Hm.
  - done.
  - intros env Hin. destruct (Hstored Hin) as (Hs & Hf & _).
    unfold step, modelLoadLoop_step. rewrite Hf, Hs. split_and!.
    + intros [Hp | Hp]; rewrite Hp; reflexivity.
    + intros Hp. rewrite Hp. destruct (mutexHeld s); simpl; [by rewrite Hp|done].
    + intros Hp. rewrite Hp. destruct (mutexHeld s); simpl; [by rewrite Hp|done].
  - intros Hin Hmx. destruct (Hstored Hin) as (Hs & Hf & Hm & Hns).
    destruct (finishes_any cfg s) as (n & Hp & Hm' & Hf'); [done|done|done|].
    exists n. split; [done|]. intros Hj.
    unfold step. rewrite Hf', Hf. unfold selfplay_step. by rewrite Hm', Hj, Hp.
  - intros Hmx Hp acts.
    pose proof (reachable_mutexInv cfg s Hreach) as HI. unfold mutexInv in HI.
    assert (Hm : mainT s = M_Notify \/ mainT s = M_JoinPoller).
    { rewrite Hmx in HI. destruct (mainT s); try done; auto. }
    assert (Hw : waiting (poll s) = true) by (destruct Hp as [Hp|Hp]; by rewrite Hp).
    destruct (hung_run cfg acts s Hmx Hm Hw) as [Hm' Hp'].
    split; [done|]. destruct Hm' as [Hm'|Hm']; by rewrite Hm'.
Qed.

Lemma shutdown_order_witness :
  reachable cfg1 workersDone /\ mainT workersDone = M_Join 0 /\
  (let s' := run cfg1 (replicate (S (length (game workersDone) - 0) + 3) AMain)
               workersDone in
   mainT s' = M_JoinPoller /\ shouldStop s' = true /\ mutexHeld s' = true /\
   trace s' = trace workersDone ++ [(TMain, CStoreStop); (TMain, CNotifyAll)]).
Proof.
  assert (Hr : reachable cfg1 workersDone).
  { apply run_reachable; [apply atCeiling_reachable|reflexivity]. }
  split; [exact Hr|]. split; [reflexivity|].
  apply (proj1 (shutdown_order cfg1 workersDone Hr) 0%nat).
  - reflexivity.
  - intros k w Hk. vm_compute in Hk. destruct k as [|k]; [|discriminate Hk].
    injection Hk as <-. reflexivity.
Defined.
